(** * JSONL-Wizard: the conversation store of [src/app/page.tsx]

    A shallow embedding of the React component that imports a JSONL file,
    lets the user browse, filter and edit conversations and exports them
    again, together with the part of the ECMAScript library it calls
    ([String.prototype.split], [trim], [includes], [JSON.parse],
    [JSON.stringify]).

    Strings are sequences of UTF-16 code units, numbers are IEEE 754
    binary64 values, objects keep the ECMAScript property order, and the
    objects held by the React state live in a store of references, because
    the component compares conversations by identity ([indexOf], [===]). *)

From Stdlib Require Import ZArith NArith Lia String Ascii Sorted.
From stdpp Require Import base numbers option list.

Set Default Proof Using "Type".

(* ================================================================== *)
(** * Part I: definitions *)
(* ================================================================== *)

(** ** ECMAScript strings *)

(** A string value is a finite sequence of 16-bit code units. *)
Definition jsstring : Type := list N.

(** The code units of an ASCII literal. *)
Definition str (s : string) : jsstring :=
  map N_of_ascii (list_ascii_of_string s).

(** A literal in which ['] stands for the double quote. *)
Definition json (s : string) : jsstring :=
  map (fun c => if (c =? 39)%N then 34%N else c) (str s).

(** [s.split(sep)] for a one-unit separator: never empty, one more piece
    than there are separators. *)
Fixpoint split (sep : N) (s : jsstring) : list jsstring :=
  match s with
  | [] => [[]]
  | c :: s' =>
      if (c =? sep)%N then [] :: split sep s'
      else match split sep s' with
           | piece :: pieces => (c :: piece) :: pieces
           | [] => [[c]]
           end
  end.

(** [pieces.join(sep)]. *)
Fixpoint join (sep : jsstring) (pieces : list jsstring) : jsstring :=
  match pieces with
  | [] => []
  | [piece] => piece
  | piece :: pieces' => piece ++ sep ++ join sep pieces'
  end.

(** WhiteSpace and LineTerminator code points, which are what [trim]
    strips (ECMA-262, 12.2 and 12.3). *)
Definition is_WhiteSpace (c : N) : bool :=
  ((c =? 9) || (c =? 10) || (c =? 11) || (c =? 12) || (c =? 13) || (c =? 32)
   || (c =? 160) || (c =? 5760) || ((8192 <=? c) && (c <=? 8202))
   || (c =? 8232) || (c =? 8233) || (c =? 8239) || (c =? 8287)
   || (c =? 12288) || (c =? 65279))%N.

Fixpoint trimStart (s : jsstring) : jsstring :=
  match s with
  | [] => []
  | c :: s' => if is_WhiteSpace c then trimStart s' else s
  end.

Definition trimEnd (s : jsstring) : jsstring :=
  reverse (trimStart (reverse s)).

Definition trim (s : jsstring) : jsstring := trimEnd (trimStart s).

Fixpoint startsWith (s t : jsstring) {struct t} : bool :=
  match t, s with
  | [], _ => true
  | _ :: _, [] => false
  | d :: t', c :: s' => (c =? d)%N && startsWith s' t'
  end.

(** [s.includes(t)]. *)
Fixpoint includes (s t : jsstring) : bool :=
  startsWith s t
  || match s with
     | [] => false
     | _ :: s' => includes s' t
     end.

(** ** Decimal digits *)

Definition is_digit (c : N) : bool := ((48 <=? c) && (c <=? 57))%N.

(** The longest run of decimal digits at the head of [s], as digit values. *)
Fixpoint take_digits (s : jsstring) : list Z * jsstring :=
  match s with
  | [] => ([], [])
  | c :: s' =>
      if is_digit c
      then let '(ds, r) := take_digits s' in (Z.of_N (c - 48) :: ds, r)
      else ([], s)
  end.

Definition digits_value (ds : list Z) : Z :=
  fold_left (fun acc d => 10 * acc + d)%Z ds 0%Z.

Definition digit_chars (ds : list Z) : jsstring :=
  map (fun d => Z.to_N d + 48)%N ds.

Fixpoint digits_fuel (fuel : nat) (n : Z) (acc : list Z) : list Z :=
  match fuel with
  | O => acc
  | S fuel' =>
      if (n <? 10)%Z then n :: acc
      else digits_fuel fuel' (n / 10)%Z ((n mod 10)%Z :: acc)
  end.

(** The decimal digits of [n >= 0], most significant first; [0] is [[0]]. *)
Definition decimal_digits (n : Z) : list Z :=
  digits_fuel (S (Z.to_nat (Z.log2 n))) n [].

(** ** Numbers: IEEE 754 binary64 *)

(** A Number is a signed zero, [(-1)^neg * m * 2^e] or an infinity. NaN is
    left out: neither [JSON.parse] nor the component can produce it. *)
Inductive number : Type :=
  | NZero (neg : bool)
  | NFinite (neg : bool) (m : positive) (e : Z)
  | NInfinity (neg : bool).

Global Instance number_eq_dec : EqDecision number.
Proof. solve_decision. Defined.

(** 53 bits of mantissa; exponents of the integral mantissa from [-1074]
    (subnormals) to [971]. *)
Definition canonical_mantissa (m : positive) (e : Z) : Prop :=
  ((2 ^ 52 <= Z.pos m < 2 ^ 53 /\ -1074 <= e <= 971)
   \/ (Z.pos m < 2 ^ 52 /\ e = -1074))%Z.

Definition number_wf (x : number) : Prop :=
  match x with
  | NFinite _ m e => canonical_mantissa m e
  | _ => True
  end.

Definition is_finite (x : number) : bool :=
  match x with
  | NInfinity _ => false
  | _ => true
  end.

Section Rounding.
Local Open Scope Z_scope.

(** [p / q / 2^c] as a fraction of integers. *)
Definition scale (p q c : Z) : Z * Z :=
  if 0 <=? c then (p, q * 2 ^ c) else (p * 2 ^ (- c), q).

(** The exponent [c] with [2^52 <= p / q / 2^c < 2^53]. The difference of
    the bit lengths is that exponent or one less. *)
Definition binary_exponent (p q : Z) : Z :=
  let g := Z.log2 p - Z.log2 q - 53 in
  let '(n, d) := scale p q (g + 1) in
  if 2 ^ 52 <=? n / d then g + 1 else g.

(** The Number value for the positive rational [p / q]: round to nearest,
    ties to even; the exponent is held at [-1074] for subnormals, and what
    rounds to [2^1024] or more is infinite. *)
Definition round_ratio (neg : bool) (p q : Z) : number :=
  let c := Z.max (binary_exponent p q) (-1074) in
  let '(n, d) := scale p q c in
  let m := n / d in
  let r := n mod d in
  let m' := if (d <? 2 * r) || ((d =? 2 * r) && Z.odd m) then m + 1 else m in
  let '(m'', c') := if m' =? 2 ^ 53 then (2 ^ 52, c + 1) else (m', c) in
  match m'' with
  | Z.pos mp => if 971 <? c' then NInfinity neg else NFinite neg mp c'
  | _ => NZero neg
  end.

(** The Number value for [s * 10^e10], [s >= 0]. *)
Definition decimal_to_number (neg : bool) (s e10 : Z) : number :=
  if s =? 0 then NZero neg
  else if 0 <=? e10 then round_ratio neg (s * 10 ^ e10) 1
  else round_ratio neg s (10 ^ (- e10)).
End Rounding.

(** *** Reading a JSON number

    An optional minus sign; an integer part that is a single 0 or starts
    with a non-zero digit; an optional fraction of a point and at least one
    digit; an optional exponent of e or E, an optional sign and at least one
    digit. *)

Definition valid_int (ds : list Z) : bool :=
  match ds with
  | [] => false
  | [_] => true
  | d :: _ => negb (d =? 0)%Z
  end.

Definition parse_fraction (s : jsstring) : option (list Z * jsstring) :=
  match s with
  | c :: s1 =>
      if (c =? 46)%N then
        match take_digits s1 with
        | ([], _) => None
        | (ds, r) => Some (ds, r)
        end
      else Some ([], s)
  | [] => Some ([], [])
  end.

Definition parse_sign (s : jsstring) : Z * jsstring :=
  match s with
  | c :: r =>
      if (c =? 43)%N then (1%Z, r)
      else if (c =? 45)%N then ((-1)%Z, r)
      else (1%Z, s)
  | [] => (1%Z, [])
  end.

Definition parse_exponent (s : jsstring) : option (Z * jsstring) :=
  match s with
  | c :: s1 =>
      if ((c =? 101) || (c =? 69))%N then
        let '(sg, s2) := parse_sign s1 in
        match take_digits s2 with
        | ([], _) => None
        | (ds, r) => Some ((sg * digits_value ds)%Z, r)
        end
      else Some (0%Z, s)
  | [] => Some (0%Z, [])
  end.

Definition parse_unsigned (neg : bool) (s : jsstring) : option (number * jsstring) :=
  let '(ids, s1) := take_digits s in
  if valid_int ids then
    '(fds, s2) ← parse_fraction s1;
    '(ex, s3) ← parse_exponent s2;
    Some (decimal_to_number neg (digits_value (ids ++ fds))
            (ex - Z.of_nat (length fds)), s3)
  else None.

Definition parse_number (s : jsstring) : option (number * jsstring) :=
  match s with
  | c :: r => if (c =? 45)%N then parse_unsigned true r else parse_unsigned false s
  | [] => None
  end.

(** *** Number::toString (ECMA-262, 6.1.6.1.20), radix 10

    For a finite non-zero [x] the digits [s] (there are [k] of them) and the
    position [n] are such that [s * 10^(n-k)] reads back as [x] with [k] as
    small as possible. *)

Fixpoint drop_zeros (ds : list Z) : list Z :=
  match ds with
  | d :: ds' => if (d =? 0)%Z then drop_zeros ds' else ds
  | [] => []
  end.

Definition strip_trailing_zeros (ds : list Z) : list Z :=
  reverse (drop_zeros (reverse ds)).

Section NumberToString.
Local Open Scope Z_scope.

Definition format_exponent (e : Z) : jsstring :=
  [101%N; if 0 <=? e then 43%N else 45%N] ++ digit_chars (decimal_digits (Z.abs e)).

(** The digits [ds] with the decimal point after the [n]th. *)
Definition format_decimal (ds : list Z) (n : Z) : jsstring :=
  let k := Z.of_nat (length ds) in
  if (k <=? n) && (n <=? 21) then
    digit_chars ds ++ replicate (Z.to_nat (n - k)) 48%N
  else if (0 <? n) && (n <=? 21) then
    digit_chars (take (Z.to_nat n) ds) ++ [46%N] ++ digit_chars (drop (Z.to_nat n) ds)
  else if (-6 <? n) && (n <=? 0) then
    [48%N; 46%N] ++ replicate (Z.to_nat (- n)) 48%N ++ digit_chars ds
  else
    match ds with
    | [] => []
    | [d] => digit_chars [d] ++ format_exponent (n - 1)
    | d :: ds' => digit_chars [d] ++ [46%N] ++ digit_chars ds' ++ format_exponent (n - 1)
    end.

Definition sign_chars (neg : bool) : jsstring := if neg then [45%N] else [].

(** The text for [s * 10^t]. *)
Definition candidate_text (neg : bool) (s t : Z) : jsstring :=
  let ds := decimal_digits s in
  sign_chars neg ++ format_decimal (strip_trailing_zeros ds) (t + Z.of_nat (length ds)).

Definition reads_back (x : number) (text : jsstring) : bool :=
  bool_decide (parse_number text = Some (x, [])).

(** [10^(n-1) <= p / q < 10^n]. *)
Definition decimal_position (p q : Z) : Z :=
  let t := Z.of_nat (length (decimal_digits p)) - Z.of_nat (length (decimal_digits q)) in
  let ge := if 0 <=? t then q * 10 ^ t <=? p else q <=? p * 10 ^ (- t) in
  if ge then t + 1 else t.

(** The two [k]-digit neighbours of [p / q], the nearer one first. *)
Definition candidates (p q n k : Z) : list (Z * Z) :=
  let t := n - k in
  let '(num, den) := if 0 <=? t then (p, q * 10 ^ t) else (p * 10 ^ (- t), q) in
  let lo := num / den in
  if 2 * (num mod den) <=? den then [(lo, t); (lo + 1, t)] else [(lo + 1, t); (lo, t)].

Fixpoint shortest_from (fuel : nat) (x : number) (neg : bool) (p q n k : Z) : option jsstring :=
  match fuel with
  | O => None
  | S fuel' =>
      match filter (fun text => reads_back x text)
              (map (fun c => candidate_text neg c.1 c.2) (candidates p q n k)) with
      | text :: _ => Some text
      | [] => shortest_from fuel' x neg p q n (k + 1)
      end
  end.

(** The exact decimal expansion of [m * 2^e], without exponent. *)
Definition exact_decimal (m : positive) (e : Z) : jsstring :=
  if 0 <=? e then digit_chars (decimal_digits (Z.pos m * 2 ^ e))
  else
    let k := Z.to_nat (- e) in
    let ds := decimal_digits (Z.pos m * 5 ^ (- e)) in
    let ds' := replicate (S k - length ds) 0 ++ ds in
    digit_chars (take (length ds' - k) ds') ++ [46%N] ++ digit_chars (drop (length ds' - k) ds').

(** Seventeen digits are always enough for a binary64 value; the exact
    expansion stands behind the search so that the function is total. *)
Definition Number_toString (x : number) : jsstring :=
  match x with
  | NZero _ => [48%N]
  | NInfinity neg => sign_chars neg ++ str "Infinity"
  | NFinite neg m e =>
      let '(p, q) := if 0 <=? e then (Z.pos m * 2 ^ e, 1) else (Z.pos m, 2 ^ (- e)) in
      match shortest_from 17 x neg p q (decimal_position p q) 1 with
      | Some text => text
      | None => sign_chars neg ++ exact_decimal m e
      end
  end.
End NumberToString.

(** ** Values *)

(** Primitive values are compared by value; arrays and objects have an
    identity. [value] is the content of a JSON-like tree: what is reachable
    from one parsed line. *)
Inductive prim : Type :=
  | PUndefined
  | PNull
  | PBool (b : bool)
  | PNumber (x : number)
  | PString (s : jsstring).

#[local] Set Warnings "-register-all".
Inductive value : Type :=
  | VPrim (p : prim)
  | VArray (elems : list value)
  | VObject (props : list (jsstring * value)).

Global Instance prim_eq_dec : EqDecision prim.
Proof. solve_decision. Defined.

Abbreviation undefined := (VPrim PUndefined).
Abbreviation VNull := (VPrim PNull).
Abbreviation VBool b := (VPrim (PBool b)).
Abbreviation VNumber x := (VPrim (PNumber x)).
Abbreviation VString s := (VPrim (PString s)).

Definition is_undefined (v : value) : bool :=
  match v with
  | undefined => true
  | _ => false
  end.

(** *** Ordinary objects: own properties in [[OwnPropertyKeys]] order

    Array indices (canonical numeric strings below [2^32 - 1]) come first, in
    ascending order, then the other keys in the order of their creation. *)

Definition array_index (k : jsstring) : option Z :=
  let '(ds, r) := take_digits k in
  if valid_int ds && bool_decide (r = []) && (digits_value ds <? 2 ^ 32 - 1)%Z
  then Some (digits_value ds) else None.

Fixpoint lookup_property (k : jsstring) (o : list (jsstring * value)) : option value :=
  match o with
  | [] => None
  | (k', v) :: o' => if decide (k' = k) then Some v else lookup_property k o'
  end.

Fixpoint replace_property (k : jsstring) (v : value) (o : list (jsstring * value))
  : list (jsstring * value) :=
  match o with
  | [] => []
  | (k', v') :: o' =>
      if decide (k' = k) then (k, v) :: o' else (k', v') :: replace_property k v o'
  end.

Fixpoint insert_index (i : Z) (k : jsstring) (v : value) (o : list (jsstring * value))
  : list (jsstring * value) :=
  match o with
  | [] => [(k, v)]
  | (k', v') :: o' =>
      match array_index k' with
      | Some j => if (i <? j)%Z then (k, v) :: o else (k', v') :: insert_index i k v o'
      | None => (k, v) :: o
      end
  end.

(** CreateDataProperty on an ordinary object: an existing key keeps its
    place. *)
Definition set_property (k : jsstring) (v : value) (o : list (jsstring * value))
  : list (jsstring * value) :=
  match lookup_property k o with
  | Some _ => replace_property k v o
  | None =>
      match array_index k with
      | Some i => insert_index i k v o
      | None => o ++ [(k, v)]
      end
  end.

(** ** JSON.parse *)

Definition is_json_ws (c : N) : bool :=
  ((c =? 9) || (c =? 10) || (c =? 13) || (c =? 32))%N.

Fixpoint skip_ws (s : jsstring) : jsstring :=
  match s with
  | [] => []
  | c :: s' => if is_json_ws c then skip_ws s' else s
  end.

Definition hex_value (c : N) : option N :=
  if ((48 <=? c) && (c <=? 57))%N then Some (c - 48)%N
  else if ((97 <=? c) && (c <=? 102))%N then Some (c - 87)%N
  else if ((65 <=? c) && (c <=? 70))%N then Some (c - 55)%N
  else None.

Definition unescape (c : N) : option N :=
  if (c =? 34)%N then Some 34%N
  else if (c =? 92)%N then Some 92%N
  else if (c =? 47)%N then Some 47%N
  else if (c =? 98)%N then Some 8%N
  else if (c =? 102)%N then Some 12%N
  else if (c =? 110)%N then Some 10%N
  else if (c =? 114)%N then Some 13%N
  else if (c =? 116)%N then Some 9%N
  else None.

(** The characters of a JSON string after its opening quote, up to and
    including the closing one. *)
Fixpoint parse_string (s : jsstring) : option (jsstring * jsstring) :=
  match s with
  | [] => None
  | c :: r =>
      if (c =? 34)%N then Some ([], r)
      else if (c =? 92)%N then
        match r with
        | [] => None
        | e :: r1 =>
            if (e =? 117)%N then
              match r1 with
              | h1 :: h2 :: h3 :: h4 :: r2 =>
                  a ← hex_value h1; b ← hex_value h2;
                  c ← hex_value h3; d ← hex_value h4;
                  '(t, rest) ← parse_string r2;
                  Some ((((a * 16 + b) * 16 + c) * 16 + d)%N :: t, rest)
              | _ => None
              end
            else
              u ← unescape e;
              '(t, rest) ← parse_string r1;
              Some (u :: t, rest)
        end
      else if (c <? 32)%N then None
      else '(t, rest) ← parse_string r; Some (c :: t, rest)
  end.

(** [true], [false], [null] *)
Definition kw_true : jsstring := [116; 114; 117; 101]%N.
Definition kw_false : jsstring := [102; 97; 108; 115; 101]%N.
Definition kw_null : jsstring := [110; 117; 108; 108]%N.

(** A value that is neither a string, an array nor an object. *)
Definition parse_literal (s : jsstring) : option (value * jsstring) :=
  if startsWith s kw_true then Some (VBool true, drop 4 s)
  else if startsWith s kw_false then Some (VBool false, drop 5 s)
  else if startsWith s kw_null then Some (VNull, drop 4 s)
  else '(x, r) ← parse_number s; Some (VNumber x, r).

(** Recursive descent; each call uses one unit of [fuel], and two calls in
    a row consume at least one code unit, so that [2 * length s + 2] units
    are enough for any text [s]. *)
Fixpoint parse_value (fuel : nat) (s : jsstring) : option (value * jsstring) :=
  match fuel with
  | O => None
  | S fuel' =>
      match skip_ws s with
      | [] => None
      | c :: r =>
          if (c =? 34)%N then
            '(t, r') ← parse_string r; Some (VString t, r')
          else if (c =? 91)%N then
            match skip_ws r with
            | [] => None
            | d :: r' =>
                if (d =? 93)%N then Some (VArray [], r')
                else parse_elements fuel' r []
            end
          else if (c =? 123)%N then
            match skip_ws r with
            | [] => None
            | d :: r' =>
                if (d =? 125)%N then Some (VObject [], r')
                else parse_members fuel' r []
            end
          else parse_literal (c :: r)
      end
  end
with parse_elements (fuel : nat) (s : jsstring) (acc : list value)
  : option (value * jsstring) :=
  match fuel with
  | O => None
  | S fuel' =>
      '(v, r) ← parse_value fuel' s;
      match skip_ws r with
      | [] => None
      | c :: r' =>
          if (c =? 44)%N then parse_elements fuel' r' (acc ++ [v])
          else if (c =? 93)%N then Some (VArray (acc ++ [v]), r')
          else None
      end
  end
with parse_members (fuel : nat) (s : jsstring) (acc : list (jsstring * value))
  : option (value * jsstring) :=
  match fuel with
  | O => None
  | S fuel' =>
      match skip_ws s with
      | [] => None
      | c :: r =>
          if (c =? 34)%N then
            '(k, r1) ← parse_string r;
            match skip_ws r1 with
            | [] => None
            | d :: r2 =>
                if (d =? 58)%N then
                  '(v, r3) ← parse_value fuel' r2;
                  match skip_ws r3 with
                  | [] => None
                  | e :: r4 =>
                      if (e =? 44)%N then parse_members fuel' r4 (set_property k v acc)
                      else if (e =? 125)%N then Some (VObject (set_property k v acc), r4)
                      else None
                  end
                else None
            end
          else None
      end
  end.

(** [JSON.parse(text)]; [None] is the SyntaxError. *)
Definition JSON_parse (text : jsstring) : option value :=
  '(v, r) ← parse_value (2 * length text + 2) text;
  match skip_ws r with
  | [] => Some v
  | _ :: _ => None
  end.

(** ** JSON.stringify *)

Definition hex_digit (n : N) : N := (if n <? 10 then 48 + n else 87 + n)%N.

Definition unicode_escape (c : N) : jsstring :=
  [92; 117; hex_digit (c / 4096 mod 16); hex_digit (c / 256 mod 16);
   hex_digit (c / 16 mod 16); hex_digit (c mod 16)]%N.

Definition is_high_surrogate (c : N) : bool := ((55296 <=? c) && (c <=? 56319))%N.
Definition is_low_surrogate (c : N) : bool := ((56320 <=? c) && (c <=? 57343))%N.

(** QuoteJSONString without the quotes: short escapes, [\u00xx] for the
    other control characters and for surrogates that are not paired. *)
Fixpoint quote_body (s : jsstring) : jsstring :=
  match s with
  | [] => []
  | c :: s' =>
      if (c =? 8)%N then [92; 98]%N ++ quote_body s'
      else if (c =? 9)%N then [92; 116]%N ++ quote_body s'
      else if (c =? 10)%N then [92; 110]%N ++ quote_body s'
      else if (c =? 12)%N then [92; 102]%N ++ quote_body s'
      else if (c =? 13)%N then [92; 114]%N ++ quote_body s'
      else if (c =? 34)%N then [92; 34]%N ++ quote_body s'
      else if (c =? 92)%N then [92; 92]%N ++ quote_body s'
      else if (c <? 32)%N then unicode_escape c ++ quote_body s'
      else if is_high_surrogate c then
        match s' with
        | d :: s'' =>
            if is_low_surrogate d then c :: d :: quote_body s''
            else unicode_escape c ++ quote_body s'
        | [] => unicode_escape c
        end
      else if is_low_surrogate c then unicode_escape c ++ quote_body s'
      else c :: quote_body s'
  end.

Definition quote (s : jsstring) : jsstring := [34%N] ++ quote_body s ++ [34%N].

Definition serialize_prim (p : prim) : jsstring :=
  match p with
  | PUndefined | PNull => kw_null
  | PBool true => kw_true
  | PBool false => kw_false
  | PNumber x => if is_finite x then Number_toString x else kw_null
  | PString s => quote s
  end.

(** SerializeJSONProperty without gap: an [undefined] array element is
    written [null], an [undefined] property is left out. *)
Fixpoint serialize (v : value) : jsstring :=
  match v with
  | VPrim p => serialize_prim p
  | VArray elems => [91%N] ++ join [44%N] (map serialize elems) ++ [93%N]
  | VObject props =>
      [123%N]
      ++ join [44%N]
           ((fix members (o : list (jsstring * value)) : list jsstring :=
               match o with
               | [] => []
               | (k, v) :: o' =>
                   if is_undefined v then members o'
                   else (quote k ++ [58%N] ++ serialize v) :: members o'
               end) props)
      ++ [125%N]
  end.

(** [JSON.stringify(v)]; [None] is the result [undefined]. *)
Definition JSON_stringify (v : value) : option jsstring :=
  if is_undefined v then None else Some (serialize v).

(** ** What a round trip through JSON makes of a value

    [JSON.parse(JSON.stringify(v))] as a function on values: a number is
    what its text reads back as ([null] when it is not finite), an
    [undefined] array element is [null], an [undefined] property is gone,
    and the properties are created again in their order. *)

Definition number_normal (x : number) : number :=
  match parse_number (Number_toString x) with
  | Some (y, _) => y
  | None => x
  end.

Definition prim_normal (p : prim) : prim :=
  match p with
  | PUndefined => PNull
  | PNumber x => if is_finite x then PNumber (number_normal x) else PNull
  | _ => p
  end.

Fixpoint JSON_normal (v : value) : value :=
  match v with
  | VPrim p => VPrim (prim_normal p)
  | VArray elems => VArray (map JSON_normal elems)
  | VObject props =>
      VObject
        ((fix members (o : list (jsstring * value)) (acc : list (jsstring * value))
            : list (jsstring * value) :=
            match o with
            | [] => acc
            | (k, v) :: o' =>
                if is_undefined v then members o' acc
                else members o' (set_property k (JSON_normal v) acc)
            end) props [])
  end.

(** The inner loops of [serialize] and [JSON_normal], by name. *)
Fixpoint serialize_members (o : list (jsstring * value)) : list jsstring :=
  match o with
  | [] => []
  | (k, v) :: o' =>
      if is_undefined v then serialize_members o'
      else (quote k ++ [58%N] ++ serialize v) :: serialize_members o'
  end.

Fixpoint normal_members (o acc : list (jsstring * value)) : list (jsstring * value) :=
  match o with
  | [] => acc
  | (k, v) :: o' =>
      if is_undefined v then normal_members o' acc
      else normal_members o' (set_property k (JSON_normal v) acc)
  end.

(** Units of fuel that are enough to parse the text of a value. *)
Fixpoint parse_fuel (v : value) : nat :=
  match v with
  | VPrim _ => 1
  | VArray elems => S (list_sum (map (fun x => S (parse_fuel x)) elems))
  | VObject props =>
      S ((fix members (o : list (jsstring * value)) : nat :=
            match o with
            | [] => 0
            | (k, x) :: o' =>
                if is_undefined x then members o' else S (parse_fuel x) + members o'
            end) props)
  end.

Fixpoint elements_fuel (l : list value) : nat :=
  match l with
  | [] => 0
  | x :: l' => S (parse_fuel x) + elements_fuel l'
  end.

Fixpoint members_fuel (o : list (jsstring * value)) : nat :=
  match o with
  | [] => 0
  | (k, x) :: o' =>
      if is_undefined x then members_fuel o' else S (parse_fuel x) + members_fuel o'
  end.

(** *** Values that a round trip leaves as they are *)

(** Every number of the value is finite and is not negative zero. *)
Fixpoint exact_numbers (v : value) : bool :=
  match v with
  | VPrim (PNumber x) => is_finite x && negb (bool_decide (x = NZero true))
  | VPrim _ => true
  | VArray elems => forallb exact_numbers elems
  | VObject props =>
      (fix all (o : list (jsstring * value)) : bool :=
         match o with
         | [] => true
         | (k, x) :: o' => exact_numbers x && all o'
         end) props
  end.

(** Keys in the order of an ordinary object: array indices first, in
    ascending order. *)
Fixpoint ordered_keys (ks : list jsstring) : Prop :=
  match ks with
  | [] => True
  | k :: ks' =>
      match array_index k with
      | Some i =>
          Forall (fun k' => match array_index k' with
                            | Some j => (i <= j)%Z
                            | None => True
                            end) ks'
      | None => Forall (fun k' => array_index k' = None) ks'
      end
      /\ ordered_keys ks'
  end.

Definition canonical (o : list (jsstring * value)) : Prop :=
  NoDup (map fst o) /\ ordered_keys (map fst o).

(** What [JSON.parse] returns: nothing [undefined], numbers of binary64,
    objects with each key once and in order. *)
Fixpoint parsed_wf (v : value) : Prop :=
  match v with
  | VPrim PUndefined => False
  | VPrim (PNumber x) => number_wf x
  | VPrim _ => True
  | VArray elems =>
      (fix all (l : list value) : Prop :=
         match l with
         | [] => True
         | x :: l' => parsed_wf x /\ all l'
         end) elems
  | VObject props =>
      canonical props
      /\ (fix all (o : list (jsstring * value)) : Prop :=
            match o with
            | [] => True
            | (k, x) :: o' => parsed_wf x /\ all o'
            end) props
  end.

(** The first code unit of the text of a value. *)
Definition value_start (c : N) : Prop :=
  c = 34%N \/ c = 91%N \/ c = 123%N \/ c = 110%N \/ c = 116%N \/ c = 102%N
  \/ c = 45%N \/ is_digit c = true.

(** ** String.prototype.toLowerCase

    The Unicode case mapping is a parameter of the development; all that is
    used of it is that the empty string has no characters to map. *)
Class CaseMapping : Type := {
  toLowerCase : jsstring -> jsstring;
  toLowerCase_empty : toLowerCase [] = []
}.

(** Its restriction to Latin-1 (code units below 256), for examples. *)
Definition latin1_lower (c : N) : N :=
  if (((65 <=? c) && (c <=? 90))
      || ((192 <=? c) && (c <=? 222) && negb (c =? 215)))%N
  then (c + 32)%N else c.

Global Instance latin1_case : CaseMapping :=
  {| toLowerCase := map latin1_lower; toLowerCase_empty := eq_refl |}.

(** ** The state of the component *)

(** What a variable, an array slot or a state cell holds: a primitive, or a
    reference to an array or object in the store of objects. *)
Inductive ref : Type :=
  | RPrim (p : prim)
  | RObj (l : nat).

Global Instance ref_eq_dec : EqDecision ref.
Proof. solve_decision. Defined.

Abbreviation null := (RPrim PNull).

Record ParsingError : Type := mkParsingError {
  line : nat;
  content : jsstring
}.

(** The six [useState] cells of the component, and the objects they refer
    to. The draft starts as the empty string and the text area gives it
    strings, but the pencil stores [message.content] in it, which is any
    value of the file. *)
Record Store : Type := mkStore {
  heap : list value;
  conversations : list ref;
  selectedConversation : ref;
  searchTerm : jsstring;
  errors : list ParsingError;
  editingMessage : option nat;
  editedContent : value
}.

Definition initial : Store :=
  {| heap := []; conversations := []; selectedConversation := null;
     searchTerm := []; errors := []; editingMessage := None;
     editedContent := VString [] |}.

(** Evaluating a JSON text creates its arrays and objects. *)
Definition new_ref (h : list value) (v : value) : list value * ref :=
  match v with
  | VPrim p => (h, RPrim p)
  | _ => (h ++ [v], RObj (length h))
  end.

Definition read (h : list value) (r : ref) : option value :=
  match r with
  | RPrim p => Some (VPrim p)
  | RObj l => h !! l
  end.

(** The contents of the conversation collection. *)
Definition collection (st : Store) : list value :=
  omap (read (heap st)) (conversations st).

(** ToBoolean, as in [!selectedConversation]. *)
Definition ToBoolean (r : ref) : bool :=
  match r with
  | RObj _ => true
  | RPrim PUndefined | RPrim PNull => false
  | RPrim (PBool b) => b
  | RPrim (PNumber (NZero _)) => false
  | RPrim (PNumber _) => true
  | RPrim (PString s) => negb (bool_decide (s = []))
  end.

(** [a === b]. *)
Definition strict_equals (a b : ref) : bool :=
  match a, b with
  | RObj l, RObj l' => bool_decide (l = l')
  | RPrim (PNumber (NZero _)), RPrim (PNumber (NZero _)) => true
  | RPrim p, RPrim q => bool_decide (p = q)
  | _, _ => false
  end.

Fixpoint indexOf_from (l : list ref) (x : ref) (i : Z) : Z :=
  match l with
  | [] => (-1)%Z
  | y :: l' => if strict_equals y x then i else indexOf_from l' x (i + 1)%Z
  end.

(** [l.indexOf(x)]. *)
Definition indexOf (l : list ref) (x : ref) : Z := indexOf_from l x 0%Z.

(** [l[i]] for an integer [i]; [None] stands for [undefined]. *)
Definition element {A} (l : list A) (i : Z) : option A :=
  if (0 <=? i)%Z then l !! Z.to_nat i else None.

Definition ref_at (l : list ref) (i : Z) : ref :=
  default (RPrim PUndefined) (element l i).

(** [l[i] = x] on an array: a write past the end extends it. *)
Definition array_set (l : list value) (i : nat) (x : value) : list value :=
  if decide (i < length l) then <[i := x]> l
  else l ++ replicate (i - length l) undefined ++ [x].

(** The property key of an index. *)
Definition index_key (i : nat) : jsstring :=
  digit_chars (decimal_digits (Z.of_nat i)).

(** [array.forEach((x, index) => ...)] threading the variables the callback
    assigns to. *)
Fixpoint forEach {A St : Type} (f : St -> A -> nat -> St) (l : list A) (index : nat)
    (s : St) : St :=
  match l with
  | [] => s
  | x :: l' => forEach f l' (S index) (f s x index)
  end.

(** *** parseContent (page.tsx 51-70, part_000 46-65) *)

(** The callback of [lines.forEach]: the objects created so far,
    [parsedConversations] and [newErrors]. *)
Definition parse_line (acc : list value * list ref * list ParsingError)
    (line : jsstring) (index : nat) : list value * list ref * list ParsingError :=
  let '(h, parsedConversations, newErrors) := acc in
  if decide (trim line <> []) then
    match JSON_parse line with
    | Some parsedLine =>
        let '(h', r) := new_ref h parsedLine in
        (h', parsedConversations ++ [r], newErrors)
    | None =>
        (h, parsedConversations, newErrors ++ [{| line := index + 1; content := line |}])
    end
  else acc.

Definition parseContent (content : jsstring) (st : Store) : Store :=
  let lines := split 10 content in
  let '(h, parsedConversations, newErrors) := forEach parse_line lines 0 (heap st, [], []) in
  {| heap := h;
     conversations := parsedConversations;
     selectedConversation := null;
     searchTerm := searchTerm st;
     errors := newErrors;
     editingMessage := editingMessage st;
     editedContent := editedContent st |}.

(** *** handleConversationSelect (page.tsx 72-75, part_000 67-70) *)

Definition handleConversationSelect (index : Z) (st : Store) : Store :=
  {| heap := heap st;
     conversations := conversations st;
     selectedConversation := ref_at (conversations st) index;
     searchTerm := searchTerm st;
     errors := errors st;
     editingMessage := None;
     editedContent := editedContent st |}.

(** *** handleSearchChange (page.tsx 77-79, part_000 189) *)

Definition handleSearchChange (value : jsstring) (st : Store) : Store :=
  {| heap := heap st;
     conversations := conversations st;
     selectedConversation := selectedConversation st;
     searchTerm := value;
     errors := errors st;
     editingMessage := editingMessage st;
     editedContent := editedContent st |}.

(** *** filteredConversations (page.tsx 136-145, part_000 138-142) *)

Section Filter.
Context `{CaseMapping}.

(** [`Conversation ${index + 1}`] *)
Definition label (index : nat) : jsstring :=
  str "Conversation " ++ digit_chars (decimal_digits (Z.of_nat (index + 1))).

(** [JSON.stringify(conv).toLowerCase()]; [None] is the TypeError for
    [undefined.toLowerCase()]. *)
Definition searchContent (h : list value) (conv : ref) : option jsstring :=
  v ← read h conv; text ← JSON_stringify v; Some (toLowerCase text).

(** The callback of [conversations.filter]. *)
Definition matches (h : list value) (lowerSearchTerm : jsstring)
    (conv : ref) (index : nat) : option bool :=
  content ← searchContent h conv;
  Some (includes content lowerSearchTerm
        || includes (toLowerCase (label index)) lowerSearchTerm).

(** [array.filter((conv, index) => ...)], from position [index] on. *)
Fixpoint filter_from (h : list value) (lowerSearchTerm : jsstring)
    (l : list ref) (index : nat) : option (list ref) :=
  match l with
  | [] => Some []
  | conv :: l' =>
      match matches h lowerSearchTerm conv index with
      | Some keep =>
          rest ← filter_from h lowerSearchTerm l' (S index);
          Some (if keep then conv :: rest else rest)
      | None => None
      end
  end.

Definition filter_conversations (h : list value) (term : jsstring) (l : list ref)
  : option (list ref) :=
  filter_from h (toLowerCase term) l 0.

Definition filteredConversations (st : Store) : option (list ref) :=
  filter_conversations (heap st) (searchTerm st) (conversations st).

(** *** The auto-selection effect (page.tsx 147-151, part_000 144-148) *)

Definition autoSelect (st : Store) : option Store :=
  filtered ← filteredConversations st;
  Some match filtered with
       | first :: _ =>
           if negb (ToBoolean (selectedConversation st)) then
             {| heap := heap st;
                conversations := conversations st;
                selectedConversation := first;
                searchTerm := searchTerm st;
                errors := errors st;
                editingMessage := editingMessage st;
                editedContent := editedContent st |}
           else st
       | [] => st
       end.
End Filter.

(** *** Reading and copying objects *)

(** [v.k] for a key that no built-in prototype defines ([messages],
    [content], [role]); reading it from [null] or [undefined] throws. *)
Definition get_named (v : value) (k : jsstring) : option value :=
  match v with
  | undefined | VNull => None
  | VObject o => Some (default undefined (lookup_property k o))
  | _ => Some undefined
  end.

(** [v[i]]. *)
Definition get_index (v : value) (i : nat) : option value :=
  match v with
  | undefined | VNull => None
  | VArray l => Some (default undefined (l !! i))
  | VString s => Some (default undefined ((fun c => VString [c]) <$> s !! i))
  | VObject o => Some (default undefined (lookup_property (index_key i) o))
  | _ => Some undefined
  end.

Fixpoint code_points (s : jsstring) : list jsstring :=
  match s with
  | [] => []
  | c :: s' =>
      if is_high_surrogate c then
        match s' with
        | d :: s'' =>
            if is_low_surrogate d then [c; d] :: code_points s''
            else [c] :: code_points s'
        | [] => [[c]]
        end
      else [c] :: code_points s'
  end.

(** [[...v]]: arrays and strings are iterable; anything else throws. *)
Definition spread_iterable (v : value) : option (list value) :=
  match v with
  | VArray l => Some l
  | VString s => Some ((fun cp => VString cp) <$> code_points s)
  | _ => None
  end.

(** [{...v}]: a new object with the own enumerable properties of [v], in
    their order; the elements of an array, the code units of a string,
    nothing for the other primitives. *)
Definition spread_object (v : value) : list (jsstring * value) :=
  match v with
  | VObject o => o
  | VArray l => imap (fun i x => (index_key i, x)) l
  | VString s => imap (fun i c => (index_key i, VString [c])) s
  | _ => []
  end.

(** *** The edit buttons (page.tsx 243-246 and 255, part_000 232-235 and 244) *)

(** The pencil of message [messageIndex] of the detail view, which is
    [selectedConversation.messages.map((message, messageIndex) => ...)]:
    [setEditingMessage(messageIndex); setEditedContent(message.content)].
    The draft is whatever the content is, a string or not, [undefined] when
    the message has none. [None] when the detail view has no such button:
    nothing is selected, [messages] is not an array, or the slot is empty
    or [null]. The draft holds the content by value; nothing in the
    component changes an object through it. *)
Definition startEditing (messageIndex : nat) (st : Store) : option Store :=
  selected ← read (heap st) (selectedConversation st);
  messages ← get_named selected (str "messages");
  match messages with
  | VArray l =>
      message ← l !! messageIndex;
      draft ← get_named message (str "content");
      Some {| heap := heap st;
              conversations := conversations st;
              selectedConversation := selectedConversation st;
              searchTerm := searchTerm st;
              errors := errors st;
              editingMessage := Some messageIndex;
              editedContent := draft |}
  | _ => None
  end.

(** The text area: [setEditedContent(e.target.value)], a string. *)
Definition setEditedContent (value : jsstring) (st : Store) : Store :=
  {| heap := heap st;
     conversations := conversations st;
     selectedConversation := selectedConversation st;
     searchTerm := searchTerm st;
     errors := errors st;
     editingMessage := editingMessage st;
     editedContent := VString value |}.

(** *** What leaves the component *)

Inductive effect : Type :=
  | Toast (variant title description : jsstring)
  | SaveFile (download type : jsstring) (blob : jsstring)
  | Post (url body : jsstring).

(** [conversations.map(conv => JSON.stringify(conv)).join('\n')];
    [join] writes [undefined] as the empty string. *)
Definition export_lines (h : list value) (l : list ref) : list jsstring :=
  map (fun conv => default [] (read h conv ≫= JSON_stringify)) l.

Definition export_text (h : list value) (l : list ref) : jsstring :=
  join [10%N] (export_lines h l).

Definition noData : effect :=
  Toast (str "destructive") (str "Error")
    (str "No data available to download. Please import or create some data first.").

(** [l[i] = r] on the array of conversations. *)
Definition set_ref (l : list ref) (i : Z) (r : ref) : list ref :=
  if (i <? 0)%Z then l
  else if decide (Z.to_nat i < length l) then <[Z.to_nat i := r]> l
  else l ++ replicate (Z.to_nat i - length l) (RPrim PUndefined) ++ [r].

(** ** src/app/page.tsx *)

Module Page.

(** lines 85-90: [[...messages]], then the slot [messageIndex] becomes
    [{...updatedMessages[messageIndex], content: editedContent}]. *)
Definition editMessages (messages : value) (messageIndex : nat)
    (editedContent : value) : option (list value) :=
  updatedMessages ← spread_iterable messages;
  Some (array_set updatedMessages messageIndex
          (VObject (set_property (str "content") editedContent
                      (spread_object (default undefined (updatedMessages !! messageIndex)))))).

(** lines 82-96, the updater given to [setConversations]. *)
Definition updateConversations (h : list value) (prevConversations : list ref)
    (conversationIndex : Z) (messageIndex : nat) (editedContent : value)
  : option (list value * list ref) :=
  conversation ← read h (ref_at prevConversations conversationIndex);
  let updatedConversation := spread_object conversation in
  updatedMessages ←
    editMessages (default undefined (lookup_property (str "messages") updatedConversation))
      messageIndex editedContent;
  let '(h', r) :=
    new_ref h (VObject (set_property (str "messages") (VArray updatedMessages)
                          updatedConversation)) in
  Some (h', set_ref prevConversations conversationIndex r).

(** lines 98-108, the updater given to [setSelectedConversation]. *)
Definition updateSelected (h : list value) (prevSelected : ref)
    (messageIndex : nat) (editedContent : value) : option (list value * ref) :=
  if ToBoolean prevSelected then
    selected ← read h prevSelected;
    messages ← get_named selected (str "messages");
    updatedMessages ← editMessages messages messageIndex editedContent;
    Some (new_ref h (VObject (set_property (str "messages") (VArray updatedMessages)
                                (spread_object selected))))
  else Some (h, prevSelected).

(** lines 81-112; [None] is a TypeError thrown by one of the updaters. *)
Definition handleMessageEdit (conversationIndex : Z) (messageIndex : nat) (st : Store)
  : option Store :=
  '(h1, updatedConversations) ←
    updateConversations (heap st) (conversations st) conversationIndex messageIndex
      (editedContent st);
  '(h2, selected) ←
    updateSelected h1 (selectedConversation st) messageIndex (editedContent st);
  Some {| heap := h2;
          conversations := updatedConversations;
          selectedConversation := selected;
          searchTerm := searchTerm st;
          errors := errors st;
          editingMessage := None;
          editedContent := VString [] |}.

(** lines 261-266, the check button of message [messageIndex]. *)
Definition saveClick (messageIndex : nat) (st : Store) : option Store :=
  handleMessageEdit (indexOf (conversations st) (selectedConversation st)) messageIndex st.

(** lines 39-49: the text of the chosen file goes to [parseContent]. *)
Definition handleFileUpload (content : jsstring) (st : Store) : Store :=
  parseContent content st.

(** lines 114-134: the state is read, never set. *)
Definition handleDownload (st : Store) : list effect :=
  if decide (length (conversations st) = 0) then [noData]
  else [SaveFile (str "conversations.jsonl") (str "application/json")
          (export_text (heap st) (conversations st))].

(** What the user can do with the page. *)
Inductive event : Type :=
  | Upload (content : jsstring)
  | Select (index : Z)
  | Search (value : jsstring)
  | Pencil (messageIndex : nat)
  | Type_ (value : jsstring)
  | Save (messageIndex : nat)
  | Download.

(** One event: the handler, then the effect of lines 147-151 on the new
    state. [None] when something throws, or when the page has no such
    button. *)
Definition dispatch `{CaseMapping} (ev : event) (st : Store)
  : option (Store * list effect) :=
  match ev with
  | Upload content => st' ← autoSelect (handleFileUpload content st); Some (st', [])
  | Select index => st' ← autoSelect (handleConversationSelect index st); Some (st', [])
  | Search value => st' ← autoSelect (handleSearchChange value st); Some (st', [])
  | Pencil messageIndex => st' ← startEditing messageIndex st; Some (st', [])
  | Type_ value => Some (setEditedContent value st, [])
  | Save messageIndex => st1 ← saveClick messageIndex st; st' ← autoSelect st1; Some (st', [])
  | Download => Some (st, handleDownload st)
  end.

Fixpoint run `{CaseMapping} (evs : list event) (st : Store) : option Store :=
  match evs with
  | [] => Some st
  | ev :: evs' => '(st', _) ← dispatch ev st; run evs' st'
  end.

End Page.

(** ** The second copy of the component (part_000)

    It mirrors the text to a server, edits the selected message in place,
    and downloads what the server holds. *)

Module JsonlEditor.

(** lines 82-102; [ok] is whether the request succeeded. *)
Definition updateServerCode (ok : bool) (newCode : jsstring) : list effect :=
  Post (str "/api/update-jsonl") (serialize (VObject [(str "code", VString newCode)]))
  :: if ok then []
     else [Toast (str "destructive") (str "Error")
             (str "Failed to update server code. Please try again.")].

(** lines 37-44 *)
Definition handleFileUpload (ok : bool) (content : jsstring) (st : Store)
  : Store * list effect :=
  (parseContent content st, updateServerCode ok content).

(** [message.content = editedContent] in strict mode: a primitive cannot
    take a property. On an array the assignment adds a property that is
    not an element, which neither [JSON.stringify] nor a spread of the
    array sees: the array is unchanged as a [value]. *)
Definition assign_content (message : value) (editedContent : value) : option value :=
  match message with
  | VObject p => Some (VObject (set_property (str "content") editedContent p))
  | VArray a => Some (VArray a)
  | VPrim _ => None
  end.

(** [messages[messageIndex].content = editedContent] *)
Definition assign_in_messages (messages : value) (messageIndex : nat)
    (editedContent : value) : option value :=
  match messages with
  | VArray l =>
      message ← l !! messageIndex;
      message' ← assign_content message editedContent;
      Some (VArray (<[messageIndex := message']> l))
  | VObject o =>
      message ← lookup_property (index_key messageIndex) o;
      message' ← assign_content message editedContent;
      Some (VObject (replace_property (index_key messageIndex) message' o))
  | VPrim _ => None
  end.

(** [conversation.messages[messageIndex].content = editedContent] *)
Definition assign_in_conversation (conversation : value) (messageIndex : nat)
    (editedContent : value) : option value :=
  match conversation with
  | VObject o =>
      messages ← lookup_property (str "messages") o;
      messages' ← assign_in_messages messages messageIndex editedContent;
      Some (VObject (replace_property (str "messages") messages' o))
  | _ => None
  end.

(** lines 72-80; the object is updated where it is, so that every
    reference to it sees the new content. [None] is a TypeError. *)
Definition handleMessageEdit (ok : bool) (conversationIndex : Z) (messageIndex : nat)
    (st : Store) : option (Store * list effect) :=
  match ref_at (conversations st) conversationIndex with
  | RObj l =>
      conversation ← heap st !! l;
      conversation' ← assign_in_conversation conversation messageIndex (editedContent st);
      let h := <[l := conversation']> (heap st) in
      Some ({| heap := h;
               conversations := conversations st;
               selectedConversation := RObj l;
               searchTerm := searchTerm st;
               errors := errors st;
               editingMessage := None;
               editedContent := VString [] |},
            updateServerCode ok (export_text h (conversations st)))
  | RPrim _ => None
  end.

Definition saveClick (ok : bool) (messageIndex : nat) (st : Store)
  : option (Store * list effect) :=
  handleMessageEdit ok (indexOf (conversations st) (selectedConversation st)) messageIndex st.

(** lines 104-136; [response] is the type and the body of a successful
    reply of the server. *)
Definition handleDownload (response : option (jsstring * jsstring)) (st : Store)
  : list effect :=
  if decide (length (conversations st) = 0) then [noData]
  else match response with
       | Some (type, blob) => [SaveFile (str "conversations.jsonl") type blob]
       | None => [Toast (str "destructive") (str "Error")
                    (str "Failed to download JSONL. Please try again.")]
       end.

End JsonlEditor.

(** ** The import, line by line

    What the specification says of one line: it is blank, or it is a JSON
    text, or it is neither. *)

Inductive line_kind : Type :=
  | Blank
  | Valid (v : value)
  | Invalid.

Definition classify (text : jsstring) : line_kind :=
  if decide (trim text <> []) then
    match JSON_parse text with
    | Some v => Valid v
    | None => Invalid
    end
  else Blank.

Definition valid_value (text : jsstring) : option value :=
  match classify text with
  | Valid v => Some v
  | _ => None
  end.

Definition invalid_error (index : nat) (text : jsstring) : option ParsingError :=
  match classify text with
  | Invalid => Some {| line := index + 1; content := text |}
  | _ => None
  end.

(** The values of the valid lines, in the order of the text. *)
Definition parsed_values (lines : list jsstring) : list value :=
  omap valid_value lines.

(** The errors of the invalid lines at positions [index], [index + 1], ... *)
Fixpoint failed_lines (index : nat) (lines : list jsstring) : list ParsingError :=
  match lines with
  | [] => []
  | text :: lines' =>
      match invalid_error index text with
      | Some e => e :: failed_lines (S index) lines'
      | None => failed_lines (S index) lines'
      end
  end.

(** How many of the first [i] lines are valid, and how many invalid. *)
Definition valid_before (lines : list jsstring) (i : nat) : nat :=
  length (parsed_values (take i lines)).

Definition invalid_before (lines : list jsstring) (i : nat) : nat :=
  length (failed_lines 0 (take i lines)).

Definition nonblank (text : jsstring) : bool := bool_decide (trim text <> []).

Fixpoint alloc_all (h : list value) (vs : list value) : list value * list ref :=
  match vs with
  | [] => (h, [])
  | v :: vs' =>
      let '(h1, r) := new_ref h v in
      let '(h2, rs) := alloc_all h1 vs' in
      (h2, r :: rs)
  end.

(** Every reference of the state points into the store of objects, and no
    conversation is [undefined]. *)
Definition ref_ok (h : list value) (r : ref) : Prop :=
  match r with
  | RObj l => l < length h
  | RPrim _ => True
  end.

Definition is_object (v : value) : Prop :=
  match v with
  | VPrim _ => False
  | _ => True
  end.

Definition store_ok (st : Store) : Prop :=
  Forall is_object (heap st)
  /\ Forall (fun r => ref_ok (heap st) r /\ r <> RPrim PUndefined) (conversations st)
  /\ ref_ok (heap st) (selectedConversation st).

(** ** The filter, conversation by conversation

    What the specification says of the conversation [conv] at position
    [index] and the query in lower case: its serialized text contains the
    query, or its label does. *)
Definition text_matches `{CaseMapping} (h : list value) (q : jsstring) (conv : ref) : Prop :=
  exists text, read h conv ≫= JSON_stringify = Some text
               /\ includes (toLowerCase text) q = true.

Definition label_matches `{CaseMapping} (q : jsstring) (index : nat) : Prop :=
  includes (toLowerCase (label index)) q = true.

(** *** The filtered view

    The filter of the specification is a view of the collection in which
    each conversation keeps its position in the collection, the position of
    its label: the callback of [conversations.filter] at each pair of a
    position and a conversation. *)
Fixpoint filter_from_ix `{CaseMapping} (h : list value) (lowerSearchTerm : jsstring)
    (l : list (nat * ref)) : option (list (nat * ref)) :=
  match l with
  | [] => Some []
  | (index, conv) :: l' =>
      match matches h lowerSearchTerm conv index with
      | Some keep =>
          rest ← filter_from_ix h lowerSearchTerm l';
          Some (if keep then (index, conv) :: rest else rest)
      | None => None
      end
  end.

(** The conversations with their positions, from [index] on. *)
Fixpoint positions_from (index : nat) (l : list ref) : list (nat * ref) :=
  match l with
  | [] => []
  | conv :: l' => (index, conv) :: positions_from (S index) l'
  end.

Definition filtered_view `{CaseMapping} (st : Store) : option (list (nat * ref)) :=
  filter_from_ix (heap st) (toLowerCase (searchTerm st))
    (positions_from 0 (conversations st)).

(** Two conversations with the same text. *)
Definition twins : Store :=
  parseContent (json "{'messages':[]}" ++ [10%N] ++ json "{'messages':[]}") initial.

(** ** Looking at one message *)

(** [conversations[c].messages] when it is an array. *)
Definition messages_of (st : Store) (c : nat) : option (list value) :=
  conv ← conversations st !! c;
  v ← read (heap st) conv;
  messages ← get_named v (str "messages");
  match messages with
  | VArray l => Some l
  | _ => None
  end.

(** [conversations[c].messages[m][k]], as in [message.role] and
    [message.content]. *)
Definition message_field (st : Store) (c m : nat) (k : jsstring) : option value :=
  conv ← conversations st !! c;
  v ← read (heap st) conv;
  messages ← get_named v (str "messages");
  message ← get_index messages m;
  get_named message k.

(** The selection is none, or one of the conversations of the collection
    (the very object, as [indexOf] and [===] see it). *)
Definition selection_valid (st : Store) : Prop :=
  selectedConversation st = null
  \/ exists i, conversations st !! i = Some (selectedConversation st).

(** ** The scenario of the specification

    Two conversations, a blank line and a line that is not JSON; the first
    conversation is selected, its first message is opened and the draft is
    typed. *)

Definition example_text : jsstring :=
  json "{'messages':[{'role':'user','content':'hi'}]}" ++ [10%N; 10%N]
  ++ str "not json" ++ [10%N]
  ++ json "{'messages':[{'role':'assistant','content':'hello'}]}".

Definition example_editing : option Store :=
  Page.run [Page.Upload example_text; Page.Pencil 0; Page.Type_ (str "hi there")] initial.

Definition example_store : Store := default initial example_editing.

(** A file whose message has a number for content. *)
Definition number_text : jsstring :=
  json "{'messages':[{'role':'user','content':5}]}".

(** A second file, of one conversation. *)
Definition other_text : jsstring :=
  json "{'messages':[{'role':'user','content':'new'}]}".

(** *** The list of conversations (page.tsx 202-218, part_000 196-212) *)

(** [conv.messages[1]?.content.substring(0, 30)]: [None] is a TypeError,
    [Some None] the value [undefined], of which React shows nothing. The
    optional chain stops at a second message that is [undefined] or [null];
    after it, a content that is not a string has no [substring] to call. *)
Definition preview (conv : value) : option (option jsstring) :=
  messages ← get_named conv (str "messages");
  message ← get_index messages 1;
  match message with
  | undefined | VNull => Some None
  | _ =>
      text ← get_named message (str "content");
      match text with
      | VString s => Some (Some (take 30 s))
      | _ => None
      end
  end.

(** One button of the list: its React key, whether it is drawn as the
    selected one, its text, and the index its click hands to
    [handleConversationSelect]. *)
Record ListItem : Type := mkListItem {
  key : Z;
  highlighted : bool;
  text : jsstring;
  target : Z
}.

Definition listItem (st : Store) (conv : ref) : option ListItem :=
  let originalIndex := indexOf (conversations st) conv in
  v ← read (heap st) conv;
  shown ← preview v;
  Some {| key := originalIndex;
          highlighted := strict_equals (selectedConversation st) conv;
          text := str "Conversation " ++ digit_chars (decimal_digits (originalIndex + 1))
                  ++ str ":" ++ default [] shown ++ str "...";
          target := originalIndex |}.

(** ** Predicates of the properties *)

(** Decimal digits. *)
Definition is_digits (ds : list Z) : Prop := Forall (fun d => 0 <= d <= 9)%Z ds.

(** What may follow a number in a JSON text: not a digit, a point or an
    exponent mark. *)
Definition number_end (rest : jsstring) : Prop :=
  match rest with
  | [] => True
  | c :: _ => is_digit c = false /\ c <> 46%N /\ c <> 101%N /\ c <> 69%N
  end.

(** [p / q / 2^c] is at least [a], and is less than [a], with every power
    of two brought to a non-negative exponent by [K]. *)
Definition at_least (a K p q c : Z) : Prop :=
  (a * (q * 2 ^ (c + K)) <= p * 2 ^ K)%Z.
Definition less_than (a K p q c : Z) : Prop :=
  (p * 2 ^ K < a * (q * 2 ^ (c + K)))%Z.

(** The text of a value followed by [rest] is read as the normal form of
    the value, and [rest] is left. *)
Definition reads_back_as (v : value) : Prop :=
  forall fuel rest, parse_fuel v <= fuel -> number_end rest ->
    parse_value fuel (serialize v ++ rest) = Some (JSON_normal v, rest).

(** No control character, so no line break. *)
Definition printable (s : jsstring) : Prop := Forall (fun c => 32 <= c)%N s.

(* ================================================================== *)
(** * Part II: properties *)
(* ================================================================== *)

(** ** Lines *)

Lemma split_nonempty sep s : split sep s <> [].
Proof.
  destruct s as [|c s]; simpl; [done|].
  destruct (c =? sep)%N; [done|]. by destruct (split sep s).
Qed.

Lemma join_split s : join [10%N] (split 10 s) = s.
Proof.
  induction s as [|c s IH]; simpl; [done|].
  destruct (N.eqb_spec c 10) as [->|Hc].
  - pose proof (split_nonempty 10 s).
    destruct (split 10 s) as [|p ps] eqn:E; [done|].
    simpl in *. by rewrite IH.
  - pose proof (split_nonempty 10 s).
    destruct (split 10 s) as [|p ps] eqn:E; [done|].
    destruct ps; simpl in *; by rewrite <- IH.
Qed.

Lemma trimStart_nil s : trimStart s = [] <-> forallb is_WhiteSpace s = true.
Proof.
  induction s as [|c s IH]; simpl; [done|].
  destruct (is_WhiteSpace c); simpl; [done|]. split; [done|]. intros; done.
Qed.

Lemma trim_nil_iff s : trim s = [] <-> forallb is_WhiteSpace s = true.
Proof.
  unfold trim, trimEnd. rewrite <- trimStart_nil. split.
  - intros Hr. apply (f_equal reverse) in Hr.
    rewrite reverse_involutive in Hr. simpl in Hr.
    destruct (trimStart s) as [|c t] eqn:E; [done|].
    assert (Hc : is_WhiteSpace c = false).
    { clear -E. induction s as [|a s IH]; simpl in E; [done|].
      destruct (is_WhiteSpace a) eqn:Ea; [auto|]. by inversion E; subst. }
    rewrite reverse_cons in Hr.
    assert (Hall : forallb is_WhiteSpace (reverse t ++ [c]) = true)
      by (apply trimStart_nil; done).
    rewrite forallb_app in Hall. simpl in Hall. rewrite Hc in Hall.
    by rewrite andb_false_r in Hall.
  - intros ->. done.
Qed.

(** A line that starts with a character that is not white space is not
    blank. *)
Lemma trim_cons_nonblank c s : is_WhiteSpace c = false -> trim (c :: s) <> [].
Proof.
  intros Hc Ht. apply trim_nil_iff in Ht. simpl in Ht. by rewrite Hc in Ht.
Qed.

(** ** The store of objects *)

Lemma read_app h ext r : ref_ok h r -> read (h ++ ext) r = read h r.
Proof.
  destruct r as [p|l]; simpl; [done|]. intros Hl. by apply lookup_app_l.
Qed.

Lemma ref_ok_app h ext r : ref_ok h r -> ref_ok (h ++ ext) r.
Proof. destruct r; simpl; [done|]. rewrite length_app. lia. Qed.

Lemma new_ref_spec h v h' r :
  new_ref h v = (h', r) ->
  (exists ext, h' = h ++ ext) /\ read h' r = Some v /\ ref_ok h' r
  /\ (r = RPrim PUndefined <-> v = undefined).
Proof.
  destruct v as [p|l|o]; simpl; intros [= <- <-]; simpl.
  - split; [by exists []; rewrite app_nil_r|]. repeat split; congruence.
  - split; [by eexists|]. rewrite length_app. simpl.
    rewrite lookup_app_r, Nat.sub_diag by lia. repeat split; (done || lia).
  - split; [by eexists|]. rewrite length_app. simpl.
    rewrite lookup_app_r, Nat.sub_diag by lia. repeat split; (done || lia).
Qed.

Lemma alloc_all_spec vs : forall h h' rs,
  alloc_all h vs = (h', rs) ->
  (exists ext, h' = h ++ ext) /\ omap (read h') rs = vs
  /\ Forall (ref_ok h') rs /\ length rs = length vs
  /\ (Forall (fun v => v <> undefined) vs -> Forall (fun r => r <> RPrim PUndefined) rs).
Proof.
  induction vs as [|v vs IH]; simpl; intros h h' rs.
  - intros [= <- <-]. split; [by exists []; rewrite app_nil_r|]. by repeat split.
  - destruct (new_ref h v) as [h1 r] eqn:E1.
    destruct (alloc_all h1 vs) as [h2 rs'] eqn:E2.
    intros [= <- <-].
    apply new_ref_spec in E1 as ([ext1 ->] & Hr & Hok & Hu).
    apply IH in E2 as ([ext2 ->] & Hrs & Hoks & Hlen & Hus).
    split; [exists (ext1 ++ ext2); by rewrite app_assoc|].
    split; [|split; [|split]].
    + simpl. rewrite read_app by done. rewrite Hr. f_equal. exact Hrs.
    + constructor; [by apply ref_ok_app|done].
    + simpl. by rewrite Hlen.
    + intros Hall. inversion Hall; subst. constructor; [|auto].
      intros Hr'. apply Hu in Hr'. done.
Qed.

(** ** What the parser returns *)

Lemma parse_elements_array fuel : forall s acc v r,
  parse_elements fuel s acc = Some (v, r) -> exists l, v = VArray l.
Proof.
  induction fuel as [|fuel IH]; intros s acc v r; simpl; [done|].
  destruct (parse_value fuel s) as [[v1 r1]|]; simpl; [|done].
  destruct (skip_ws r1) as [|c r2]; [done|].
  destruct (c =? 44)%N; [by apply IH|].
  destruct (c =? 93)%N; [|done]. intros [= <- <-]. by eexists.
Qed.

Lemma parse_members_object fuel : forall s acc v r,
  parse_members fuel s acc = Some (v, r) -> exists o, v = VObject o.
Proof.
  induction fuel as [|fuel IH]; intros s acc v r; simpl; [done|].
  destruct (skip_ws s) as [|c r0]; [done|].
  destruct (c =? 34)%N; [|done].
  destruct (parse_string r0) as [[k r1]|]; simpl; [|done].
  destruct (skip_ws r1) as [|d r2]; [done|].
  destruct (d =? 58)%N; [|done].
  destruct (parse_value fuel r2) as [[v1 r3]|]; simpl; [|done].
  destruct (skip_ws r3) as [|e r4]; [done|].
  destruct (e =? 44)%N; [by apply IH|].
  destruct (e =? 125)%N; [|done]. intros [= <- <-]. by eexists.
Qed.

Lemma parse_value_defined fuel s v r :
  parse_value fuel s = Some (v, r) -> v <> undefined.
Proof.
  destruct fuel as [|fuel]; simpl; [done|].
  destruct (skip_ws s) as [|c r0]; [done|].
  destruct (c =? 34)%N.
  { destruct (parse_string r0) as [[t r']|]; simpl; [|done]. by intros [= <- <-]. }
  destruct (c =? 91)%N.
  { destruct (skip_ws r0) as [|d r']; [done|].
    destruct (d =? 93)%N; [by intros [= <- <-]|].
    intros Hp. by apply parse_elements_array in Hp as [? ->]. }
  destruct (c =? 123)%N.
  { destruct (skip_ws r0) as [|d r']; [done|].
    destruct (d =? 125)%N; [by intros [= <- <-]|].
    intros Hp. by apply parse_members_object in Hp as [? ->]. }
  unfold parse_literal.
  destruct (startsWith _ _); [by intros [= <- <-]|].
  destruct (startsWith _ _); [by intros [= <- <-]|].
  destruct (startsWith _ _); [by intros [= <- <-]|].
  destruct (parse_number (c :: r0)) as [[x r']|]; simpl; [|done].
  by intros [= <- <-].
Qed.

Lemma JSON_parse_defined text v : JSON_parse text = Some v -> v <> undefined.
Proof.
  unfold JSON_parse.
  destruct (parse_value _ text) as [[v' r]|] eqn:E; simpl; [|done].
  destruct (skip_ws r); [|done]. intros [= <-]. by eapply parse_value_defined.
Qed.

(** ** The import loop computes the two lists of the specification *)

Lemma parse_line_classify h parsed errs text index :
  parse_line (h, parsed, errs) text index
  = match classify text with
    | Blank => (h, parsed, errs)
    | Valid v => let '(h', r) := new_ref h v in (h', parsed ++ [r], errs)
    | Invalid => (h, parsed, errs ++ [{| line := index + 1; content := text |}])
    end.
Proof.
  unfold parse_line, classify.
  destruct (decide (trim text <> [])); [|done]. by destruct (JSON_parse text).
Qed.

Lemma parsed_values_cons text lines :
  parsed_values (text :: lines)
  = match classify text with
    | Valid v => v :: parsed_values lines
    | _ => parsed_values lines
    end.
Proof. unfold parsed_values, valid_value. simpl. by destruct (classify text). Qed.

Lemma failed_lines_cons index text lines :
  failed_lines index (text :: lines)
  = match classify text with
    | Invalid => {| line := index + 1; content := text |} :: failed_lines (S index) lines
    | _ => failed_lines (S index) lines
    end.
Proof. simpl. unfold invalid_error. by destruct (classify text). Qed.

Lemma forEach_parse_line lines : forall index h parsed errs,
  forEach parse_line lines index (h, parsed, errs)
  = let '(h', rs) := alloc_all h (parsed_values lines) in
    (h', parsed ++ rs, errs ++ failed_lines index lines).
Proof.
  induction lines as [|text lines IH]; intros index h parsed errs.
  - simpl. by rewrite !app_nil_r.
  - cbn [forEach]. rewrite parse_line_classify, parsed_values_cons, failed_lines_cons.
    destruct (classify text) as [|v|].
    + apply IH.
    + cbn [alloc_all]. destruct (new_ref h v) as [h1 r]. rewrite IH.
      destruct (alloc_all h1 (parsed_values lines)) as [h2 rs].
      by rewrite <- app_assoc.
    + rewrite IH. destruct (alloc_all h (parsed_values lines)) as [h2 rs].
      by rewrite <- app_assoc.
Qed.

Lemma parseContent_spec content st :
  collection (parseContent content st) = parsed_values (split 10 content)
  /\ errors (parseContent content st) = failed_lines 0 (split 10 content)
  /\ selectedConversation (parseContent content st) = null
  /\ Forall (fun r => ref_ok (heap (parseContent content st)) r /\ r <> RPrim PUndefined)
       (conversations (parseContent content st)).
Proof.
  unfold parseContent, collection. rewrite forEach_parse_line.
  destruct (alloc_all (heap st) (parsed_values (split 10 content))) as [h rs] eqn:E.
  simpl. apply alloc_all_spec in E as (_ & Hrs & Hok & _ & Hu).
  repeat split; [done|].
  apply Forall_and. split; [done|]. apply Hu.
  unfold parsed_values. apply Forall_forall. intros v Hv.
  apply list_elem_of_omap in Hv as (text & _ & Hv).
  unfold valid_value, classify in Hv.
  destruct (decide _); [|done]. destruct (JSON_parse text) eqn:Ev; [|done].
  injection Hv as <-. by eapply JSON_parse_defined.
Qed.

(** ** The two lists, line by line *)

Lemma classify_cases text :
  match classify text with
  | Blank => trim text = []
  | Valid v => trim text <> [] /\ JSON_parse text = Some v
  | Invalid => trim text <> [] /\ JSON_parse text = None
  end.
Proof.
  unfold classify. destruct (decide (trim text <> [])) as [Hn|Hb].
  - by destruct (JSON_parse text).
  - by destruct (decide (trim text = [])).
Qed.

Lemma parsed_values_app l1 l2 :
  parsed_values (l1 ++ l2) = parsed_values l1 ++ parsed_values l2.
Proof. apply omap_app. Qed.

Lemma failed_lines_app l1 : forall index l2,
  failed_lines index (l1 ++ l2)
  = failed_lines index l1 ++ failed_lines (index + length l1) l2.
Proof.
  induction l1 as [|text l1 IH]; intros index l2.
  - simpl. by rewrite Nat.add_0_r.
  - rewrite <- app_comm_cons, !failed_lines_cons, IH.
    replace (S index + length l1) with (index + length (text :: l1)) by (simpl; lia).
    by destruct (classify text).
Qed.

Lemma failed_lines_length lines : forall a b,
  length (failed_lines a lines) = length (failed_lines b lines).
Proof.
  induction lines as [|text lines IH]; intros a b; [done|].
  rewrite !failed_lines_cons.
  destruct (classify text); simpl; rewrite ?(IH (S a) (S b)); done.
Qed.

Lemma failed_lines_elem lines : forall index e,
  e ∈ failed_lines index lines ->
  exists i, lines !! i = Some (content e) /\ classify (content e) = Invalid
            /\ line e = index + i + 1.
Proof.
  induction lines as [|text lines IH]; intros index e; [by intros ?%elem_of_nil|].
  rewrite failed_lines_cons. destruct (classify text) eqn:Ec.
  - intros (i & ? & ? & ?)%IH. exists (S i). repeat split; [done..|lia].
  - intros (i & ? & ? & ?)%IH. exists (S i). repeat split; [done..|lia].
  - intros [->|(i & ? & ? & ?)%IH]%elem_of_cons.
    + exists 0. simpl. repeat split; [done|lia].
    + exists (S i). repeat split; [done..|lia].
Qed.

Lemma failed_lines_sorted lines : forall index,
  StronglySorted lt (map line (failed_lines index lines)).
Proof.
  induction lines as [|text lines IH]; intros index; [constructor|].
  rewrite failed_lines_cons. destruct (classify text); [apply IH..|].
  simpl. constructor; [apply IH|].
  apply Forall_forall. intros n Hn. apply list_elem_of_In in Hn.
  apply in_map_iff in Hn as (e & <- & He). apply list_elem_of_In in He.
  apply failed_lines_elem in He as (i & _ & _ & ->). lia.
Qed.

(** Where the line at position [i] went. *)
Lemma line_destination lines i text :
  lines !! i = Some text ->
  match classify text with
  | Blank => True
  | Valid v => parsed_values lines !! valid_before lines i = Some v
  | Invalid =>
      failed_lines 0 lines !! invalid_before lines i
      = Some {| line := i + 1; content := text |}
  end.
Proof.
  intros (pre & post & -> & ->)%list_elem_of_split_length.
  unfold valid_before, invalid_before. rewrite take_app_length.
  destruct (classify text) as [|v|] eqn:Ec; [done| |].
  - rewrite parsed_values_app, parsed_values_cons, Ec.
    by rewrite lookup_app_r, Nat.sub_diag by lia.
  - rewrite failed_lines_app, failed_lines_cons, Ec.
    by rewrite lookup_app_r, Nat.sub_diag by lia.
Qed.

Lemma valid_before_S text lines i :
  valid_before (text :: lines) (S i)
  = match classify text with
    | Valid _ => S (valid_before lines i)
    | _ => valid_before lines i
    end.
Proof.
  unfold valid_before. change (take (S i) (text :: lines)) with (text :: take i lines).
  rewrite parsed_values_cons. by destruct (classify text).
Qed.

Lemma failed_before_S index text lines i :
  length (failed_lines index (take (S i) (text :: lines)))
  = match classify text with
    | Invalid => S (length (failed_lines (S index) (take i lines)))
    | _ => length (failed_lines (S index) (take i lines))
    end.
Proof.
  change (take (S i) (text :: lines)) with (text :: take i lines).
  rewrite failed_lines_cons. by destruct (classify text).
Qed.

(** Where the conversation at position [j] came from. *)
Lemma parsed_values_origin lines : forall j v,
  parsed_values lines !! j = Some v ->
  exists i text, lines !! i = Some text /\ classify text = Valid v
                 /\ j = valid_before lines i.
Proof.
  induction lines as [|text lines IH]; intros j v; [done|].
  rewrite parsed_values_cons. destruct (classify text) as [|w|] eqn:Ec.
  - intros (i & t & ? & ? & ->)%IH. exists (S i), t.
    by rewrite valid_before_S, Ec.
  - destruct j as [|j]; simpl.
    + intros [= ->]. by exists 0, text.
    + intros (i & t & ? & ? & ->)%IH. exists (S i), t.
      by rewrite valid_before_S, Ec.
  - intros (i & t & ? & ? & ->)%IH. exists (S i), t.
    by rewrite valid_before_S, Ec.
Qed.

(** Where the error at position [j] came from. *)
Lemma failed_lines_origin_from lines : forall index j e,
  failed_lines index lines !! j = Some e ->
  exists i text, lines !! i = Some text /\ classify text = Invalid
                 /\ j = length (failed_lines index (take i lines))
                 /\ e = {| line := index + i + 1; content := text |}.
Proof.
  induction lines as [|text lines IH]; intros index j e; [done|].
  rewrite failed_lines_cons. destruct (classify text) eqn:Ec.
  - intros (i & t & ? & ? & -> & ->)%IH. exists (S i), t.
    rewrite failed_before_S, Ec. repeat split; try done. f_equal. lia.
  - intros (i & t & ? & ? & -> & ->)%IH. exists (S i), t.
    rewrite failed_before_S, Ec. repeat split; try done. f_equal. lia.
  - destruct j as [|j]; simpl.
    + intros [= <-]. exists 0, text. repeat split; try done. f_equal. lia.
    + intros (i & t & ? & ? & -> & ->)%IH. exists (S i), t.
      rewrite failed_before_S, Ec. repeat split; try done. f_equal. lia.
Qed.

Lemma failed_lines_origin lines j e :
  failed_lines 0 lines !! j = Some e ->
  exists i text, lines !! i = Some text /\ classify text = Invalid
                 /\ j = invalid_before lines i
                 /\ e = {| line := i + 1; content := text |}.
Proof. apply failed_lines_origin_from. Qed.

Lemma outputs_count lines : forall index,
  length (parsed_values lines) + length (failed_lines index lines)
  = length (filter (fun text => trim text <> []) lines).
Proof.
  induction lines as [|text lines IH]; intros index; [done|].
  rewrite parsed_values_cons, failed_lines_cons, filter_cons.
  pose proof (classify_cases text) as Hc. specialize (IH (S index)).
  destruct (classify text); destruct (decide (trim text <> [])) as [Hd|Hd]; simpl;
    try lia; try (by destruct Hd); by destruct Hc.
Qed.

(** ** Import: partition, order, error list *)

(** C1. Partition of the input lines. Whatever the text, a blank line
    leaves no trace in either list; a non-blank line that parses is a
    conversation and has no error; a non-blank line that does not parse has
    its error and is no conversation; every conversation and every error
    comes from exactly such a line, at the position that counts the lines of
    its kind before it; and the two lists together are as long as there are
    non-blank lines. *)
Theorem import_partitions_lines (input : jsstring) (st : Store) :
  let lines := split 10 input in
  let st' := parseContent input st in
  length (collection st') + length (errors st')
  = length (filter (fun text => trim text <> []) lines)
  /\ (forall i text, lines !! i = Some text ->
       match classify text with
       | Blank =>
           trim text = []
           /\ (forall e, e ∈ errors st' -> line e <> i + 1)
       | Valid v =>
           trim text <> [] /\ JSON_parse text = Some v
           /\ collection st' !! valid_before lines i = Some v
           /\ (forall e, e ∈ errors st' -> line e <> i + 1)
       | Invalid =>
           trim text <> [] /\ JSON_parse text = None
           /\ errors st' !! invalid_before lines i
              = Some {| line := i + 1; content := text |}
       end)
  /\ (forall j v, collection st' !! j = Some v ->
       exists i text, lines !! i = Some text /\ classify text = Valid v
                      /\ j = valid_before lines i)
  /\ (forall j e, errors st' !! j = Some e ->
       exists i text, lines !! i = Some text /\ classify text = Invalid
                      /\ j = invalid_before lines i
                      /\ e = {| line := i + 1; content := text |}).
Proof.
  intros lines st'.
  destruct (parseContent_spec input st) as (Hc & He & _ & _).
  fold lines st' in Hc, He. rewrite Hc, He.
  assert (Hno : forall i text e, lines !! i = Some text -> classify text <> Invalid ->
                  e ∈ failed_lines 0 lines -> line e <> i + 1).
  { intros i text e Hi Hk (i' & Hi' & Hk' & Hl)%failed_lines_elem Heq.
    assert (i' = i) as -> by lia. congruence. }
  split; [apply outputs_count|]. split; [|split].
  - intros i text Hi. pose proof (classify_cases text) as Hk.
    pose proof (line_destination lines i text Hi) as Hd.
    destruct (classify text) as [|v|] eqn:Ek.
    + split; [done|]. intros e. apply (Hno i text); [done|]. by rewrite Ek.
    + destruct Hk. repeat split; [done..|].
      intros e. apply (Hno i text); [done|]. by rewrite Ek.
    + destruct Hk. by repeat split.
  - apply parsed_values_origin.
  - apply failed_lines_origin.
Qed.

(** C6. Order preservation. The collection holds the values of the lines
    that are not blank and parse, in the order of the text; the error list
    holds the lines that are not blank and do not parse, in the order of the
    text, each with its position counted from 1 and its text as it stood in
    the file. *)
Theorem import_preserves_order (input : jsstring) (st : Store) :
  let lines := split 10 input in
  let st' := parseContent input st in
  collection st' = omap valid_value lines
  /\ errors st' = failed_lines 0 lines
  /\ Forall (fun e => 1 <= line e
                      /\ lines !! (line e - 1) = Some (content e)
                      /\ trim (content e) <> []
                      /\ JSON_parse (content e) = None) (errors st').
Proof.
  intros lines st'.
  destruct (parseContent_spec input st) as (Hc & He & _ & _).
  fold lines st' in Hc, He. rewrite Hc, He. repeat split.
  apply Forall_forall. intros e (i & Hi & Hk & Hl)%failed_lines_elem.
  pose proof (classify_cases (content e)) as Hcase. rewrite Hk in Hcase.
  destruct Hcase. rewrite Hl. replace (0 + i + 1 - 1) with i by lia.
  repeat split; (done || lia).
Qed.

(** C10. Order of the error list. The line numbers of the error list
    increase strictly, and each lies between 1 and the number of lines of
    the text. *)
Theorem error_lines_increase (input : jsstring) (st : Store) :
  let lines := split 10 input in
  let st' := parseContent input st in
  StronglySorted lt (map line (errors st'))
  /\ Forall (fun e => 1 <= line e <= length lines) (errors st').
Proof.
  intros lines st'.
  destruct (parseContent_spec input st) as (_ & He & _ & _).
  fold lines st' in He. rewrite He. split; [apply failed_lines_sorted|].
  apply Forall_forall. intros e (i & Hi & _ & Hl)%failed_lines_elem.
  apply lookup_lt_Some in Hi. lia.
Qed.

(** ** The scenario of the specification *)

Example example_import :
  let st := parseContent example_text initial in
  export_lines (heap st) (conversations st)
  = [json "{'messages':[{'role':'user','content':'hi'}]}";
     json "{'messages':[{'role':'assistant','content':'hello'}]}"]
  /\ errors st = [{| line := 3; content := str "not json" |}].
Proof. vm_compute. done. Qed.

Example example_edit :
  (example_editing ≫= Page.saveClick 0)
    ≫= (fun st => Some (export_lines (heap st) (conversations st)))
  = Some [json "{'messages':[{'role':'user','content':'hi there'}]}";
          json "{'messages':[{'role':'assistant','content':'hello'}]}"].
Proof. vm_compute. done. Qed.

(** ** Edit state *)

Lemma parseContent_selected input st :
  selectedConversation (parseContent input st) = null.
Proof. unfold parseContent. by destruct (forEach _ _ _ _) as [[h parsed] errs]. Qed.

(** C5 fails on the code. [parseContent] sets the collection, the
    selection and the errors, and neither the edit target nor the draft,
    both of which [handleMessageEdit] resets and the first of which
    [handleConversationSelect] resets. In the scenario a second file is
    imported while the first message is being edited with the draft
    [hi there]: the edit target and the draft stay, the effect selects the
    first conversation of the new file, and the check button writes
    [hi there] into it. *)
Theorem import_keeps_edit_state :
  (forall input st,
     editingMessage (parseContent input st) = editingMessage st
     /\ editedContent (parseContent input st) = editedContent st
     /\ selectedConversation (parseContent input st) = null)
  /\ (forall index st,
        editingMessage (handleConversationSelect index st) = None
        /\ editedContent (handleConversationSelect index st) = editedContent st)
  /\ exists st1 st2,
       Page.run [Page.Upload example_text; Page.Pencil 0; Page.Type_ (str "hi there");
                 Page.Upload other_text] initial = Some st1
       /\ editingMessage st1 = Some 0
       /\ editedContent st1 = VString (str "hi there")
       /\ export_lines (heap st1) (conversations st1) = [other_text]
       /\ Page.saveClick 0 st1 = Some st2
       /\ export_lines (heap st2) (conversations st2)
          = [json "{'messages':[{'role':'user','content':'hi there'}]}"].
Proof.
  split; [|split; [done|]].
  - intros input st. unfold parseContent. by destruct (forEach _ _ _ _) as [[h parsed] errs].
  - do 2 eexists. split; [vm_compute; reflexivity|].
    split; [reflexivity|]. split; [reflexivity|]. split; [vm_compute; reflexivity|].
    split; [vm_compute; reflexivity|]. vm_compute. reflexivity.
Qed.

(** ** Export of an empty collection *)

(** C7. With no conversation, the export hands the notification channel
    the message that there is no data, saves no file, and the event leaves
    the state as it was; this in both copies of the component, whatever the
    server would have answered. *)
Theorem empty_export_is_an_error `{CaseMapping} (st : Store)
    (response : option (jsstring * jsstring)) :
  conversations st = [] ->
  Page.handleDownload st = [noData]
  /\ JsonlEditor.handleDownload response st = [noData]
  /\ Page.dispatch Page.Download st = Some (st, [noData])
  /\ (forall download type blob, SaveFile download type blob ∉ [noData]).
Proof.
  intros Hc. unfold Page.dispatch, Page.handleDownload, JsonlEditor.handleDownload.
  rewrite Hc. simpl. repeat split.
  intros download type blob Hin. apply list_elem_of_singleton in Hin. done.
Qed.

Lemma empty_export_is_an_error_witness :
  conversations initial = []
  /\ Page.dispatch Page.Download initial = Some (initial, [noData]).
Proof.
  split; [reflexivity|].
  apply (empty_export_is_an_error initial None). reflexivity.
Defined.

(** ** Properties of objects *)

Lemma lookup_replace_eq k v o w :
  lookup_property k o = Some w -> lookup_property k (replace_property k v o) = Some v.
Proof.
  induction o as [|[k' v'] o IH]; simpl; [done|].
  destruct (decide (k' = k)) as [->|Hne]; simpl.
  - by rewrite decide_True.
  - rewrite decide_False by done. auto.
Qed.

Lemma lookup_replace_ne k k' v o :
  k <> k' -> lookup_property k (replace_property k' v o) = lookup_property k o.
Proof.
  intros Hne. induction o as [|[k1 v1] o IH]; simpl; [done|].
  destruct (decide (k1 = k')) as [->|Hne1]; simpl.
  - by rewrite !decide_False by done.
  - destruct (decide (k1 = k)); [done|]. auto.
Qed.

Lemma lookup_insert_index_eq i k v o :
  lookup_property k o = None -> lookup_property k (insert_index i k v o) = Some v.
Proof.
  induction o as [|[k' v'] o IH]; simpl.
  - by rewrite decide_True.
  - destruct (decide (k' = k)) as [->|Hne]; [done|]. intros Ho.
    destruct (array_index k') as [j|]; [destruct (i <? j)%Z|]; simpl;
      rewrite ?decide_True by done; try done.
    rewrite decide_False by done. auto.
Qed.

Lemma lookup_insert_index_ne i k k' v o :
  k <> k' -> lookup_property k (insert_index i k' v o) = lookup_property k o.
Proof.
  intros Hne. induction o as [|[k1 v1] o IH]; simpl.
  - by rewrite decide_False by done.
  - destruct (array_index k1) as [j|]; [destruct (i <? j)%Z|]; simpl;
      rewrite ?(decide_False (P := k' = k)) by done; try done.
    destruct (decide (k1 = k)); [done|]. auto.
Qed.

Lemma lookup_property_app k o1 o2 :
  lookup_property k (o1 ++ o2)
  = match lookup_property k o1 with
    | Some v => Some v
    | None => lookup_property k o2
    end.
Proof.
  induction o1 as [|[k' v'] o1 IH]; simpl; [done|].
  by destruct (decide (k' = k)).
Qed.

Lemma lookup_set_property_eq k v o :
  lookup_property k (set_property k v o) = Some v.
Proof.
  unfold set_property. destruct (lookup_property k o) as [w|] eqn:E.
  - by eapply lookup_replace_eq.
  - destruct (array_index k).
    + by apply lookup_insert_index_eq.
    + rewrite lookup_property_app, E. simpl. by rewrite decide_True.
Qed.

Lemma lookup_set_property_ne k k' v o :
  k <> k' -> lookup_property k (set_property k' v o) = lookup_property k o.
Proof.
  intros Hne. unfold set_property. destruct (lookup_property k' o) as [w|] eqn:E.
  - by apply lookup_replace_ne.
  - destruct (array_index k').
    + by apply lookup_insert_index_ne.
    + rewrite lookup_property_app. simpl. rewrite decide_False by done.
      by destruct (lookup_property k o).
Qed.

(** ** Editing a message *)

Lemma ref_at_of_nat (l : list ref) (c : nat) r :
  l !! c = Some r -> ref_at l (Z.of_nat c) = r.
Proof.
  intros Hc. unfold ref_at, element.
  destruct (Z.leb_spec 0 (Z.of_nat c)); [|lia]. by rewrite Nat2Z.id, Hc.
Qed.

Lemma set_ref_of_nat (l : list ref) (c : nat) r :
  c < length l -> set_ref l (Z.of_nat c) r = <[c := r]> l.
Proof.
  intros Hc. unfold set_ref.
  destruct (Z.ltb_spec (Z.of_nat c) 0); [lia|].
  rewrite Nat2Z.id. by rewrite decide_True.
Qed.

(** What the updater of the collection returns for a message that exists. *)
Lemma updateConversations_valid h convs c m r o p msgs draft :
  convs !! c = Some r ->
  read h r = Some (VObject o) ->
  lookup_property (str "messages") o = Some (VArray msgs) ->
  msgs !! m = Some (VObject p) ->
  Page.updateConversations h convs (Z.of_nat c) m draft
  = Some (h ++ [VObject (set_property (str "messages")
                           (VArray (<[m := VObject (set_property (str "content")
                                                      draft p)]> msgs)) o)],
          <[c := RObj (length h)]> convs).
Proof.
  intros Hc Hr Ho Hm. unfold Page.updateConversations.
  rewrite (ref_at_of_nat _ _ _ Hc), Hr. simpl. rewrite Ho. simpl.
  unfold Page.editMessages. simpl. rewrite Hm. simpl.
  unfold array_set. rewrite decide_True by (by eapply lookup_lt_Some).
  by rewrite set_ref_of_nat by (by eapply lookup_lt_Some).
Qed.

Lemma updateSelected_valid h r o p msgs m draft :
  read h r = Some (VObject o) ->
  lookup_property (str "messages") o = Some (VArray msgs) ->
  msgs !! m = Some (VObject p) ->
  exists sel, Page.updateSelected h r m draft = Some (h ++ [sel], RObj (length h)).
Proof.
  intros Hr Ho Hm. unfold Page.updateSelected.
  assert (ToBoolean r = true) as ->.
  { destruct r as [q|l]; [|done]. simpl in Hr. by injection Hr. }
  rewrite Hr. simpl. rewrite Ho. simpl.
  unfold Page.editMessages. simpl. rewrite Hm. simpl. by eexists.
Qed.

(** C4. Edit isolation. For a conversation [c] of the collection and a
    message [m] of it, with the selection on that conversation or on none,
    the edit returns; the collection keeps its length and every
    conversation its number of messages; the content of message [m] of
    conversation [c] is the draft; and every other field of every message of
    every conversation, its role included, is what it was. *)
Theorem edit_is_isolated (st : Store) (c m : nat) (r : ref)
    (o p : list (jsstring * value)) (msgs : list value) :
  store_ok st ->
  conversations st !! c = Some r ->
  read (heap st) r = Some (VObject o) ->
  lookup_property (str "messages") o = Some (VArray msgs) ->
  msgs !! m = Some (VObject p) ->
  selectedConversation st = r \/ selectedConversation st = null ->
  exists st',
    Page.handleMessageEdit (Z.of_nat c) m st = Some st'
    /\ length (conversations st') = length (conversations st)
    /\ (forall c', length <$> messages_of st' c' = length <$> messages_of st c')
    /\ message_field st' c m (str "content") = Some (editedContent st)
    /\ (forall c' m' k, (c', m', k) <> (c, m, str "content") ->
          message_field st' c' m' k = message_field st c' m' k).
Proof.
  intros (_ & Hok & _) Hc Hr Ho Hm Hsel.
  set (draft := editedContent st).
  set (msgs' := <[m := VObject (set_property (str "content") draft p)]> msgs).
  set (conv' := VObject (set_property (str "messages") (VArray msgs') o)).
  assert (Hrok : ref_ok (heap st) r).
  { rewrite Forall_forall in Hok. apply Hok. by eapply list_elem_of_lookup_2. }
  assert (exists ext,
    Page.handleMessageEdit (Z.of_nat c) m st
    = Some {| heap := (heap st ++ [conv']) ++ ext;
              conversations := <[c := RObj (length (heap st))]> (conversations st);
              selectedConversation :=
                if decide (selectedConversation st = null) then null
                else RObj (length (heap st ++ [conv']));
              searchTerm := searchTerm st; errors := errors st;
              editingMessage := None; editedContent := VString [] |}) as [ext Hedit].
  { subst conv' msgs' draft. unfold Page.handleMessageEdit.
    rewrite (updateConversations_valid _ _ _ _ _ _ _ _ _ Hc Hr Ho Hm). simpl.
    destruct Hsel as [Hs|Hs]; rewrite Hs.
    - match goal with
      | |- context [Page.updateSelected ?h r m ?d] =>
          destruct (updateSelected_valid h r o p msgs m d)
            as [sel Hu]; [by rewrite read_app|done..|]
      end.
      rewrite Hu. simpl. exists [sel].
      rewrite decide_False; [done|]. intros ->. by simpl in Hr.
    - simpl. exists []. by rewrite app_nil_r. }
  eexists. split; [exact Hedit|]. clear Hedit.
  assert (Hnew : forall c' m' k,
    message_field
      {| heap := (heap st ++ [conv']) ++ ext;
         conversations := <[c := RObj (length (heap st))]> (conversations st);
         selectedConversation :=
           if decide (selectedConversation st = null) then null
           else RObj (length (heap st ++ [conv']));
         searchTerm := searchTerm st; errors := errors st;
         editingMessage := None; editedContent := VString [] |} c' m' k
    = if decide (c' = c) then get_index (VArray msgs') m' ≫= fun message => get_named message k
      else message_field st c' m' k).
  { intros c' m' k. unfold message_field. simpl.
    destruct (decide (c' = c)) as [->|Hne].
    - rewrite list_lookup_insert_eq by (by eapply lookup_lt_Some). simpl.
      rewrite <- app_assoc. rewrite lookup_app_r by lia.
      rewrite Nat.sub_diag. simpl. by rewrite lookup_set_property_eq.
    - rewrite list_lookup_insert_ne by done.
      destruct (conversations st !! c') as [r'|] eqn:Hc'; simpl; [|done].
      rewrite <- app_assoc, read_app; [done|].
      rewrite Forall_forall in Hok. apply Hok. by eapply list_elem_of_lookup_2. }
  assert (Hold : forall m' k,
    message_field st c m' k = get_index (VArray msgs) m' ≫= fun message => get_named message k).
  { intros m' k. unfold message_field. rewrite Hc. simpl. rewrite Hr. simpl.
    by rewrite Ho. }
  split; [simpl; by rewrite length_insert|]. split; [|split].
  - intros c'. unfold messages_of. simpl.
    destruct (decide (c' = c)) as [->|Hne].
    + rewrite list_lookup_insert_eq by (by eapply lookup_lt_Some). simpl.
      rewrite <- app_assoc. rewrite lookup_app_r by lia.
      rewrite Nat.sub_diag. simpl. rewrite lookup_set_property_eq. simpl.
      rewrite Hc. simpl. rewrite Hr. simpl. rewrite Ho. simpl.
      unfold msgs'. by rewrite length_insert.
    + rewrite list_lookup_insert_ne by done.
      destruct (conversations st !! c') as [r'|] eqn:Hc'; simpl; [|done].
      rewrite <- app_assoc, read_app; [done|].
      rewrite Forall_forall in Hok. apply Hok. by eapply list_elem_of_lookup_2.
  - rewrite Hnew, decide_True by done. simpl. unfold msgs'.
    rewrite list_lookup_insert_eq by (by eapply lookup_lt_Some). simpl.
    by rewrite lookup_set_property_eq.
  - intros c' m' k Hne. rewrite Hnew.
    destruct (decide (c' = c)) as [->|Hnc]; [|done].
    rewrite Hold. simpl. unfold msgs'.
    destruct (decide (m' = m)) as [->|Hnm].
    + rewrite list_lookup_insert_eq by (by eapply lookup_lt_Some). rewrite Hm. simpl.
      rewrite lookup_set_property_ne; [done|]. congruence.
    + by rewrite list_lookup_insert_ne by done.
Qed.

Lemma edit_is_isolated_witness :
  exists st',
    Page.handleMessageEdit 0 0 example_store = Some st'
    /\ message_field st' 0 0 (str "content") = Some (VString (str "hi there"))
    /\ message_field st' 0 0 (str "role") = message_field example_store 0 0 (str "role")
    /\ message_field st' 1 0 (str "content")
       = message_field example_store 1 0 (str "content").
Proof.
  edestruct (edit_is_isolated example_store 0 0) as (st' & He & _ & _ & Hc & Hf);
    [ split; [|split; [|vm_compute; lia]];
      [ change (heap example_store) with (heap (parseContent example_text initial))
      | change (conversations example_store) with [RObj 0; RObj 1] ];
      repeat constructor; try done; vm_compute; lia
    | reflexivity | reflexivity | reflexivity | reflexivity | left; reflexivity | ].
  exists st'. split; [exact He|]. split; [exact Hc|].
  split; apply Hf; intros [=].
Defined.

(** ** The selection *)

(** After an import the selection is none. *)
Lemma import_selection_valid input st : selection_valid (parseContent input st).
Proof. left. apply parseContent_selected. Qed.

(** The second copy of the component selects the conversation it has just
    edited, which is in the collection. *)
Lemma jsonl_editor_selection_valid ok c m st st' eff :
  JsonlEditor.handleMessageEdit ok c m st = Some (st', eff) -> selection_valid st'.
Proof.
  unfold JsonlEditor.handleMessageEdit, ref_at, element.
  destruct (0 <=? c)%Z; simpl; [|done].
  destruct (conversations st !! Z.to_nat c) as [[q|l]|] eqn:Hc; simpl; [done| |done].
  destruct (heap st !! l) as [conv|]; simpl; [|done].
  destruct (JsonlEditor.assign_in_conversation conv m (editedContent st)); simpl; [|done].
  intros [= <- _]. right. by exists (Z.to_nat c).
Qed.

(** C3 on page.tsx. In the scenario, saving the draft puts a fresh copy of
    the edited conversation in the collection and another fresh copy in the
    selection: the selected object is no conversation of the collection,
    [indexOf] answers -1, and saving a second time throws. *)
Lemma page_selection_dangles :
  exists st,
    example_editing ≫= Page.saveClick 0 = Some st
    /\ conversations st = [RObj 2; RObj 1]
    /\ selectedConversation st = RObj 3
    /\ ~ selection_valid st
    /\ indexOf (conversations st) (selectedConversation st) = (-1)%Z
    /\ Page.saveClick 0 st = None.
Proof.
  eexists. split; [vm_compute; reflexivity|].
  split; [reflexivity|]. split; [reflexivity|]. split; [|split; reflexivity].
  intros [Hn|[i Hi]]; [done|]. simpl in Hi.
  destruct i as [|[|i]]; simpl in Hi; done.
Qed.

(** ** The state after an import refers to objects of the store *)

Lemma new_ref_objects h v h' r :
  new_ref h v = (h', r) -> Forall is_object h -> Forall is_object h'.
Proof.
  destruct v; simpl; intros [= <- <-] Hh; [done|..];
    (apply Forall_app; split; [done|by repeat constructor]).
Qed.

Lemma alloc_all_objects vs : forall h h' rs,
  alloc_all h vs = (h', rs) -> Forall is_object h -> Forall is_object h'.
Proof.
  induction vs as [|v vs IH]; simpl; intros h h' rs.
  - by intros [= <- <-].
  - destruct (new_ref h v) as [h1 r] eqn:E1.
    destruct (alloc_all h1 vs) as [h2 rs'] eqn:E2.
    intros [= <- <-] Hh. eapply IH; [done|]. by eapply new_ref_objects.
Qed.

Lemma parseContent_store_ok input st :
  Forall is_object (heap st) -> store_ok (parseContent input st).
Proof.
  intros Hh. destruct (parseContent_spec input st) as (_ & _ & Hs & Hc).
  split; [|split; [done|by rewrite Hs]].
  unfold parseContent. rewrite forEach_parse_line.
  destruct (alloc_all (heap st) (parsed_values (split 10 input))) as [h rs] eqn:E.
  simpl. by eapply alloc_all_objects.
Qed.

(** A conversation of a well-formed state has a serialized text. *)
Lemma conversation_text h r :
  Forall is_object h -> ref_ok h r -> r <> RPrim PUndefined ->
  exists v, read h r = Some v /\ JSON_stringify v = Some (serialize v).
Proof.
  intros Hh Hr Hu. destruct r as [p|l]; simpl in *.
  - exists (VPrim p). split; [done|]. by destruct p.
  - destruct (lookup_lt_is_Some_2 h l Hr) as [v Hv]. exists v. split; [done|].
    rewrite Forall_forall in Hh.
    assert (is_object v) by (apply Hh; by eapply list_elem_of_lookup_2).
    by destruct v.
Qed.

(** ** The filter *)

Lemma includes_empty s : includes s [] = true.
Proof. by destruct s. Qed.

Section FilterProperties.
Context `{CaseMapping}.

Lemma matches_spec h q conv index :
  Forall is_object h -> ref_ok h conv -> conv <> RPrim PUndefined ->
  exists keep, matches h q conv index = Some keep
               /\ (keep = true <-> text_matches h q conv \/ label_matches q index).
Proof.
  intros Hh Hr Hu. destruct (conversation_text h conv Hh Hr Hu) as (v & Hv & Hs).
  unfold matches, searchContent, text_matches, label_matches.
  rewrite Hv. simpl. rewrite Hs. simpl. eexists. split; [done|].
  rewrite orb_true_iff. split.
  - intros [Ht|Hl]; [left|by right]. by eexists.
  - intros [(text & [= <-] & Ht)|Hl]; [by left|by right].
Qed.

(** The filter keeps the conversations that match, in their order: [idx]
    are the positions kept. *)
Lemma filter_from_spec h q l : forall index,
  Forall is_object h ->
  Forall (fun r => ref_ok h r /\ r <> RPrim PUndefined) l ->
  exists kept idx,
    filter_from h q l index = Some kept
    /\ StronglySorted lt idx
    /\ Forall2 (fun i conv => index <= i /\ l !! (i - index) = Some conv) idx kept
    /\ (forall j conv, l !! j = Some conv ->
          index + j ∈ idx <-> text_matches h q conv \/ label_matches q (index + j)).
Proof.
  induction l as [|conv l IH]; intros index Hh Hl.
  - exists [], []. split; [done|]. split; [constructor|]. split; [constructor|].
    intros j conv Hj. done.
  - inversion Hl as [|? ? [Hr Hu] Hl']; subst.
    destruct (IH (S index) Hh Hl') as (kept & idx & Hf & Hsort & Hall & Hiff).
    destruct (matches_spec h q conv index Hh Hr Hu) as (keep & Hm & Hkeep).
    assert (Hge : Forall (fun i => S index <= i) idx).
    { clear -Hall. induction Hall as [|i c idx kept [Hi _] _ IH']; by constructor. }
    assert (Hshift : Forall2 (fun i c => index <= i /\ (conv :: l) !! (i - index) = Some c)
                       idx kept).
    { eapply Forall2_impl; [exact Hall|]. simpl. intros i c [Hi Hc].
      split; [lia|]. by replace (i - index) with (S (i - S index)) by lia. }
    assert (Hnot : index ∉ idx).
    { intros Hin. rewrite Forall_forall in Hge. apply Hge in Hin. lia. }
    cbn [filter_from]. rewrite Hm, Hf. simpl. destruct keep.
    + exists (conv :: kept), (index :: idx). split; [done|]. split; [|split].
      * constructor; [done|]. eapply Forall_impl; [exact Hge|]. simpl. lia.
      * constructor; [|done]. split; [lia|]. by rewrite Nat.sub_diag.
      * intros [|j] c Hj.
        -- simpl in Hj. injection Hj as <-. rewrite Nat.add_0_r.
           split; [intros _; by apply Hkeep|intros _; by left].
        -- simpl in Hj. replace (index + S j) with (S index + j) by lia.
           rewrite <- (Hiff j c Hj).
           split; [intros [?|?]%elem_of_cons; [lia|done]|by right].
    + exists kept, idx. split; [done|]. split; [done|]. split; [done|].
      intros [|j] c Hj.
      * simpl in Hj. injection Hj as <-. rewrite Nat.add_0_r.
        split; [done|]. intros Hmatch. apply Hkeep in Hmatch. done.
      * simpl in Hj. replace (index + S j) with (S index + j) by lia.
        by rewrite <- (Hiff j c Hj).
Qed.

(** Filtering only leaves conversations out. *)
Lemma filter_from_sublist h q l : forall index kept,
  filter_from h q l index = Some kept -> sublist kept l.
Proof.
  induction l as [|conv l IH]; intros index kept; simpl.
  - intros [= <-]. constructor.
  - destruct (matches h q conv index) as [keep|]; [|done].
    destruct (filter_from h q l (S index)) as [rest|] eqn:E; simpl; [|done].
    intros [= <-]. apply IH in E. destruct keep; by constructor.
Qed.

(** Conversations that all match by their text are all kept. *)
Lemma filter_from_all h q l : forall index,
  Forall (text_matches h q) l -> filter_from h q l index = Some l.
Proof.
  induction l as [|conv l IH]; intros index Hl; [done|].
  inversion Hl as [|? ? (text & Ht & Hi) Hl']; subst.
  cbn [filter_from]. unfold matches, searchContent.
  destruct (read h conv) as [v|]; simpl in *; [|done].
  rewrite Ht. simpl. rewrite Hi. simpl. by rewrite IH.
Qed.

(** The view with positions: what the code computes is the view without
    the positions, and the filter leaves the view as it is. *)
Lemma filter_from_ix_spec h q l : forall index,
  Forall is_object h ->
  Forall (fun r => ref_ok h r /\ r <> RPrim PUndefined) l ->
  exists view,
    filter_from_ix h q (positions_from index l) = Some view
    /\ filter_from h q l index = Some (map snd view)
    /\ StronglySorted lt (map fst view)
    /\ Forall (fun ic => index <= ic.1 /\ l !! (ic.1 - index) = Some ic.2) view
    /\ (forall j conv, l !! j = Some conv ->
          (index + j, conv) ∈ view <-> text_matches h q conv \/ label_matches q (index + j))
    /\ filter_from_ix h q view = Some view.
Proof.
  induction l as [|conv l IH]; intros index Hh Hl.
  - exists []. split; [done|]. split; [done|]. split; [constructor|]. split; [constructor|].
    split; [|done]. intros j conv Hj. done.
  - inversion Hl as [|? ? [Hr Hu] Hl']; subst.
    destruct (IH (S index) Hh Hl') as (view & Hv & Hf & Hsort & Hall & Hiff & Hidem).
    destruct (matches_spec h q conv index Hh Hr Hu) as (keep & Hm & Hkeep).
    assert (Hge : Forall (fun ic : nat * ref => S index <= ic.1) view).
    { eapply Forall_impl; [exact Hall|]. by intros ic [? _]. }
    assert (Hshift : Forall (fun ic : nat * ref =>
                               index <= ic.1 /\ (conv :: l) !! (ic.1 - index) = Some ic.2) view).
    { eapply Forall_impl; [exact Hall|]. simpl. intros ic [Hi Hc].
      split; [lia|]. by replace (ic.1 - index) with (S (ic.1 - S index)) by lia. }
    assert (Hnot : forall c, (index, c) ∉ view).
    { intros c Hin. rewrite Forall_forall in Hge. apply Hge in Hin. simpl in Hin. lia. }
    cbn [positions_from filter_from_ix filter_from]. rewrite Hm, Hv, Hf. simpl.
    destruct keep.
    + exists ((index, conv) :: view). split; [done|]. split; [done|].
      split; [|split; [|split]].
      * simpl. constructor; [done|]. apply Forall_fmap.
        eapply Forall_impl; [exact Hge|]. simpl. lia.
      * constructor; [|done]. simpl. split; [lia|]. by rewrite Nat.sub_diag.
      * intros [|j] c Hj.
        -- simpl in Hj. injection Hj as <-. rewrite Nat.add_0_r.
           split; [intros _; by apply Hkeep|intros _; by left].
        -- simpl in Hj. replace (index + S j) with (S index + j) by lia.
           rewrite <- (Hiff j c Hj).
           split; [intros [[=]|?]%elem_of_cons; [lia|done]|by right].
      * cbn [filter_from_ix]. rewrite Hm, Hidem. done.
    + exists view. split; [done|]. split; [done|]. split; [done|]. split; [done|].
      split; [|done]. intros [|j] c Hj.
      * simpl in Hj. injection Hj as <-. rewrite Nat.add_0_r.
        split; [intros Hin; by destruct (Hnot conv)|].
        intros Hmatch. apply Hkeep in Hmatch. done.
      * simpl in Hj. replace (index + S j) with (S index + j) by lia.
        by rewrite <- (Hiff j c Hj).
Qed.
End FilterProperties.

(** C8. Filter correctness. In the filtered view each conversation keeps
    its position in the collection, which is the position of its label
    [Conversation i+1]. The view holds, in the order of the collection, the
    conversations at exactly the positions [i] where the serialized text or
    the label contains the query, both in lower case; what the code
    computes is this view without the positions; the empty query keeps
    every conversation; a change of the query leaves the collection and its
    objects as they are; and the filter applied to the view gives the view
    again. *)
Theorem filter_is_matching_subsequence `{CaseMapping} (st : Store) :
  store_ok st ->
  let q := toLowerCase (searchTerm st) in
  exists view,
    filtered_view st = Some view
    /\ filteredConversations st = Some (map snd view)
    /\ StronglySorted lt (map fst view)
    /\ Forall (fun ic => conversations st !! ic.1 = Some ic.2) view
    /\ (forall i conv, conversations st !! i = Some conv ->
          (i, conv) ∈ view <-> text_matches (heap st) q conv \/ label_matches q i)
    /\ (searchTerm st = [] -> map snd view = conversations st)
    /\ (forall value,
          conversations (handleSearchChange value st) = conversations st
          /\ heap (handleSearchChange value st) = heap st)
    /\ filter_from_ix (heap st) q view = Some view.
Proof.
  intros (Hh & Hl & _) q.
  destruct (filter_from_ix_spec (heap st) q (conversations st) 0 Hh Hl)
    as (view & Hv & Hf & Hsort & Hall & Hiff & Hidem).
  exists view. split; [exact Hv|]. split; [exact Hf|]. split; [done|].
  split; [|split; [|split; [|split; [done|done]]]].
  - eapply Forall_impl; [exact Hall|]. simpl. intros ic [_ Hi].
    by rewrite Nat.sub_0_r in Hi.
  - intros i conv Hi. apply (Hiff i conv Hi).
  - intros Hq. unfold filteredConversations, filter_conversations in Hf.
    rewrite filter_from_all in Hf; [congruence|].
    subst q. rewrite Hq, toLowerCase_empty.
    eapply Forall_impl; [exact Hl|]. simpl. intros r [Hr Hu].
    destruct (conversation_text (heap st) r Hh Hr Hu) as (v & Hv' & Hs).
    exists (serialize v). rewrite Hv'. simpl. split; [done|]. apply includes_empty.
Qed.

(** Of two conversations with the same text, the query [2] keeps the
    second, through its label [Conversation 2]. *)
Lemma filter_is_matching_subsequence_witness :
  exists view,
    @filtered_view latin1_case (handleSearchChange (str "2") twins) = Some view
    /\ map snd view = [RObj 1]
    /\ @filter_from_ix latin1_case (heap twins) (str "2") view = Some view.
Proof.
  destruct (@filter_is_matching_subsequence latin1_case (handleSearchChange (str "2") twins))
    as (view & Hv & _ & _ & _ & _ & _ & _ & Hidem).
  - apply (parseContent_store_ok _ initial). constructor.
  - exists view. split; [exact Hv|]. split; [|exact Hidem].
    vm_compute in Hv. by injection Hv as <-.
Defined.

(** ** Decimal digits *)

Lemma digits_value_snoc ds d : digits_value (ds ++ [d]) = (10 * digits_value ds + d)%Z.
Proof. unfold digits_value. by rewrite fold_left_app. Qed.

Lemma digits_value_app ds1 ds2 :
  digits_value (ds1 ++ ds2)
  = (digits_value ds1 * 10 ^ Z.of_nat (length ds2) + digits_value ds2)%Z.
Proof.
  induction ds2 as [|d ds2 IH] using rev_ind.
  - rewrite app_nil_r. change (digits_value []) with 0%Z.
    change (Z.of_nat (length (@nil Z))) with 0%Z. rewrite Z.pow_0_r. lia.
  - rewrite app_assoc, !digits_value_snoc, IH, length_app. simpl.
    replace (Z.of_nat (length ds2 + 1)) with (Z.succ (Z.of_nat (length ds2))) by lia.
    rewrite Z.pow_succ_r by lia. lia.
Qed.

Lemma digits_value_zeros n ds :
  digits_value (replicate n 0%Z ++ ds) = digits_value ds.
Proof.
  induction n as [|n IH]; [done|]. simpl. unfold digits_value in *. simpl. exact IH.
Qed.

Lemma digits_value_nonneg ds : is_digits ds -> (0 <= digits_value ds)%Z.
Proof.
  induction ds as [|d ds IH] using rev_ind; [done|].
  intros [Hds Hd]%Forall_app. rewrite digits_value_snoc.
  inversion Hd; subst. specialize (IH Hds). lia.
Qed.

Lemma digits_fuel_S fuel n acc :
  digits_fuel (S fuel) n acc
  = if (n <? 10)%Z then n :: acc
    else digits_fuel fuel (n / 10)%Z ((n mod 10)%Z :: acc).
Proof. reflexivity. Qed.

Lemma digits_fuel_spec fuel : forall n acc,
  (0 <= n < 2 ^ Z.of_nat (S fuel))%Z ->
  exists d ds,
    digits_fuel (S fuel) n acc = (d :: ds) ++ acc
    /\ digits_value (d :: ds) = n
    /\ is_digits (d :: ds)
    /\ (n <> 0 -> 1 <= d)%Z.
Proof.
  induction fuel as [|fuel IH]; intros n acc Hn; rewrite digits_fuel_S;
    destruct (Z.ltb_spec n 10) as [Hlt|Hge].
  - exists n, []. repeat split; try done; [|lia]. repeat constructor; lia.
  - change (2 ^ Z.of_nat 1)%Z with 2%Z in Hn. lia.
  - exists n, []. repeat split; try done; [|lia]. repeat constructor; lia.
  - assert (Hdiv : (0 <= n / 10 < 2 ^ Z.of_nat (S fuel))%Z).
    { rewrite (Nat2Z.inj_succ (S fuel)), Z.pow_succ_r in Hn by lia.
      split; [apply Z.div_pos; lia|].
      apply Z.div_lt_upper_bound; lia. }
    destruct (IH (n / 10)%Z ((n mod 10)%Z :: acc) Hdiv) as (d & ds & Hf & Hv & Hds & Hd).
    exists d, (ds ++ [(n mod 10)%Z]).
    rewrite Hf. split; [|split; [|split]].
    + simpl. by rewrite <- app_assoc.
    + rewrite app_comm_cons, digits_value_snoc, Hv.
      pose proof (Z.div_mod n 10). lia.
    + rewrite app_comm_cons. apply Forall_app. split; [done|].
      repeat constructor; pose proof (Z.mod_pos_bound n 10); lia.
    + intros _. apply Hd. pose proof (Z.div_le_lower_bound n 10 1). lia.
Qed.

Lemma decimal_digits_spec n :
  (0 <= n)%Z ->
  exists d ds,
    decimal_digits n = d :: ds
    /\ digits_value (d :: ds) = n
    /\ is_digits (d :: ds)
    /\ (n <> 0 -> 1 <= d)%Z.
Proof.
  intros Hn. unfold decimal_digits.
  destruct (digits_fuel_spec (Z.to_nat (Z.log2 n)) n []) as (d & ds & Hf & H).
  - split; [done|]. rewrite Nat2Z.inj_succ, Z2Nat.id by apply Z.log2_nonneg.
    destruct (decide (n = 0%Z)) as [->|Hne]; [done|].
    apply Z.log2_spec. lia.
  - exists d, ds. by rewrite Hf, app_nil_r.
Qed.

Lemma is_digit_char d : (0 <= d <= 9)%Z -> is_digit (Z.to_N d + 48) = true.
Proof. intros Hd. unfold is_digit. apply andb_true_iff. split; apply N.leb_le; lia. Qed.

Lemma take_digits_nil rest :
  match rest with [] => True | c :: _ => is_digit c = false end ->
  take_digits rest = ([], rest).
Proof. destruct rest as [|c rest]; simpl; [done|]. by intros ->. Qed.

Lemma take_digits_chars ds rest :
  is_digits ds ->
  match rest with [] => True | c :: _ => is_digit c = false end ->
  take_digits (digit_chars ds ++ rest) = (ds, rest).
Proof.
  intros Hds Hrest. induction Hds as [|d ds Hd _ IH]; simpl.
  - by apply take_digits_nil.
  - rewrite is_digit_char, IH by done. do 2 f_equal. lia.
Qed.

Lemma take_digits_app s rest :
  match rest with [] => True | c :: _ => is_digit c = false end ->
  take_digits (s ++ rest) = let '(ds, r) := take_digits s in (ds, r ++ rest).
Proof.
  intros Hrest. induction s as [|c s IH]; simpl.
  - by apply take_digits_nil.
  - destruct (is_digit c); [|done]. rewrite IH. by destruct (take_digits s).
Qed.

Lemma take_digits_shorter s ds r : take_digits s = (ds, r) -> length r <= length s.
Proof.
  revert ds r. induction s as [|c s IH]; intros ds r; simpl.
  - by intros [= <- <-].
  - destruct (is_digit c).
    + destruct (take_digits s) as [ds' r'] eqn:E. intros [= <- <-].
      specialize (IH _ _ eq_refl). lia.
    + by intros [= <- <-].
Qed.

(** ** A number token followed by more text *)

Lemma number_end_digit rest :
  number_end rest -> match rest with [] => True | c :: _ => is_digit c = false end.
Proof. destruct rest; [done|]. by intros [? _]. Qed.

Lemma parse_fraction_app s rest ds r :
  number_end rest ->
  parse_fraction s = Some (ds, r) -> parse_fraction (s ++ rest) = Some (ds, r ++ rest).
Proof.
  intros Hrest. destruct s as [|c s]; simpl.
  - intros [= <- <-]. destruct rest as [|c rest]; [done|]. simpl.
    destruct Hrest as (_ & H46 & _). by apply N.eqb_neq in H46 as ->.
  - destruct (c =? 46)%N; [|by intros [= <- <-]].
    rewrite take_digits_app by by apply number_end_digit.
    destruct (take_digits s) as [[|d ds'] r']; [done|]. by intros [= <- <-].
Qed.

Lemma parse_exponent_app s rest ex r :
  number_end rest ->
  parse_exponent s = Some (ex, r) -> parse_exponent (s ++ rest) = Some (ex, r ++ rest).
Proof.
  intros Hrest. destruct s as [|c s]; simpl.
  - intros [= <- <-]. destruct rest as [|c rest]; [done|]. simpl.
    destruct Hrest as (_ & _ & H101 & H69).
    apply N.eqb_neq in H101 as ->. by apply N.eqb_neq in H69 as ->.
  - destruct ((c =? 101) || (c =? 69))%N; [|by intros [= <- <-]].
    destruct s as [|c1 s1].
    + simpl. done.
    + assert (Hsign : parse_sign ((c1 :: s1) ++ rest)
                      = let '(sg, s2) := parse_sign (c1 :: s1) in (sg, s2 ++ rest)).
      { simpl. by repeat destruct (_ =? _)%N. }
      rewrite Hsign. destruct (parse_sign (c1 :: s1)) as [sg s2].
      rewrite take_digits_app by by apply number_end_digit.
      destruct (take_digits s2) as [[|d ds'] r']; [done|]. by intros [= <- <-].
Qed.

Lemma parse_unsigned_app neg s rest x r :
  number_end rest ->
  parse_unsigned neg s = Some (x, r) ->
  parse_unsigned neg (s ++ rest) = Some (x, r ++ rest).
Proof.
  intros Hrest. unfold parse_unsigned.
  rewrite take_digits_app by by apply number_end_digit.
  destruct (take_digits s) as [ids s1].
  destruct (valid_int ids); [|done].
  destruct (parse_fraction s1) as [[fds s2]|] eqn:Ef; simpl; [|done].
  rewrite (parse_fraction_app _ _ _ _ Hrest Ef). simpl.
  destruct (parse_exponent s2) as [[ex s3]|] eqn:Ee; simpl; [|done].
  rewrite (parse_exponent_app _ _ _ _ Hrest Ee). simpl.
  by intros [= <- <-].
Qed.

Lemma parse_number_app s rest x r :
  number_end rest ->
  parse_number s = Some (x, r) -> parse_number (s ++ rest) = Some (x, r ++ rest).
Proof.
  intros Hrest. destruct s as [|c s]; [done|]. simpl.
  destruct (c =? 45)%N.
  - by apply parse_unsigned_app.
  - apply (parse_unsigned_app _ (c :: s)). done.
Qed.

(** A number token starts with a minus sign or a digit. *)
Lemma parse_number_head s x r :
  parse_number s = Some (x, r) ->
  exists c t, s = c :: t /\ (c = 45%N \/ is_digit c = true).
Proof.
  destruct s as [|c t]; [done|]. simpl. intros Hp. exists c, t. split; [done|].
  destruct (N.eqb_spec c 45) as [->|Hne]; [by left|]. right.
  unfold parse_unsigned in Hp. simpl in Hp.
  destruct (is_digit c); [done|]. done.
Qed.

(** ** Rounding to binary64 *)

Section RoundingProperties.
Local Open Scope Z_scope.


Lemma scale_pos p q c : 0 < p -> 0 < q -> 0 < (scale p q c).1 /\ 0 < (scale p q c).2.
Proof.
  intros Hp Hq. unfold scale. destruct (Z.leb_spec 0 c); simpl.
  - split; [done|]. apply Z.mul_pos_pos; [done|]. by apply Z.pow_pos_nonneg.
  - split; [|done]. apply Z.mul_pos_pos; [done|]. apply Z.pow_pos_nonneg; lia.
Qed.

Lemma scale_ratio p q c K :
  0 <= K -> 0 <= c + K ->
  (scale p q c).1 * (q * 2 ^ (c + K)) = (scale p q c).2 * (p * 2 ^ K).
Proof.
  intros HK HcK. unfold scale. destruct (Z.leb_spec 0 c); simpl.
  - rewrite Z.pow_add_r by lia. ring.
  - assert (2 ^ K = 2 ^ (- c) * 2 ^ (c + K)) as ->
      by (rewrite <- Z.pow_add_r by lia; f_equal; lia).
    ring.
Qed.

Lemma scale_at_least a p q c K :
  0 < p -> 0 < q -> 0 <= K -> 0 <= c + K ->
  a * (scale p q c).2 <= (scale p q c).1 <-> at_least a K p q c.
Proof.
  intros Hp Hq HK HcK. unfold at_least.
  pose proof (scale_ratio p q c K HK HcK) as Hr.
  destruct (scale_pos p q c Hp Hq) as [Hn Hd].
  assert (0 < q * 2 ^ (c + K)) by (apply Z.mul_pos_pos; [done|by apply Z.pow_pos_nonneg]).
  destruct (scale p q c) as [n d]. simpl in *. split; intros Hle.
  - apply (Z.mul_le_mono_pos_l _ _ d); [done|]. rewrite <- Hr. nia.
  - apply (Z.mul_le_mono_pos_r _ _ (q * 2 ^ (c + K))); [done|]. rewrite Hr. nia.
Qed.

Lemma scale_less_than a p q c K :
  0 < p -> 0 < q -> 0 <= K -> 0 <= c + K ->
  (scale p q c).1 < a * (scale p q c).2 <-> less_than a K p q c.
Proof.
  intros Hp Hq HK HcK. unfold less_than.
  pose proof (scale_ratio p q c K HK HcK) as Hr.
  destruct (scale_pos p q c Hp Hq) as [Hn Hd].
  assert (0 < q * 2 ^ (c + K)) by (apply Z.mul_pos_pos; [done|by apply Z.pow_pos_nonneg]).
  destruct (scale p q c) as [n d]. simpl in *. split; intros Hlt.
  - apply (Z.mul_lt_mono_pos_l d); [done|]. rewrite <- Hr. nia.
  - apply (Z.mul_lt_mono_pos_r (q * 2 ^ (c + K))); [done|]. rewrite Hr. nia.
Qed.

(** If [p / q / 2^c1 >= a] and [p / q / 2^c2 < b] with [b <= 2^j * a], then
    [c1 < c2 + j]. *)
Lemma exponents_ordered a b j K p q c1 c2 :
  0 < a -> 0 < p -> 0 < q -> 0 <= j -> 0 <= K -> 0 <= c1 + K -> 0 <= c2 + K ->
  b <= 2 ^ j * a ->
  at_least a K p q c1 -> less_than b K p q c2 -> c1 < c2 + j.
Proof.
  unfold at_least, less_than. intros Ha Hp Hq Hj HK H1 H2 Hb Hlo Hhi.
  assert (H2j : 0 < 2 ^ j) by (by apply Z.pow_pos_nonneg).
  assert (Hc2 : 0 < 2 ^ (c2 + K)) by (by apply Z.pow_pos_nonneg).
  assert (Hpow : 2 ^ (c1 + K) < 2 ^ (c2 + K + j)).
  { rewrite (Z.pow_add_r 2 (c2 + K) j) by lia.
    assert (a * (q * 2 ^ (c1 + K)) < (2 ^ j * a) * (q * 2 ^ (c2 + K))).
    { eapply Z.le_lt_trans; [exact Hlo|]. eapply Z.lt_le_trans; [exact Hhi|].
      apply Z.mul_le_mono_nonneg_r; [|done]. nia. }
    assert (0 < a * q) by nia. nia. }
  apply Z.pow_lt_mono_r_iff in Hpow; lia.
Qed.

(** The exponent that [binary_exponent] returns brackets the mantissa
    between [2^52] and [2^53]. *)
Lemma binary_exponent_bracket p q :
  0 < p -> 0 < q ->
  let '(n, d) := scale p q (binary_exponent p q) in 2 ^ 52 * d <= n < 2 ^ 53 * d.
Proof.
  intros Hp Hq.
  pose proof (Z.log2_spec p Hp) as [HP1 HP2].
  pose proof (Z.log2_spec q Hq) as [HQ1 HQ2].
  pose proof (Z.log2_nonneg p) as Hlp. pose proof (Z.log2_nonneg q) as Hlq.
  set (lp := Z.log2 p) in *. set (lq := Z.log2 q) in *.
  unfold binary_exponent. fold lp lq. set (g := lp - lq - 53).
  set (K := Z.max 0 (- g)).
  assert (HK : 0 <= K) by lia. assert (HgK : 0 <= g + K) by lia.
  assert (Hg1K : 0 <= g + 1 + K) by lia.
  rewrite Z.pow_succ_r in HP2, HQ2 by lia.
  assert (Hid : 2 ^ lp * 2 ^ K = 2 ^ 53 * (2 ^ lq * 2 ^ (g + K))).
  { rewrite <- !Z.pow_add_r by lia. f_equal. lia. }
  assert (Hstep : 2 ^ (g + 1 + K) = 2 * 2 ^ (g + K)).
  { replace (g + 1 + K) with (Z.succ (g + K)) by lia. by rewrite Z.pow_succ_r. }
  assert (HA : 0 < 2 ^ K) by (by apply Z.pow_pos_nonneg).
  assert (HB : 0 < 2 ^ (g + K)) by (by apply Z.pow_pos_nonneg).
  assert (HPp : 0 < 2 ^ lp) by (by apply Z.pow_pos_nonneg).
  assert (HQp : 0 < 2 ^ lq) by (by apply Z.pow_pos_nonneg).
  (* p / q / 2^g >= 2^52 and p / q / 2^(g+1) < 2^53 *)
  assert (Hlow : at_least (2 ^ 52) K p q g).
  { unfold at_least. change (2 ^ 53) with (2 * 2 ^ 52) in Hid. nia. }
  assert (Hup : less_than (2 ^ 53) K p q (g + 1)).
  { unfold less_than. rewrite Hstep. nia. }
  destruct (scale p q (g + 1)) as [n1 d1] eqn:E1.
  destruct (scale_pos p q (g + 1) Hp Hq) as [Hn1 Hd1]. rewrite E1 in Hn1, Hd1. simpl in *.
  destruct (Z.leb_spec (2 ^ 52) (n1 / d1)) as [Hge|Hlt].
  - rewrite E1. split.
    + pose proof (Z.mul_div_le n1 d1 Hd1). nia.
    + apply (scale_less_than (2 ^ 53) p q (g + 1) K) in Hup; try done.
      by rewrite E1 in Hup.
  - assert (Hlt1 : n1 < 2 ^ 52 * d1).
    { pose proof (Z.div_mod n1 d1). pose proof (Z.mod_pos_bound n1 d1 Hd1). nia. }
    assert (Hup0 : less_than (2 ^ 53) K p q g).
    { pose proof (proj1 (scale_less_than (2 ^ 52) p q (g + 1) K Hp Hq HK Hg1K)) as Hs.
      rewrite E1 in Hs. specialize (Hs Hlt1). unfold less_than in *.
      rewrite Hstep in Hs. change (2 ^ 53) with (2 * 2 ^ 52). nia. }
    destruct (scale p q g) as [n0 d0] eqn:E0. split.
    + apply (scale_at_least (2 ^ 52) p q g K) in Hlow; try done. by rewrite E0 in Hlow.
    + apply (scale_less_than (2 ^ 53) p q g K) in Hup0; try done. by rewrite E0 in Hup0.
Qed.
(** A value [m0 * 2^e0] of binary64, however it is written as a fraction,
    is rounded to itself. *)
Lemma round_ratio_exact neg m0 e0 p q :
  canonical_mantissa m0 e0 -> 0 < p -> 0 < q ->
  (scale p q e0).1 = Z.pos m0 * (scale p q e0).2 ->
  round_ratio neg p q = NFinite neg m0 e0.
Proof.
  intros Hcan Hp Hq Hrep.
  pose proof (binary_exponent_bracket p q Hp Hq) as Hbr.
  set (c := binary_exponent p q) in *.
  set (K := Z.max 0 (Z.max (- c) (- e0))).
  assert (HK : 0 <= K) by lia. assert (HcK : 0 <= c + K) by lia.
  assert (HeK : 0 <= e0 + K) by lia.
  destruct (scale_pos p q e0 Hp Hq) as [Hn0 Hd0].
  assert (Hlo : at_least (2 ^ 52) K p q c).
  { apply scale_at_least; try done. destruct (scale p q c). simpl. lia. }
  assert (Hhi : less_than (2 ^ 53) K p q c).
  { apply scale_less_than; try done. destruct (scale p q c). simpl. lia. }
  assert (Hmax : Z.max c (-1074) = e0).
  { destruct Hcan as [[Hm He]|[Hm ->]].
    - assert (at_least (2 ^ 52) K p q e0) by (apply scale_at_least; try done; nia).
      assert (less_than (2 ^ 53) K p q e0) by (apply scale_less_than; try done; nia).
      assert (c < e0 + 1)
        by (apply (exponents_ordered (2 ^ 52) (2 ^ 53) 1 K p q c e0); try done; lia).
      assert (e0 < c + 1)
        by (apply (exponents_ordered (2 ^ 52) (2 ^ 53) 1 K p q e0 c); try done; lia).
      lia.
    - assert (less_than (2 ^ 52) K p q (-1074)) by (apply scale_less_than; try done; nia).
      assert (c < -1074 + 0)
        by (apply (exponents_ordered (2 ^ 52) (2 ^ 52) 0 K p q c (-1074)); try done; lia).
      lia. }
  unfold round_ratio. fold c. rewrite Hmax.
  destruct (scale p q e0) as [n d]. cbn [fst snd] in *. subst n.
  rewrite Z.div_mul, Z.mod_mul by lia.
  destruct (Z.ltb_spec d (2 * 0)); [lia|].
  destruct (Z.eqb_spec d (2 * 0)); [lia|]. cbn [orb andb].
  assert (Z.pos m0 < 2 ^ 53 /\ e0 <= 971) as [Hm He] by (destruct Hcan; lia).
  destruct (Z.eqb_spec (Z.pos m0) (2 ^ 53)); [lia|].
  by destruct (Z.ltb_spec 971 e0); [lia|].
Qed.

(** Whatever is rounded, the result is a binary64 value. *)
Lemma round_ratio_wf neg p q : 0 < p -> 0 < q -> number_wf (round_ratio neg p q).
Proof.
  intros Hp Hq.
  pose proof (binary_exponent_bracket p q Hp Hq) as Hbr.
  unfold round_ratio. set (c0 := binary_exponent p q) in *.
  set (c := Z.max c0 (-1074)).
  destruct (scale_pos p q c Hp Hq) as [Hn Hd].
  assert (Hm : (2 ^ 52 * (scale p q c).2 <= (scale p q c).1 < 2 ^ 53 * (scale p q c).2)
               \/ ((scale p q c).1 < 2 ^ 52 * (scale p q c).2 /\ c = -1074)).
  { destruct (Z.le_gt_cases (-1074) c0) as [Hle|Hgt].
    - left. replace c with c0 by lia. by destruct (scale p q c0).
    - right. split; [|lia]. replace c with (-1074) by lia.
      set (K := - c0). assert (0 <= K) by lia.
      apply (scale_less_than (2 ^ 52) p q (-1074) K); try done; [lia|].
      assert (Hhi : less_than (2 ^ 53) K p q c0).
      { apply scale_less_than; try done; [lia|]. destruct (scale p q c0). simpl. lia. }
      unfold less_than in *.
      assert (2 * 2 ^ (c0 + K) <= 2 ^ (-1074 + K)).
      { rewrite <- Z.pow_succ_r by lia. apply Z.pow_le_mono_r; lia. }
      change (2 ^ 53) with (2 * 2 ^ 52) in Hhi. nia. }
  destruct (scale p q c) as [n d]. simpl in *.
  pose proof (Z.div_mod n d) as Hdm. pose proof (Z.mod_pos_bound n d Hd) as Hr.
  assert (Hmb : (2 ^ 52 <= n / d < 2 ^ 53) \/ (0 <= n / d < 2 ^ 52 /\ c = -1074)).
  { destruct Hm as [Hm|[Hm ->]]; [left|right; split; [|done]]; nia. }
  assert (Hc : -1074 <= c) by lia. clearbody c. clear Hbr Hm.
  set (m := n / d) in *.
  destruct ((d <? 2 * (n mod d)) || ((d =? 2 * (n mod d)) && Z.odd m)).
  - destruct (Z.eqb_spec (m + 1) (2 ^ 53)) as [He|Hne].
    + change (2 ^ 52) with 4503599627370496. 
      destruct (Z.ltb_spec 971 (c + 1)); [done|]. simpl. left. lia.
    + destruct (m + 1) as [|mp|mp] eqn:Em; [done| |done].
      destruct (Z.ltb_spec 971 c); [done|]. simpl.
      destruct Hmb as [Hmb|[Hmb ->]]; [left; lia|].
      destruct (decide (Z.pos mp = 2 ^ 52)); [left|right]; lia.
  - destruct (Z.eqb_spec m (2 ^ 53)) as [He|Hne]; [lia|].
    destruct m as [|mp|mp] eqn:Em; [done| |done].
    destruct (Z.ltb_spec 971 c); [done|]. simpl.
    destruct Hmb as [Hmb|[Hmb ->]]; [left; lia|right; lia].
Qed.

Lemma decimal_to_number_wf neg s e10 : 0 <= s -> number_wf (decimal_to_number neg s e10).
Proof.
  intros Hs. unfold decimal_to_number.
  destruct (Z.eqb_spec s 0); [done|].
  destruct (Z.leb_spec 0 e10).
  - apply round_ratio_wf; [|done]. apply Z.mul_pos_pos; [lia|]. by apply Z.pow_pos_nonneg.
  - apply round_ratio_wf; [lia|]. apply Z.pow_pos_nonneg; lia.
Qed.
End RoundingProperties.

(** ** Number::toString reads back *)

Lemma digit_chars_app ds1 ds2 : digit_chars (ds1 ++ ds2) = digit_chars ds1 ++ digit_chars ds2.
Proof. apply map_app. Qed.

Lemma parse_fraction_none rest : number_end rest -> parse_fraction rest = Some ([], rest).
Proof.
  destruct rest as [|c rest]; simpl; [done|].
  intros (_ & H46 & _). by apply N.eqb_neq in H46 as ->.
Qed.

Lemma parse_exponent_none rest : number_end rest -> parse_exponent rest = Some (0%Z, rest).
Proof.
  destruct rest as [|c rest]; simpl; [done|].
  intros (_ & _ & H101 & H69).
  apply N.eqb_neq in H101 as ->. by apply N.eqb_neq in H69 as ->.
Qed.

Lemma valid_int_digits d ds : (1 <= d)%Z -> valid_int (d :: ds) = true.
Proof.
  intros Hd. destruct ds; simpl; [done|].
  by destruct (Z.eqb_spec d 0); [lia|].
Qed.

Lemma is_digits_zeros n : is_digits (replicate n 0%Z).
Proof. apply Forall_replicate. lia. Qed.

Lemma parse_number_digit c t :
  is_digit c = true -> parse_number (c :: t) = parse_unsigned false (c :: t).
Proof.
  intros Hc. simpl. destruct (N.eqb_spec c 45) as [->|]; [done|done].
Qed.

Lemma digit_chars_head d ds : (0 <= d <= 9)%Z ->
  exists c t, digit_chars (d :: ds) = c :: t /\ is_digit c = true.
Proof. intros Hd. eexists _, _. split; [done|]. by apply is_digit_char. Qed.

(** The exact expansion is a number token for the value it expands. *)
Lemma exact_decimal_parse neg m e rest :
  number_end rest ->
  (exists c t, exact_decimal m e = c :: t /\ is_digit c = true)
  /\ parse_unsigned neg (exact_decimal m e ++ rest)
     = Some (if (0 <=? e)%Z then decimal_to_number neg (Z.pos m * 2 ^ e) 0
             else decimal_to_number neg (Z.pos m * 5 ^ (- e)) e, rest).
Proof.
  intros Hrest. unfold exact_decimal. destruct (Z.leb_spec 0 e) as [He|He].
  - destruct (decimal_digits_spec (Z.pos m * 2 ^ e)) as (d & ds & -> & Hv & Hds & Hd).
    { apply Z.mul_nonneg_nonneg; [lia|]. by apply Z.pow_nonneg. }
    assert (Hd1 : (1 <= d)%Z).
    { apply Hd. assert (0 < 2 ^ e)%Z by (by apply Z.pow_pos_nonneg). nia. }
    split; [apply digit_chars_head; inversion Hds; subst; done|].
    unfold parse_unsigned.
    rewrite take_digits_chars by (done || by apply number_end_digit).
    rewrite valid_int_digits by done.
    rewrite parse_fraction_none by done. simpl.
    rewrite parse_exponent_none by done. simpl.
    rewrite app_nil_r, Hv. done.
  - set (k := Z.to_nat (- e)).
    destruct (decimal_digits_spec (Z.pos m * 5 ^ (- e))) as (d & ds & -> & Hv & Hds & Hd).
    { apply Z.mul_nonneg_nonneg; [lia|]. apply Z.pow_nonneg. lia. }
    assert (Hd1 : (1 <= d)%Z).
    { apply Hd. assert (0 < 5 ^ (- e))%Z by (apply Z.pow_pos_nonneg; lia). nia. }
    set (ds' := replicate (S k - length (d :: ds)) 0%Z ++ d :: ds).
    assert (Hds' : is_digits ds') by (apply Forall_app; split; [apply is_digits_zeros|done]).
    assert (Hv' : digits_value ds' = (Z.pos m * 5 ^ (- e))%Z)
      by (unfold ds'; by rewrite digits_value_zeros).
    assert (Hlen : k + 1 <= length ds').
    { unfold ds'. rewrite length_app, length_replicate. lia. }
    assert (Hk : 1 <= k) by lia.
    set (ip := take (length ds' - k) ds'). set (fp := drop (length ds' - k) ds').
    assert (Hsplit : ip ++ fp = ds') by apply take_drop.
    assert (Hfp : length fp = k) by (unfold fp; rewrite length_drop; lia).
    assert (Hip : is_digits ip /\ is_digits fp).
    { apply Forall_app. by rewrite Hsplit. }
    destruct Hip as [Hip Hfpd].
    assert (Hvalid : exists i ip', ip = i :: ip' /\ valid_int ip = true).
    { destruct (decide (length (d :: ds) <= k)) as [Hshort|Hlong].
      - assert (length ds' = S k).
        { unfold ds'. rewrite length_app, length_replicate. lia. }
        assert (length ip = 1) by (unfold ip; rewrite length_take; lia).
        destruct ip as [|i [|? ?]]; simpl in *; try lia. by exists i, [].
      - assert (ds' = d :: ds) as Heq.
        { unfold ds'. replace (S k - length (d :: ds)) with 0 by lia. done. }
        unfold ip. rewrite Heq.
        replace (length (d :: ds) - k) with (S (length ds - k)) by (simpl in *; lia).
        simpl. eexists _, _. split; [done|].
        by apply (valid_int_digits d (take (length ds - k) ds)). }
    destruct Hvalid as (i & ip' & Hipe & Hval).
    clearbody ip fp. split.
    { subst ip. inversion Hip as [|? ? Hi Hip'']; subst.
      eexists _, _. split; [reflexivity|]. by apply is_digit_char. }
    unfold parse_unsigned. rewrite <- !app_assoc.
    rewrite take_digits_chars by done.
    rewrite Hval. simpl.
    rewrite take_digits_chars by (done || by apply number_end_digit).
    destruct fp as [|f fp']; [simpl in Hfp; lia|]. simpl.
    rewrite parse_exponent_none by done. simpl.
    rewrite Hsplit, Hv'. do 3 f_equal. simpl in Hfp. unfold k in Hfp. lia.
Qed.

Section NumberRoundTrip.
Local Open Scope Z_scope.

Lemma decimal_exact neg m e :
  canonical_mantissa m e ->
  (if 0 <=? e then decimal_to_number neg (Z.pos m * 2 ^ e) 0
   else decimal_to_number neg (Z.pos m * 5 ^ (- e)) e)
  = NFinite neg m e.
Proof.
  intros Hcan. unfold decimal_to_number. destruct (Z.leb_spec 0 e) as [He|He].
  - assert (0 < 2 ^ e) by (by apply Z.pow_pos_nonneg).
    destruct (Z.eqb_spec (Z.pos m * 2 ^ e) 0); [nia|].
    change (0 <=? 0) with true. cbv iota. rewrite Z.pow_0_r, Z.mul_1_r.
    apply round_ratio_exact; [done|nia|lia|].
    unfold scale. destruct (Z.leb_spec 0 e); [|lia]. simpl. ring.
  - assert (0 < 5 ^ (- e)) by (apply Z.pow_pos_nonneg; lia).
    assert (0 < 10 ^ (- e)) by (apply Z.pow_pos_nonneg; lia).
    destruct (Z.eqb_spec (Z.pos m * 5 ^ (- e)) 0); [nia|].
    apply round_ratio_exact; [done|nia|lia|].
    unfold scale. destruct (Z.leb_spec 0 e); [lia|]. simpl.
    change 10 with (5 * 2). rewrite Z.pow_mul_l. ring.
Qed.

Lemma shortest_from_reads fuel x neg p q n : forall k text,
  shortest_from fuel x neg p q n k = Some text -> parse_number text = Some (x, []).
Proof.
  induction fuel as [|fuel IH]; intros k text; simpl; [done|].
  destruct (filter _ _) as [|t ts] eqn:Ef.
  - apply IH.
  - intros [= <-].
    assert (Hin : t ∈ filter (fun text => reads_back x text)
                    (map (fun c => candidate_text neg c.1 c.2) (candidates p q n k)))
      by (rewrite Ef; left).
    apply list_elem_of_filter in Hin as [Hr _].
    unfold reads_back in Hr. by apply bool_decide_unpack in Hr.
Qed.

Lemma parse_number_minus t : parse_number (45%N :: t) = parse_unsigned true t.
Proof. reflexivity. Qed.

(** The text of a finite number, followed by something that does not
    continue a number, reads back; as the number itself when that is a
    binary64 value other than -0. *)
Lemma Number_toString_reads_any x :
  is_finite x = true ->
  exists y,
    (forall rest, number_end rest ->
       parse_number (Number_toString x ++ rest) = Some (y, rest))
    /\ (number_wf x -> x <> NZero true -> y = x).
Proof.
  intros Hfin. destruct x as [neg|neg m e|neg]; [| |done].
  - exists (NZero false). split.
    + intros rest Hrest.
      change (Number_toString (NZero neg) ++ rest) with (48%N :: rest).
      rewrite parse_number_digit by done.
      change (48%N :: rest) with (digit_chars [0] ++ rest).
      unfold parse_unsigned.
      rewrite take_digits_chars; [|repeat constructor; lia|by apply number_end_digit].
      cbn [valid_int]. rewrite parse_fraction_none by done. cbn [mbind option_bind].
      by rewrite parse_exponent_none by done.
    + intros _ Hne. by destruct neg.
  - unfold Number_toString.
    destruct (if 0 <=? e then (Z.pos m * 2 ^ e, 1) else (Z.pos m, 2 ^ (- e))) as [p q].
    destruct (shortest_from 17 (NFinite neg m e) neg p q (decimal_position p q) 1)
      as [text|] eqn:Es.
    + exists (NFinite neg m e). split; [|done]. intros rest Hrest.
      apply shortest_from_reads in Es. by apply (parse_number_app _ rest) in Es.
    + clear Es. eexists. split.
      * intros rest Hrest.
        destruct (exact_decimal_parse neg m e rest Hrest) as [(c & t & Hc & Hd) Hp].
        destruct neg; cbn [sign_chars].
        -- rewrite <- app_assoc. cbn [app]. rewrite parse_number_minus. exact Hp.
        -- cbn [app]. rewrite Hc in Hp |- *. rewrite <- app_comm_cons.
           rewrite parse_number_digit by done. exact Hp.
      * intros Hwf _. cbn [number_wf] in Hwf. apply (decimal_exact neg m e Hwf).
Qed.

Lemma Number_toString_reads x rest :
  number_end rest -> is_finite x = true ->
  parse_number (Number_toString x ++ rest) = Some (number_normal x, rest).
Proof.
  intros Hrest Hfin. destruct (Number_toString_reads_any x Hfin) as (y & Hy & _).
  rewrite (Hy rest Hrest). unfold number_normal.
  specialize (Hy [] I). rewrite app_nil_r in Hy. by rewrite Hy.
Qed.

Lemma number_normal_exact x :
  is_finite x = true -> number_wf x -> x <> NZero true -> number_normal x = x.
Proof.
  intros Hfin Hwf Hne. destruct (Number_toString_reads_any x Hfin) as (y & Hy & Hx).
  unfold number_normal. specialize (Hy [] I). rewrite app_nil_r in Hy.
  rewrite Hy. by apply Hx.
Qed.
End NumberRoundTrip.

(** ** QuoteJSONString reads back *)

Lemma hex_value_digit n : (n < 16)%N -> hex_value (hex_digit n) = Some n.
Proof.
  intros Hn. unfold hex_value, hex_digit. destruct (N.ltb_spec n 10).
  - destruct (N.leb_spec 48 (48 + n)); [|lia].
    destruct (N.leb_spec (48 + n) 57); [|lia]. simpl. f_equal. lia.
  - destruct (N.leb_spec 48 (87 + n)); [|lia].
    destruct (N.leb_spec (87 + n) 57); [lia|]. simpl.
    destruct (N.leb_spec 97 (87 + n)); [|lia].
    destruct (N.leb_spec (87 + n) 102); [|lia]. simpl. f_equal. lia.
Qed.

Lemma parse_string_raw c r :
  c <> 34%N -> c <> 92%N -> (32 <= c)%N ->
  parse_string (c :: r) = '(t, rest) ← parse_string r; Some (c :: t, rest).
Proof.
  intros H34 H92 H32. cbn [parse_string].
  apply N.eqb_neq in H34 as ->. apply N.eqb_neq in H92 as ->.
  by destruct (N.ltb_spec c 32); [lia|].
Qed.

Lemma parse_string_escape e u r :
  e <> 117%N -> unescape e = Some u ->
  parse_string (92%N :: e :: r) = '(t, rest) ← parse_string r; Some (u :: t, rest).
Proof.
  intros H117 Hu. cbn [parse_string].
  change (92 =? 34)%N with false. change (92 =? 92)%N with true. cbv iota.
  apply N.eqb_neq in H117 as ->. by rewrite Hu.
Qed.

Lemma parse_string_unicode c r :
  (c < 65536)%N ->
  parse_string (unicode_escape c ++ r) = '(t, rest) ← parse_string r; Some (c :: t, rest).
Proof.
  intros Hc. unfold unicode_escape. cbn [app parse_string].
  change (92 =? 34)%N with false. change (92 =? 92)%N with true.
  change (117 =? 117)%N with true. cbv iota.
  rewrite !hex_value_digit by (apply N.mod_upper_bound; lia). cbn [mbind option_bind].
  replace ((((c / 4096) mod 16 * 16 + (c / 256) mod 16) * 16 + (c / 16) mod 16) * 16
           + c mod 16)%N with c; [done|].
  pose proof (N.div_mod' c 16). pose proof (N.div_mod' (c / 16) 16).
  pose proof (N.div_mod' (c / 256) 16).
  assert (c / 256 = c / 16 / 16)%N as E1 by (by rewrite N.Div0.div_div).
  assert (c / 4096 = c / 256 / 16)%N as E2 by (by rewrite N.Div0.div_div).
  assert (c / 4096 < 16)%N by (apply N.Div0.div_lt_upper_bound; lia).
  rewrite (N.mod_small (c / 4096) 16) by done. lia.
Qed.

Lemma parse_string_quote_body : forall n s rest,
  length s <= n -> parse_string (quote_body s ++ 34%N :: rest) = Some (s, rest).
Proof.
  induction n as [|n IH]; intros s rest Hlen.
  - destruct s; [|simpl in Hlen; lia]. simpl. reflexivity.
  - destruct s as [|c s]; [reflexivity|]. simpl in Hlen.
    assert (IHs : parse_string (quote_body s ++ 34%N :: rest) = Some (s, rest))
      by (apply IH; lia).
    cbn [quote_body].
    assert (Hesc : forall e, e <> 117%N -> unescape e = Some c ->
              parse_string (([92; e]%N ++ quote_body s) ++ 34%N :: rest)
              = Some (c :: s, rest)).
    { intros e He Hu. cbn [app]. rewrite (parse_string_escape e c) by done.
      by rewrite IHs. }
    assert (Huni : (c < 65536)%N ->
              parse_string ((unicode_escape c ++ quote_body s) ++ 34%N :: rest)
              = Some (c :: s, rest)).
    { intros Hc. rewrite <- app_assoc, parse_string_unicode by done. by rewrite IHs. }
    destruct (N.eqb_spec c 8) as [->|H8]; [by apply Hesc|].
    destruct (N.eqb_spec c 9) as [->|H9]; [by apply Hesc|].
    destruct (N.eqb_spec c 10) as [->|H10]; [by apply Hesc|].
    destruct (N.eqb_spec c 12) as [->|H12]; [by apply Hesc|].
    destruct (N.eqb_spec c 13) as [->|H13]; [by apply Hesc|].
    destruct (N.eqb_spec c 34) as [->|H34]; [by apply Hesc|].
    destruct (N.eqb_spec c 92) as [->|H92]; [by apply Hesc|].
    destruct (N.ltb_spec c 32) as [Hlt|Hge]; [apply Huni; lia|].
    destruct (is_high_surrogate c) eqn:Hhi.
    + unfold is_high_surrogate in Hhi. apply andb_true_iff in Hhi as [Hh1%N.leb_le Hh2%N.leb_le].
      destruct s as [|d s'].
      * cbn [app]. rewrite <- (app_nil_r (unicode_escape c)), <- app_assoc.
        rewrite parse_string_unicode by lia. reflexivity.
      * destruct (is_low_surrogate d) eqn:Hlo.
        -- unfold is_low_surrogate in Hlo.
           apply andb_true_iff in Hlo as [Hl1%N.leb_le Hl2%N.leb_le].
           rewrite <- !app_comm_cons.
           rewrite parse_string_raw by lia. rewrite parse_string_raw by lia.
           rewrite IH by (simpl in Hlen; lia). reflexivity.
        -- apply Huni. lia.
    + destruct (is_low_surrogate c) eqn:Hlo.
      * unfold is_low_surrogate in Hlo.
        apply andb_true_iff in Hlo as [Hl1%N.leb_le Hl2%N.leb_le]. apply Huni. lia.
      * rewrite <- app_comm_cons, parse_string_raw by done. by rewrite IHs.
Qed.

Lemma parse_string_quote s rest :
  parse_string (quote_body s ++ 34%N :: rest) = Some (s, rest).
Proof. by apply (parse_string_quote_body (length s)). Qed.

(** ** JSON.stringify reads back *)

Lemma value_ind' (P : value -> Prop) :
  (forall p, P (VPrim p)) ->
  (forall l, Forall P l -> P (VArray l)) ->
  (forall o, Forall (fun kv => P kv.2) o -> P (VObject o)) ->
  forall v, P v.
Proof.
  intros Hp Ha Ho. fix IH 1. intros [p|l|o].
  - apply Hp.
  - apply Ha. induction l as [|x l IHl]; constructor; [apply IH|exact IHl].
  - apply Ho. induction o as [|[k x] o IHo]; constructor; [apply IH|exact IHo].
Qed.

Lemma serialize_array l :
  serialize (VArray l) = [91%N] ++ join [44%N] (map serialize l) ++ [93%N].
Proof. reflexivity. Qed.

Lemma serialize_object o :
  serialize (VObject o) = [123%N] ++ join [44%N] (serialize_members o) ++ [125%N].
Proof. reflexivity. Qed.

Lemma JSON_normal_object o : JSON_normal (VObject o) = VObject (normal_members o []).
Proof. reflexivity. Qed.

Lemma parse_fuel_array l : parse_fuel (VArray l) = S (elements_fuel l).
Proof.
  change (parse_fuel (VArray l)) with (S (list_sum (map (fun x => S (parse_fuel x)) l))).
  f_equal. induction l as [|x l IH]; [done|]. simpl. by rewrite IH.
Qed.

Lemma parse_fuel_object o : parse_fuel (VObject o) = S (members_fuel o).
Proof. reflexivity. Qed.

Lemma join_cons2 sep x y l : join sep (x :: y :: l) = x ++ sep ++ join sep (y :: l).
Proof. reflexivity. Qed.

Lemma value_start_facts c :
  value_start c ->
  is_json_ws c = false /\ is_WhiteSpace c = false
  /\ c <> 93%N /\ c <> 125%N /\ c <> 44%N /\ c <> 58%N.
Proof.
  unfold value_start, is_digit.
  intros [->|[->|[->|[->|[->|[->|[->|Hd]]]]]]]; try by repeat split.
  apply andb_true_iff in Hd as [H1%N.leb_le H2%N.leb_le].
  unfold is_json_ws, is_WhiteSpace.
  repeat split; try lia;
    repeat (match goal with
            | |- context [(c =? ?n)%N] => destruct (N.eqb_spec c n); [lia|]
            | |- context [(?n <=? c)%N] => destruct (N.leb_spec n c); [|lia]
            | |- context [(c <=? ?n)%N] => destruct (N.leb_spec c n); [lia|]
            end; cbn [orb andb]); done.
Qed.

Lemma skip_ws_start c t : value_start c -> skip_ws (c :: t) = c :: t.
Proof. intros (Hc & _)%value_start_facts. simpl. by rewrite Hc. Qed.

Lemma Number_toString_head x :
  is_finite x = true -> exists c t, Number_toString x = c :: t /\ value_start c.
Proof.
  intros Hfin. pose proof (Number_toString_reads x [] I Hfin) as Hp.
  rewrite app_nil_r in Hp. apply parse_number_head in Hp as (c & t & -> & Hc).
  exists c, t. split; [done|]. unfold value_start. destruct Hc; tauto.
Qed.

Lemma serialize_head v : exists c t, serialize v = c :: t /\ value_start c.
Proof.
  destruct v as [[| |[|]|x|s]|l|o]; unfold value_start;
    try (eexists _, _; split; [reflexivity|tauto]).
  simpl. destruct (is_finite x) eqn:Hfin.
  - by apply Number_toString_head.
  - eexists _, _; split; [reflexivity|tauto].
Qed.

Lemma parse_value_S fuel s :
  parse_value (S fuel) s
  = match skip_ws s with
    | [] => None
    | c :: r =>
        if (c =? 34)%N then '(t, r') ← parse_string r; Some (VString t, r')
        else if (c =? 91)%N then
          match skip_ws r with
          | [] => None
          | d :: r' =>
              if (d =? 93)%N then Some (VArray [], r') else parse_elements fuel r []
          end
        else if (c =? 123)%N then
          match skip_ws r with
          | [] => None
          | d :: r' =>
              if (d =? 125)%N then Some (VObject [], r') else parse_members fuel r []
          end
        else parse_literal (c :: r)
    end.
Proof. reflexivity. Qed.

Lemma parse_elements_S fuel s acc :
  parse_elements (S fuel) s acc
  = '(v, r) ← parse_value fuel s;
    match skip_ws r with
    | [] => None
    | c :: r' =>
        if (c =? 44)%N then parse_elements fuel r' (acc ++ [v])
        else if (c =? 93)%N then Some (VArray (acc ++ [v]), r')
        else None
    end.
Proof. reflexivity. Qed.

Lemma parse_members_S fuel s acc :
  parse_members (S fuel) s acc
  = match skip_ws s with
    | [] => None
    | c :: r =>
        if (c =? 34)%N then
          '(k, r1) ← parse_string r;
          match skip_ws r1 with
          | [] => None
          | d :: r2 =>
              if (d =? 58)%N then
                '(v, r3) ← parse_value fuel r2;
                match skip_ws r3 with
                | [] => None
                | e :: r4 =>
                    if (e =? 44)%N then parse_members fuel r4 (set_property k v acc)
                    else if (e =? 125)%N then Some (VObject (set_property k v acc), r4)
                    else None
                end
              else None
          end
        else None
    end.
Proof. reflexivity. Qed.

(** The text of a primitive value reads back. *)
Lemma parse_value_prim fuel p rest :
  number_end rest ->
  parse_value (S fuel) (serialize_prim p ++ rest) = Some (VPrim (prim_normal p), rest).
Proof.
  intros Hrest.
  assert (Hnull : parse_value (S fuel) (kw_null ++ rest) = Some (VNull, rest)).
  { rewrite parse_value_S. by vm_compute. }
  destruct p as [| |[|]|x|s].
  - exact Hnull.
  - exact Hnull.
  - rewrite parse_value_S. by vm_compute.
  - rewrite parse_value_S. by vm_compute.
  - cbn [serialize_prim prim_normal]. destruct (is_finite x) eqn:Hfin; [|exact Hnull].
    pose proof (Number_toString_reads x rest Hrest Hfin) as Hp.
    destruct (Number_toString_head x Hfin) as (c & t & Hc & Hs).
    pose proof (Number_toString_reads x [] I Hfin) as Hp0.
    rewrite app_nil_r in Hp0. apply parse_number_head in Hp0 as (c' & t' & Hc' & Hd).
    rewrite Hc in Hc'. injection Hc' as <- <-.
    rewrite Hc in Hp |- *. rewrite <- app_comm_cons in Hp |- *.
    rewrite parse_value_S, skip_ws_start by done.
    assert (Hne : (c =? 34)%N = false /\ (c =? 91)%N = false /\ (c =? 123)%N = false
                  /\ (c =? 116)%N = false /\ (c =? 102)%N = false
                  /\ (c =? 110)%N = false).
    { destruct Hd as [->|Hd]; [by repeat split|].
      unfold is_digit in Hd. apply andb_true_iff in Hd as [H1%N.leb_le H2%N.leb_le].
      repeat split; apply N.eqb_neq; lia. }
    destruct Hne as (-> & -> & -> & H116 & H102 & H110).
    unfold parse_literal, kw_true, kw_false, kw_null. cbn [startsWith].
    rewrite H116, H102, H110. cbn [andb]. rewrite Hp. reflexivity.
  - cbn [serialize_prim prim_normal]. unfold quote. rewrite <- !app_assoc. cbn [app].
    rewrite parse_value_S, skip_ws_start by (unfold value_start; tauto).
    change (34 =? 34)%N with true. cbv iota.
    by rewrite parse_string_quote.
Qed.

(** One step of each parser, once the pieces are known. *)
Lemma parse_elements_step fuel s acc v r c r' :
  parse_value fuel s = Some (v, r) -> skip_ws r = c :: r' ->
  parse_elements (S fuel) s acc
  = if (c =? 44)%N then parse_elements fuel r' (acc ++ [v])
    else if (c =? 93)%N then Some (VArray (acc ++ [v]), r')
    else None.
Proof. intros Hv Hs. rewrite parse_elements_S, Hv. simpl. by rewrite Hs. Qed.

Lemma parse_members_step fuel s acc r0 k r1 r2 v r3 e r4 :
  skip_ws s = 34%N :: r0 -> parse_string r0 = Some (k, r1) ->
  skip_ws r1 = 58%N :: r2 -> parse_value fuel r2 = Some (v, r3) ->
  skip_ws r3 = e :: r4 ->
  parse_members (S fuel) s acc
  = if (e =? 44)%N then parse_members fuel r4 (set_property k v acc)
    else if (e =? 125)%N then Some (VObject (set_property k v acc), r4)
    else None.
Proof.
  intros Hs Hk H58 Hv He. rewrite parse_members_S, Hs.
  change (34 =? 34)%N with true. cbv iota. rewrite Hk. simpl. rewrite H58.
  change (58 =? 58)%N with true. cbv iota. rewrite Hv. simpl. by rewrite He.
Qed.

Lemma parse_value_array_step fuel s r d r' :
  skip_ws s = 91%N :: r -> skip_ws r = d :: r' ->
  parse_value (S fuel) s
  = if (d =? 93)%N then Some (VArray [], r') else parse_elements fuel r [].
Proof. intros Hs Hr. rewrite parse_value_S, Hs. simpl. by rewrite Hr. Qed.

Lemma parse_value_object_step fuel s r d r' :
  skip_ws s = 123%N :: r -> skip_ws r = d :: r' ->
  parse_value (S fuel) s
  = if (d =? 125)%N then Some (VObject [], r') else parse_members fuel r [].
Proof. intros Hs Hr. rewrite parse_value_S, Hs. simpl. by rewrite Hr. Qed.

Lemma parse_elements_serialize l :
  Forall reads_back_as l -> l <> [] ->
  forall fuel acc rest,
    elements_fuel l <= fuel ->
    parse_elements fuel (join [44%N] (map serialize l) ++ 93%N :: rest) acc
    = Some (VArray (acc ++ map JSON_normal l), rest).
Proof.
  induction 1 as [|x l Hx Hl IH]; [done|]. intros _ fuel acc rest Hfuel.
  cbn [elements_fuel] in Hfuel. destruct fuel as [|fuel]; [lia|].
  destruct l as [|y l'].
  - cbn [map join].
    rewrite (parse_elements_step fuel _ acc (JSON_normal x) (93%N :: rest) 93 rest);
      [done| |done].
    apply Hx; [lia|by repeat split].
  - cbn [map]. rewrite join_cons2.
    change (serialize y :: map serialize l') with (map serialize (y :: l')).
    rewrite <- !app_assoc.
    rewrite (parse_elements_step fuel _ acc (JSON_normal x)
               ([44%N] ++ join [44%N] (map serialize (y :: l')) ++ 93%N :: rest) 44
               (join [44%N] (map serialize (y :: l')) ++ 93%N :: rest));
      [| apply Hx; [lia|by repeat split] | done].
    change (44 =? 44)%N with true. cbv iota.
    rewrite (IH ltac:(done) fuel (acc ++ [JSON_normal x]) rest) by lia.
    by rewrite <- app_assoc.
Qed.

Lemma normal_members_undefined o acc :
  serialize_members o = [] -> normal_members o acc = acc.
Proof.
  induction o as [|[k v] o IH]; [done|]. simpl.
  destruct (is_undefined v); [exact IH|done].
Qed.

Lemma parse_members_serialize o :
  Forall (fun kv => reads_back_as kv.2) o ->
  forall fuel acc rest,
    serialize_members o <> [] ->
    members_fuel o <= fuel ->
    parse_members fuel (join [44%N] (serialize_members o) ++ 125%N :: rest) acc
    = Some (VObject (normal_members o acc), rest).
Proof.
  induction 1 as [|[k v] o Hv Ho IH]; [done|]. intros fuel acc rest Hne Hfuel.
  cbn [serialize_members normal_members members_fuel snd] in *.
  destruct (is_undefined v); [by apply IH|].
  destruct fuel as [|fuel]; [lia|].
  assert (Hmember : forall tail e r4,
    number_end tail -> skip_ws tail = e :: r4 ->
    parse_members (S fuel) (quote k ++ [58%N] ++ serialize v ++ tail) acc
    = if (e =? 44)%N then parse_members fuel r4 (set_property k (JSON_normal v) acc)
      else if (e =? 125)%N then Some (VObject (set_property k (JSON_normal v) acc), r4)
      else None).
  { intros tail e r4 Htail He. unfold quote. rewrite <- !app_assoc.
    apply (parse_members_step fuel _ acc
             (quote_body k ++ [34%N] ++ [58%N] ++ serialize v ++ tail) k
             ([58%N] ++ serialize v ++ tail) (serialize v ++ tail)
             (JSON_normal v) tail e r4); [done| |done| |done].
    - apply parse_string_quote.
    - apply Hv; [lia|done]. }
  destruct (serialize_members o) as [|m ms] eqn:Ems.
  - cbn [join]. rewrite <- !app_assoc.
    rewrite (Hmember (125%N :: rest) 125%N rest); [|by repeat split|done].
    change (125 =? 44)%N with false. change (125 =? 125)%N with true. cbv iota.
    by rewrite normal_members_undefined.
  - rewrite join_cons2, <- !app_assoc.
    rewrite (Hmember ([44%N] ++ join [44%N] (m :: ms) ++ 125%N :: rest) 44%N
               (join [44%N] (m :: ms) ++ 125%N :: rest)); [|by repeat split|done].
    change (44 =? 44)%N with true. cbv iota.
    apply IH; [done|lia].
Qed.

(** [JSON.parse] reads the text of every value, as its normal form. *)
Lemma parse_value_serialize v : reads_back_as v.
Proof.
  induction v as [p|l IH|o IH] using value_ind'; intros fuel rest Hfuel Hrest.
  - destruct fuel as [|fuel]; [simpl in Hfuel; lia|]. by apply parse_value_prim.
  - rewrite parse_fuel_array in Hfuel. destruct fuel as [|fuel]; [lia|].
    rewrite serialize_array, <- !app_assoc.
    destruct l as [|x l'].
    + by rewrite (parse_value_array_step fuel _ ([93%N] ++ rest) 93 rest).
    + destruct (serialize_head x) as (c & t & Hc & Hs).
      assert (Hj : exists t', join [44%N] (map serialize (x :: l')) = c :: t').
      { destruct l'; cbn [map join]; rewrite Hc; by eexists. }
      destruct Hj as [t' Hj].
      pose proof (parse_elements_serialize (x :: l') IH ltac:(done) fuel [] rest
                    ltac:(lia)) as Hp.
      destruct (value_start_facts c Hs) as (_ & _ & H93 & _).
      rewrite (parse_value_array_step fuel _
                 (join [44%N] (map serialize (x :: l')) ++ [93%N] ++ rest) c
                 (t' ++ [93%N] ++ rest)); [|done|].
      * apply N.eqb_neq in H93 as ->. exact Hp.
      * rewrite Hj, <- app_comm_cons. by apply skip_ws_start.
  - rewrite parse_fuel_object in Hfuel. destruct fuel as [|fuel]; [lia|].
    rewrite serialize_object, JSON_normal_object, <- !app_assoc.
    destruct (serialize_members o) as [|m ms] eqn:Ems.
    + rewrite normal_members_undefined by done.
      by rewrite (parse_value_object_step fuel _ ([125%N] ++ rest) 125 rest).
    + assert (Hj : exists t', join [44%N] (m :: ms) = 34%N :: t').
      { assert (exists t, m = 34%N :: t) as [t ->].
        { clear -Ems. induction o as [|[k v] o IHo]; [done|]. simpl in Ems.
          destruct (is_undefined v); [auto|]. injection Ems as <- _.
          unfold quote. by eexists. }
        destruct ms; cbn [join]; by eexists. }
      destruct Hj as [t' Hj].
      pose proof (parse_members_serialize o IH fuel [] rest) as Hp.
      rewrite Ems in Hp. specialize (Hp ltac:(done) ltac:(lia)).
      rewrite (parse_value_object_step fuel _
                 (join [44%N] (m :: ms) ++ [125%N] ++ rest) 34
                 (t' ++ [125%N] ++ rest)); [|done|].
      * change (34 =? 125)%N with false. exact Hp.
      * rewrite Hj, <- app_comm_cons. by apply skip_ws_start; unfold value_start; tauto.
Qed.

(** The fuel of [JSON_parse] is enough for the text of a value. *)
Lemma length_join_cons2 sep x y l :
  length (join sep (x :: y :: l)) = length x + length sep + length (join sep (y :: l)).
Proof. rewrite join_cons2, !length_app. lia. Qed.

Lemma elements_fuel_bound l :
  Forall (fun v => parse_fuel v <= 2 * length (serialize v)) l ->
  elements_fuel l <= 2 * length (join [44%N] (map serialize l)) + 1.
Proof.
  induction 1 as [|x l Hx Hl IH]; [simpl; lia|].
  cbn [elements_fuel map]. destruct l as [|y l'].
  - cbn [join elements_fuel map]. lia.
  - cbn [map] in *. rewrite length_join_cons2. cbn [length]. lia.
Qed.

Lemma members_fuel_bound o :
  Forall (fun kv => parse_fuel kv.2 <= 2 * length (serialize kv.2)) o ->
  members_fuel o <= 2 * length (join [44%N] (serialize_members o)) + 1.
Proof.
  induction 1 as [|[k v] o Hv Ho IH]; [simpl; lia|].
  cbn [members_fuel serialize_members snd] in *.
  destruct (is_undefined v); [exact IH|].
  destruct (serialize_members o) as [|m ms].
  - cbn [join] in *. rewrite !length_app. cbn [length] in *. lia.
  - rewrite length_join_cons2, !length_app. cbn [length]. lia.
Qed.

Lemma parse_fuel_bound v : parse_fuel v <= 2 * length (serialize v).
Proof.
  induction v as [p|l IH|o IH] using value_ind'.
  - destruct (serialize_head (VPrim p)) as (c & t & -> & _). simpl. lia.
  - rewrite parse_fuel_array, serialize_array, !length_app.
    pose proof (elements_fuel_bound l IH). simpl. lia.
  - rewrite parse_fuel_object, serialize_object, !length_app.
    pose proof (members_fuel_bound o IH). simpl. lia.
Qed.

(** [JSON.parse(JSON.stringify(v))] returns, and returns the normal form
    of [v]. *)
Lemma JSON_parse_serialize v : JSON_parse (serialize v) = Some (JSON_normal v).
Proof.
  unfold JSON_parse.
  pose proof (parse_value_serialize v (2 * length (serialize v) + 2) []) as Hp.
  rewrite app_nil_r in Hp. rewrite Hp; [done| |done].
  pose proof (parse_fuel_bound v). lia.
Qed.

(** ** The text of a value has no line break *)


Lemma printable_app s t : printable s -> printable t -> printable (s ++ t).
Proof. intros. by apply Forall_app. Qed.

Lemma printable_digit_chars ds : printable (digit_chars ds).
Proof. apply Forall_forall. intros c (d & -> & _)%list_elem_of_fmap. lia. Qed.

Lemma printable_zeros n : printable (replicate n 48%N).
Proof. apply Forall_replicate. lia. Qed.

Lemma printable_sign neg : printable (sign_chars neg).
Proof. destruct neg; repeat constructor. lia. Qed.

Lemma printable_format_decimal ds n : printable (format_decimal ds n).
Proof.
  unfold format_decimal, format_exponent.
  repeat case_match; repeat apply printable_app;
    try apply printable_digit_chars; try apply printable_zeros;
    repeat constructor; try lia; by case_match.
Qed.

Lemma printable_exact_decimal m e : printable (exact_decimal m e).
Proof.
  unfold exact_decimal. case_match; repeat apply printable_app;
    try apply printable_digit_chars; repeat constructor; lia.
Qed.

Lemma shortest_from_candidate fuel x neg p q n : forall k text,
  shortest_from fuel x neg p q n k = Some text ->
  exists s t, text = candidate_text neg s t.
Proof.
  induction fuel as [|fuel IH]; intros k text; simpl; [done|].
  destruct (filter _ _) as [|t ts] eqn:Ef; [apply IH|].
  intros [= <-].
  assert (Hin : t ∈ filter (fun text => reads_back x text)
                  (map (fun c => candidate_text neg c.1 c.2) (candidates p q n k)))
    by (rewrite Ef; left).
  apply list_elem_of_filter in Hin as [_ Hin].
  apply list_elem_of_fmap in Hin as ([s e] & -> & _). by eexists _, _.
Qed.

Lemma printable_Number_toString x : printable (Number_toString x).
Proof.
  destruct x as [neg|neg m e|neg].
  - repeat constructor. lia.
  - unfold Number_toString.
    destruct (if (0 <=? e)%Z then _ else _) as [p q].
    destruct (shortest_from _ _ _ _ _ _ _) as [text|] eqn:Es.
    + apply shortest_from_candidate in Es as (s & t & ->).
      apply printable_app; [apply printable_sign|apply printable_format_decimal].
    + apply printable_app; [apply printable_sign|apply printable_exact_decimal].
  - apply printable_app; [apply printable_sign|]. by vm_compute; repeat constructor.
Qed.

Lemma printable_hex_digit n : (32 <= hex_digit n)%N.
Proof. unfold hex_digit. case_match; lia. Qed.

Lemma printable_quote_body : forall n s, length s <= n -> printable (quote_body s).
Proof.
  induction n as [|n IH]; intros s Hlen.
  - destruct s; [constructor|simpl in Hlen; lia].
  - destruct s as [|c s]; [constructor|]. simpl in Hlen.
    assert (IHs : printable (quote_body s)) by (apply IH; lia).
    assert (Huni : printable (unicode_escape c)).
    { unfold unicode_escape. repeat constructor; try lia; apply printable_hex_digit. }
    cbn [quote_body].
    repeat (case_match; [apply printable_app; [repeat constructor; lia|done]|]).
    destruct (N.ltb_spec c 32); [by apply printable_app|].
    destruct (is_high_surrogate c) eqn:Hhi.
    + unfold is_high_surrogate in Hhi. apply andb_true_iff in Hhi as [Hh1%N.leb_le _].
      destruct s as [|d s']; [done|].
      destruct (is_low_surrogate d) eqn:Hlo; [|by apply printable_app].
      unfold is_low_surrogate in Hlo. apply andb_true_iff in Hlo as [Hl1%N.leb_le _].
      constructor; [lia|]. constructor; [lia|]. apply IH. simpl in Hlen. lia.
    + destruct (is_low_surrogate c); [by apply printable_app|].
      constructor; [lia|done].
Qed.

Lemma printable_join sep pieces :
  printable sep -> Forall printable pieces -> printable (join sep pieces).
Proof.
  intros Hsep. induction 1 as [|x l Hx Hl IH]; [constructor|].
  destruct l as [|y l']; [done|]. rewrite join_cons2.
  by repeat apply printable_app.
Qed.

Lemma printable_serialize v : printable (serialize v).
Proof.
  induction v as [p|l IH|o IH] using value_ind'.
  - destruct p as [| |[|]|x|s]; simpl; try (repeat constructor; lia).
    + case_match; [apply printable_Number_toString|repeat constructor; lia].
    + unfold quote. repeat apply printable_app; try (repeat constructor; lia).
      by apply (printable_quote_body (length s)).
  - rewrite serialize_array. repeat apply printable_app; try (repeat constructor; lia).
    apply printable_join; [repeat constructor; lia|]. by apply Forall_fmap.
  - rewrite serialize_object. repeat apply printable_app; try (repeat constructor; lia).
    apply printable_join; [repeat constructor; lia|].
    induction IH as [|[k v] o Hv Ho IHo]; [constructor|]. cbn [serialize_members].
    destruct (is_undefined v); [done|]. constructor; [|done].
    unfold quote.
    apply printable_app;
      [ apply printable_app;
        [ repeat constructor; lia
        | apply printable_app;
          [ by apply (printable_quote_body (length k)) | repeat constructor; lia ] ]
      | apply printable_app; [repeat constructor; lia|done] ].
Qed.

(** ** Lines of an export *)

Lemma split_no_separator s : Forall (fun c => c <> 10%N) s -> split 10 s = [s].
Proof.
  induction 1 as [|c s Hc Hs IH]; [done|]. simpl.
  apply N.eqb_neq in Hc as ->. by rewrite IH.
Qed.

Lemma split_app_separator s t :
  Forall (fun c => c <> 10%N) s -> split 10 (s ++ 10%N :: t) = s :: split 10 t.
Proof.
  induction 1 as [|c s Hc Hs IH]; [done|]. simpl.
  apply N.eqb_neq in Hc as ->. by rewrite IH.
Qed.

Lemma split_join lines :
  lines <> [] -> Forall (Forall (fun c => c <> 10%N)) lines ->
  split 10 (join [10%N] lines) = lines.
Proof.
  intros Hne Hall. induction Hall as [|x l Hx Hl IH]; [done|].
  destruct l as [|y l'].
  - by apply split_no_separator.
  - rewrite join_cons2. cbn [app]. rewrite split_app_separator by done.
    f_equal. by apply IH.
Qed.

Lemma printable_no_newline s : printable s -> Forall (fun c => c <> 10%N) s.
Proof. intros Hs. eapply Forall_impl; [exact Hs|]. simpl. lia. Qed.

(** The line of a conversation is the text of its value. *)
Lemma export_lines_serialize h l :
  Forall is_object h ->
  Forall (fun r => ref_ok h r /\ r <> RPrim PUndefined) l ->
  export_lines h l = map serialize (omap (read h) l)
  /\ length (omap (read h) l) = length l.
Proof.
  intros Hh. induction 1 as [|r l [Hr Hu] Hl [IH1 IH2]]; [done|].
  destruct (conversation_text h r Hh Hr Hu) as (v & Hv & Hs).
  unfold export_lines in *. cbn [map omap list_omap]. rewrite Hv. cbn [mbind option_bind].
  rewrite Hs. cbn [default map length]. rewrite IH1. split; [done|]. by rewrite IH2.
Qed.

(** A line that is the text of a value is a valid line. *)
Lemma classify_serialize v : classify (serialize v) = Valid (JSON_normal v).
Proof.
  unfold classify. rewrite JSON_parse_serialize.
  destruct (serialize_head v) as (c & t & -> & Hc).
  destruct (value_start_facts c Hc) as (_ & Hws & _).
  rewrite decide_True; [done|]. by apply trim_cons_nonblank.
Qed.

Lemma parsed_values_serialize vs :
  parsed_values (map serialize vs) = map JSON_normal vs.
Proof.
  induction vs as [|v vs IH]; [done|].
  cbn [map]. by rewrite parsed_values_cons, classify_serialize, IH.
Qed.

Lemma failed_lines_serialize vs : forall index,
  failed_lines index (map serialize vs) = [].
Proof.
  induction vs as [|v vs IH]; intros index; [done|].
  cbn [map]. by rewrite failed_lines_cons, classify_serialize, IH.
Qed.

(** Importing the export of a collection: no error, and the normal forms
    of the conversations. *)
Lemma import_of_export st st0 :
  store_ok st ->
  let text := export_text (heap st) (conversations st) in
  errors (parseContent text st0) = []
  /\ collection (parseContent text st0) = map JSON_normal (collection st).
Proof.
  intros (Hh & Hl & _) text.
  destruct (parseContent_spec text st0) as (Hc & He & _).
  destruct (export_lines_serialize (heap st) (conversations st) Hh Hl) as [Hx Hlen].
  rewrite Hc, He. unfold text, export_text. rewrite Hx. fold (collection st).
  destruct (collection st) as [|v vs] eqn:Ecol.
  - done.
  - rewrite split_join; [|done|].
    + by rewrite failed_lines_serialize, parsed_values_serialize.
    + apply Forall_fmap. apply Forall_forall. intros w _. simpl.
      apply printable_no_newline, printable_serialize.
Qed.

(** ** Export, then import *)

(** C9. For a collection of a well-formed state (its references point to
    objects of the store and none of its conversations is [undefined]),
    every line of the export is the text of one conversation, has no line
    break, is not blank and is a JSON text; the lines of the exported text
    are these lines; and importing the exported text leaves the error list
    empty. *)
Theorem export_imports_cleanly (st st0 : Store) :
  store_ok st ->
  let lines := export_lines (heap st) (conversations st) in
  let text := export_text (heap st) (conversations st) in
  length lines = length (conversations st)
  /\ Forall (fun l => Forall (fun c => c <> 10%N) l /\ trim l <> []
                      /\ is_Some (JSON_parse l)) lines
  /\ (conversations st <> [] -> split 10 text = lines)
  /\ errors (parseContent text st0) = [].
Proof.
  intros Hok lines text. pose proof Hok as (Hh & Hl & _).
  destruct (export_lines_serialize (heap st) (conversations st) Hh Hl) as [Hx Hlen].
  assert (Hlines : Forall (fun l => Forall (fun c => c <> 10%N) l /\ trim l <> []
                                    /\ is_Some (JSON_parse l)) lines).
  { unfold lines. rewrite Hx. apply Forall_fmap, Forall_forall. intros v _. simpl.
    split; [apply printable_no_newline, printable_serialize|].
    pose proof (classify_serialize v) as Hc. pose proof (classify_cases (serialize v)) as Hk.
    rewrite Hc in Hk. destruct Hk as [Hn Hp]. split; [done|]. by rewrite Hp. }
  split; [unfold lines; by rewrite Hx, length_map|]. split; [done|]. split.
  - intros Hne. unfold text, export_text. apply split_join.
    + unfold lines. intros Hnil. apply (f_equal length) in Hnil.
      fold lines in Hnil. destruct (conversations st); [done|].
      unfold lines in Hnil. rewrite Hx, length_map, Hlen in Hnil. done.
    + eapply Forall_impl; [exact Hlines|]. by intros l [? _].
  - apply (import_of_export st st0 Hok).
Qed.

Lemma export_imports_cleanly_witness :
  store_ok example_store
  /\ errors (parseContent (export_text (heap example_store) (conversations example_store))
              initial) = [].
Proof.
  assert (Hok : store_ok example_store).
  { split; [|split; [|vm_compute; lia]];
      [ change (heap example_store) with (heap (parseContent example_text initial))
      | change (conversations example_store) with [RObj 0; RObj 1] ];
      repeat constructor; try done; vm_compute; lia. }
  split; [exact Hok|]. apply (export_imports_cleanly example_store initial Hok).
Defined.

(** ** Objects in canonical order *)

Lemma lookup_property_None k o : k ∉ map fst o -> lookup_property k o = None.
Proof.
  induction o as [|[k' v'] o IH]; [done|]. simpl. intros Hk.
  apply not_elem_of_cons in Hk as [Hne Hk].
  rewrite decide_False by done. auto.
Qed.

Lemma lookup_property_Some_in k o v : lookup_property k o = Some v -> k ∈ map fst o.
Proof.
  induction o as [|[k' v'] o IH]; [done|]. simpl.
  destruct (decide (k' = k)) as [->|Hne]; [left|right; auto].
Qed.

Lemma lookup_property_in k o : k ∈ map fst o -> is_Some (lookup_property k o).
Proof.
  induction o as [|[k' v'] o IH]; simpl; [by intros ?%elem_of_nil|].
  destruct (decide (k' = k)) as [->|Hne]; [by eexists|].
  intros [?|?]%elem_of_cons; [done|auto].
Qed.

Lemma replace_property_keys k v o : map fst (replace_property k v o) = map fst o.
Proof.
  induction o as [|[k' v'] o IH]; [done|]. simpl.
  destruct (decide (k' = k)) as [->|Hne]; simpl; [done|by rewrite IH].
Qed.

Lemma insert_index_elem i k v o x :
  x ∈ map fst (insert_index i k v o) <-> x = k \/ x ∈ map fst o.
Proof.
  induction o as [|[k' v'] o IH]; simpl.
  - rewrite list_elem_of_singleton. split; [by left|]. intros [?|?%elem_of_nil]; done.
  - destruct (array_index k') as [j|]; [destruct (i <? j)%Z|]; simpl;
      rewrite ?elem_of_cons, ?IH; simpl; tauto.
Qed.

Lemma insert_index_Forall (P : jsstring -> Prop) i k v o :
  P k -> Forall P (map fst o) -> Forall P (map fst (insert_index i k v o)).
Proof.
  intros Hk Ho. apply Forall_forall. intros x [->|Hx]%insert_index_elem; [done|].
  rewrite Forall_forall in Ho. auto.
Qed.

Lemma insert_index_NoDup i k v o :
  k ∉ map fst o -> NoDup (map fst o) -> NoDup (map fst (insert_index i k v o)).
Proof.
  induction o as [|[k' v'] o IH]; simpl; intros Hk Hnd.
  - apply NoDup_singleton.
  - apply not_elem_of_cons in Hk as [Hne Hk].
    apply NoDup_cons in Hnd as [Hk' Hnd].
    destruct (array_index k') as [j|]; [destruct (i <? j)%Z|]; simpl.
    + apply NoDup_cons. split; [|by apply NoDup_cons].
      apply not_elem_of_cons. done.
    + apply NoDup_cons. split; [|auto].
      rewrite insert_index_elem. intros [?|?]; done.
    + apply NoDup_cons. split; [|by apply NoDup_cons].
      apply not_elem_of_cons. done.
Qed.

Lemma insert_index_ordered i k v o :
  array_index k = Some i -> ordered_keys (map fst o) ->
  ordered_keys (map fst (insert_index i k v o)).
Proof.
  intros Hi. induction o as [|[k' v'] o IH]; simpl.
  - rewrite Hi. by repeat split.
  - intros [Hhead Hrest]. destruct (array_index k') as [j|] eqn:Hj.
    + destruct (Z.ltb_spec i j) as [Hlt|Hge]; simpl.
      * rewrite Hi, Hj. split; [|by split].
        constructor; [rewrite Hj; lia|].
        eapply Forall_impl; [exact Hhead|]. simpl. intros x. destruct (array_index x); lia.
      * rewrite Hj. split; [|auto].
        apply insert_index_Forall; [by rewrite Hi|done].
    + simpl. rewrite Hi, Hj. split; [|by split].
      constructor; [by rewrite Hj|].
      eapply Forall_impl; [exact Hhead|]. simpl. by intros x ->.
Qed.

Lemma ordered_keys_snoc ks k :
  array_index k = None -> ordered_keys ks -> ordered_keys (ks ++ [k]).
Proof.
  intros Hk. induction ks as [|k' ks IH]; simpl.
  - rewrite Hk. by repeat split.
  - intros [Hhead Hrest]. split; [|auto].
    destruct (array_index k'); apply Forall_app; (split; [done|]);
      constructor; try done; by rewrite Hk.
Qed.

Lemma ordered_keys_prefix ks1 ks2 : ordered_keys (ks1 ++ ks2) -> ordered_keys ks1.
Proof.
  induction ks1 as [|k ks1 IH]; [done|]. simpl. intros [Hhead Hrest].
  split; [|auto]. destruct (array_index k); by apply Forall_app in Hhead as [? _].
Qed.

Lemma canonical_prefix o1 o2 : canonical (o1 ++ o2) -> canonical o1.
Proof.
  unfold canonical. rewrite map_app. intros [Hnd Hord]. split.
  - by apply NoDup_app in Hnd as (? & _).
  - by eapply ordered_keys_prefix.
Qed.

Lemma set_property_canonical k v o : canonical o -> canonical (set_property k v o).
Proof.
  intros [Hnd Hord]. unfold set_property, canonical.
  destruct (lookup_property k o) as [w|] eqn:Hl.
  - by rewrite replace_property_keys.
  - assert (Hk : k ∉ map fst o).
    { intros [w Hw]%lookup_property_in. congruence. }
    destruct (array_index k) as [i|] eqn:Hi.
    + split; [by apply insert_index_NoDup|by apply insert_index_ordered].
    + rewrite map_app. simpl. split; [|by apply ordered_keys_snoc].
      apply NoDup_app. split; [done|]. split; [|apply NoDup_singleton].
      intros x Hx ->%list_elem_of_singleton. done.
Qed.

(** Creating the last property of a canonical object appends it. *)
Lemma set_property_last k v o :
  canonical (o ++ [(k, v)]) -> set_property k v o = o ++ [(k, v)].
Proof.
  unfold canonical. rewrite map_app. simpl. intros [Hnd Hord].
  assert (Hk : k ∉ map fst o).
  { apply NoDup_app in Hnd as (_ & Hdis & _). intros Hin.
    apply (Hdis k Hin). left. }
  unfold set_property. rewrite lookup_property_None by done.
  destruct (array_index k) as [i|] eqn:Hi; [|done].
  clear Hnd Hk. induction o as [|[k' v'] o IH]; [done|].
  simpl in *. destruct Hord as [Hhead Hrest].
  destruct (array_index k') as [j|] eqn:Hj.
  - apply Forall_app in Hhead as [_ Hlast]. inversion Hlast as [|? ? Hik _]; subst.
    rewrite Hi in Hik. destruct (Z.ltb_spec i j); [lia|]. by rewrite IH.
  - apply Forall_app in Hhead as [_ Hlast]. inversion Hlast as [|? ? Hik _]; subst.
    congruence.
Qed.

(** ** What [JSON.parse] returns is well formed *)

Lemma take_digits_is_digits s : forall ds r, take_digits s = (ds, r) -> is_digits ds.
Proof.
  induction s as [|c s IH]; intros ds r; simpl.
  - intros [= <- <-]. constructor.
  - destruct (is_digit c) eqn:Hc; [|intros [= <- <-]; constructor].
    destruct (take_digits s) as [ds' r']. intros [= <- <-].
    constructor; [|by eapply IH].
    unfold is_digit in Hc. apply andb_true_iff in Hc as [H1%N.leb_le H2%N.leb_le]. lia.
Qed.

Lemma parse_unsigned_wf neg s x r : parse_unsigned neg s = Some (x, r) -> number_wf x.
Proof.
  unfold parse_unsigned. destruct (take_digits s) as [ids s1] eqn:Ei.
  destruct (valid_int ids); [|done].
  destruct (parse_fraction s1) as [[fds s2]|] eqn:Ef; simpl; [|done].
  destruct (parse_exponent s2) as [[ex s3]|]; simpl; [|done].
  intros [= <- <-]. apply decimal_to_number_wf, digits_value_nonneg.
  apply Forall_app. split; [by eapply take_digits_is_digits|].
  unfold parse_fraction in Ef. destruct s1 as [|c s1']; [by injection Ef as <- <-|].
  destruct (c =? 46)%N; [|by injection Ef as <- <-].
  destruct (take_digits s1') as [[|d ds'] r'] eqn:Et; [done|].
  injection Ef as <- <-. by eapply take_digits_is_digits.
Qed.

Lemma parse_number_wf s x r : parse_number s = Some (x, r) -> number_wf x.
Proof.
  destruct s as [|c s]; [done|]. simpl. destruct (c =? 45)%N; apply parse_unsigned_wf.
Qed.

Lemma parsed_wf_array l : parsed_wf (VArray l) <-> Forall parsed_wf l.
Proof.
  induction l as [|x l IH]; [by split; [constructor|]|].
  change (parsed_wf (VArray (x :: l))) with (parsed_wf x /\ parsed_wf (VArray l)).
  rewrite IH. split; [intros [? ?]; by constructor|by inversion 1].
Qed.

Lemma parsed_wf_object o :
  parsed_wf (VObject o) <-> canonical o /\ Forall (fun kv => parsed_wf kv.2) o.
Proof.
  change (parsed_wf (VObject o))
    with (canonical o
          /\ (fix all (o : list (jsstring * value)) : Prop :=
                match o with
                | [] => True
                | (k, x) :: o' => parsed_wf x /\ all o'
                end) o).
  apply and_iff_compat_l. induction o as [|[k x] o IH]; [by split; [constructor|]|].
  rewrite IH. split; [intros [? ?]; by constructor|by inversion 1].
Qed.

Lemma set_property_Forall (P : value -> Prop) k v o :
  P v -> Forall (fun kv => P kv.2) o -> Forall (fun kv => P kv.2) (set_property k v o).
Proof.
  intros Hv Ho. unfold set_property. destruct (lookup_property k o).
  - induction Ho as [|[k' v'] o Hv' Ho IH]; simpl; [constructor|].
    destruct (decide (k' = k)); constructor; done.
  - destruct (array_index k) as [i|].
    + induction Ho as [|[k' v'] o Hv' Ho IH]; simpl; [by repeat constructor|].
      destruct (array_index k') as [j|]; [destruct (i <? j)%Z|];
        repeat constructor; done.
    + apply Forall_app. split; [done|]. by repeat constructor.
Qed.

Lemma parse_wf fuel :
  (forall s v r, parse_value fuel s = Some (v, r) -> parsed_wf v)
  /\ (forall s acc v r, Forall parsed_wf acc ->
        parse_elements fuel s acc = Some (v, r) -> parsed_wf v)
  /\ (forall s acc v r, canonical acc -> Forall (fun kv => parsed_wf kv.2) acc ->
        parse_members fuel s acc = Some (v, r) -> parsed_wf v).
Proof.
  induction fuel as [|fuel (IHv & IHe & IHm)]; [by repeat split|].
  split; [|split].
  - intros s v r. rewrite parse_value_S.
    destruct (skip_ws s) as [|c r0]; [done|].
    destruct (c =? 34)%N.
    { destruct (parse_string r0) as [[t r']|]; simpl; [|done]. by intros [= <- <-]. }
    destruct (c =? 91)%N.
    { destruct (skip_ws r0) as [|d r']; [done|].
      destruct (d =? 93)%N; [by intros [= <- <-]|]. by apply IHe. }
    destruct (c =? 123)%N.
    { destruct (skip_ws r0) as [|d r']; [done|].
      destruct (d =? 125)%N.
      - intros [= <- <-]. apply parsed_wf_object. repeat split; constructor.
      - apply IHm; [repeat split; constructor|constructor]. }
    unfold parse_literal.
    destruct (startsWith _ _); [by intros [= <- <-]|].
    destruct (startsWith _ _); [by intros [= <- <-]|].
    destruct (startsWith _ _); [by intros [= <- <-]|].
    destruct (parse_number (c :: r0)) as [[x r']|] eqn:En; simpl; [|done].
    intros [= <- <-]. by eapply parse_number_wf.
  - intros s acc v r Hacc. rewrite parse_elements_S.
    destruct (parse_value fuel s) as [[v1 r1]|] eqn:Ev; simpl; [|done].
    apply IHv in Ev.
    assert (Forall parsed_wf (acc ++ [v1])) by (apply Forall_app; by repeat constructor).
    destruct (skip_ws r1) as [|c r2]; [done|].
    destruct (c =? 44)%N; [by apply IHe|].
    destruct (c =? 93)%N; [|done]. intros [= <- <-]. by apply parsed_wf_array.
  - intros s acc v r Hcan Hacc. rewrite parse_members_S.
    destruct (skip_ws s) as [|c r0]; [done|].
    destruct (c =? 34)%N; [|done].
    destruct (parse_string r0) as [[k r1]|]; simpl; [|done].
    destruct (skip_ws r1) as [|d r2]; [done|].
    destruct (d =? 58)%N; [|done].
    destruct (parse_value fuel r2) as [[v1 r3]|] eqn:Ev; simpl; [|done].
    apply IHv in Ev.
    pose proof (set_property_canonical k v1 acc Hcan).
    pose proof (set_property_Forall parsed_wf k v1 acc Ev Hacc).
    destruct (skip_ws r3) as [|e r4]; [done|].
    destruct (e =? 44)%N; [by apply IHm|].
    destruct (e =? 125)%N; [|done]. intros [= <- <-]. by apply parsed_wf_object.
Qed.

Lemma JSON_parse_wf text v : JSON_parse text = Some v -> parsed_wf v.
Proof.
  unfold JSON_parse.
  destruct (parse_value _ text) as [[v' r]|] eqn:E; simpl; [|done].
  destruct (skip_ws r); [|done]. intros [= <-].
  by eapply (proj1 (parse_wf _)).
Qed.

(** ** Values that the round trip leaves as they are *)

Lemma exact_numbers_array l :
  exact_numbers (VArray l) = true <-> Forall (fun v => exact_numbers v = true) l.
Proof.
  change (exact_numbers (VArray l)) with (forallb exact_numbers l).
  rewrite forallb_forall, Forall_forall. by setoid_rewrite list_elem_of_In.
Qed.

Lemma exact_numbers_object o :
  exact_numbers (VObject o) = true <-> Forall (fun kv => exact_numbers kv.2 = true) o.
Proof.
  induction o as [|[k x] o IH]; [by split; [constructor|]|].
  change (exact_numbers (VObject ((k, x) :: o)))
    with (exact_numbers x && exact_numbers (VObject o)).
  rewrite andb_true_iff, IH. split; [intros [? ?]; by constructor|by inversion 1].
Qed.

Lemma normal_members_canonical o : forall acc,
  canonical (acc ++ o) ->
  Forall (fun kv => parsed_wf kv.2 /\ JSON_normal kv.2 = kv.2) o ->
  normal_members o acc = acc ++ o.
Proof.
  induction o as [|[k x] o IH]; intros acc Hcan Ho; [by rewrite app_nil_r|].
  inversion Ho as [|? ? [Hwf Hx] Ho']; subst. simpl in Hwf, Hx.
  cbn [normal_members].
  assert (is_undefined x = false) as -> by (by destruct x as [[]| |]).
  rewrite Hx. rewrite (cons_middle (k, x)), app_assoc in Hcan |- *.
  rewrite set_property_last by (by eapply canonical_prefix).
  by apply IH.
Qed.

(** A value that [JSON.parse] returned, whose numbers are finite and not
    -0, is its own normal form. *)
Lemma JSON_normal_id v : parsed_wf v -> exact_numbers v = true -> JSON_normal v = v.
Proof.
  induction v as [p|l IH|o IH] using value_ind'.
  - destruct p as [| |b|x|s]; simpl; try done.
    intros Hwf [Hfin Hz%negb_true_iff]%andb_true_iff. rewrite Hfin.
    rewrite number_normal_exact; try done. intros ->. by rewrite bool_decide_true in Hz.
  - intros Hwf%parsed_wf_array Hex%exact_numbers_array.
    change (JSON_normal (VArray l)) with (VArray (map JSON_normal l)). f_equal.
    induction IH as [|x l Hx Hl IHl]; [done|].
    inversion Hwf; inversion Hex; subst. simpl. rewrite Hx by done. f_equal. auto.
  - intros [Hcan Hwf]%parsed_wf_object Hex%exact_numbers_object.
    rewrite JSON_normal_object. f_equal.
    apply (normal_members_canonical o []); [done|].
    rewrite Forall_forall in IH, Hwf, Hex |- *. intros kv Hkv. split; auto.
Qed.

(** ** Import, export, import *)

Lemma length_omap_le {A B} (f : A -> option B) l : length (omap f l) <= length l.
Proof.
  induction l as [|x l IH]; [done|]. cbn [omap list_omap].
  destruct (f x); simpl; fold (omap f l); lia.
Qed.

(** The lines of the export when every conversation can be read and none
    is [undefined]. *)
Lemma export_lines_values h l : forall vs,
  omap (read h) l = vs -> length vs = length l ->
  Forall (fun v => v <> undefined) vs ->
  export_lines h l = map serialize vs.
Proof.
  induction l as [|r l IH]; intros vs Hvs Hlen Hdef.
  - by subst vs.
  - cbn [omap list_omap] in Hvs. fold (omap (read h) l) in Hvs.
    unfold export_lines in *. cbn [map].
    destruct (read h r) as [v|] eqn:Hr.
    + subst vs. simpl in Hlen. inversion Hdef as [|? ? Hv Hdef']; subst.
      cbn [mbind option_bind]. unfold JSON_stringify.
      assert (is_undefined v = false) as -> by (by destruct v as [[]| |]).
      cbn [default map]. f_equal. apply IH; [done|lia|done].
    + pose proof (length_omap_le (read h) l). subst vs. simpl in Hlen. lia.
Qed.

(** What an import leaves in the collection. *)
Lemma parseContent_collection input st :
  let st' := parseContent input st in
  length (collection st') = length (conversations st')
  /\ Forall (fun v => parsed_wf v /\ v <> undefined) (collection st').
Proof.
  intros st'. destruct (parseContent_spec input st) as (Hc & _). fold st' in Hc.
  split.
  - unfold st', collection, parseContent. rewrite forEach_parse_line.
    destruct (alloc_all (heap st) (parsed_values (split 10 input))) as [h rs] eqn:E.
    simpl. apply alloc_all_spec in E as (_ & -> & _ & Hlen & _). done.
  - rewrite Hc. apply Forall_forall. intros v (text & _ & Hv)%list_elem_of_omap.
    unfold valid_value in Hv. pose proof (classify_cases text) as Hk.
    destruct (classify text) as [|w|]; try done. injection Hv as ->.
    destruct Hk as [_ Hp]. split; [by eapply JSON_parse_wf|by eapply JSON_parse_defined].
Qed.

(** Importing what was exported after an import gives the normal forms of
    the conversations, and no error. *)
Lemma reimport input st st0 :
  let st1 := parseContent input st in
  let text := export_text (heap st1) (conversations st1) in
  collection (parseContent text st0) = map JSON_normal (collection st1)
  /\ errors (parseContent text st0) = [].
Proof.
  intros st1 text.
  destruct (parseContent_collection input st) as [Hlen Hwf]. fold st1 in Hlen, Hwf.
  destruct (parseContent_spec text st0) as (Hc & He & _). rewrite Hc, He.
  assert (Hx : export_lines (heap st1) (conversations st1) = map serialize (collection st1)).
  { apply export_lines_values; [done|done|].
    eapply Forall_impl; [exact Hwf|]. by intros v [_ ?]. }
  unfold text, export_text. rewrite Hx.
  destruct (collection st1) as [|v vs]; [done|].
  rewrite split_join; [|done|].
  - by rewrite failed_lines_serialize, parsed_values_serialize.
  - apply Forall_fmap, Forall_forall. intros w _. simpl.
    apply printable_no_newline, printable_serialize.
Qed.

(** C2, as stated, fails: a number too large for binary64 is read as
    Infinity, which the export writes as [null]; the second import reads
    [null]. *)
Lemma overflow_is_not_restored :
  let st1 := parseContent (json "{'messages':[],'temperature':1e999}") initial in
  let text := export_text (heap st1) (conversations st1) in
  collection st1
  = [VObject [(str "messages", VArray []);
              (str "temperature", VNumber (NInfinity false))]]
  /\ text = json "{'messages':[],'temperature':null}"
  /\ collection (parseContent text st1)
     = [VObject [(str "messages", VArray []); (str "temperature", VNull)]]
  /\ collection (parseContent text st1) <> collection st1.
Proof. vm_compute. repeat split. intros [=]. Qed.

(** C2, amended. When every number of the imported collection is finite
    and is not negative zero, importing the export gives the same
    collection: the same values, with their keys in the same order. *)
Theorem export_import_round_trip (input : jsstring) (st st0 : Store) :
  let st1 := parseContent input st in
  Forall (fun v => exact_numbers v = true) (collection st1) ->
  collection (parseContent (export_text (heap st1) (conversations st1)) st0)
  = collection st1.
Proof.
  intros st1 Hex. destruct (reimport input st st0) as [Hc _]. fold st1 in Hc.
  rewrite Hc. destruct (parseContent_collection input st) as [_ Hwf]. fold st1 in Hwf.
  clear Hc. revert Hex Hwf. generalize (collection st1). intros vs.
  induction vs as [|v vs IH]; intros Hex Hwf; [done|].
  apply Forall_cons_1 in Hex as [Hx Hex]. apply Forall_cons_1 in Hwf as [[Hv _] Hwf].
  cbn [map]. rewrite (JSON_normal_id v Hv Hx). f_equal. by apply IH.
Qed.

Lemma export_import_round_trip_witness :
  let st1 := parseContent example_text initial in
  Forall (fun v => exact_numbers v = true) (collection st1)
  /\ collection (parseContent (export_text (heap st1) (conversations st1)) st1)
     = collection st1.
Proof.
  assert (Hex : Forall (fun v => exact_numbers v = true)
                  (collection (parseContent example_text initial))).
  { change (collection (parseContent example_text initial))
      with (parsed_values (split 10 example_text)).
    vm_compute. repeat constructor. }
  split; [exact Hex|].
  apply (export_import_round_trip example_text initial _ Hex).
Defined.

(* ================================================================== *)
(** * Part III: further properties of the component *)
(* ================================================================== *)

(** ** More on the import *)

Lemma split_app sep a b : split sep (a ++ sep :: b) = split sep a ++ split sep b.
Proof.
  induction a as [|c a IH]; simpl.
  - by rewrite N.eqb_refl.
  - destruct (c =? sep)%N; [by rewrite IH|].
    rewrite IH. pose proof (split_nonempty sep a). by destruct (split sep a).
Qed.

Lemma forEach_app {A St} (f : St -> A -> nat -> St) l1 : forall l2 index s,
  forEach f (l1 ++ l2) index s = forEach f l2 (index + length l1) (forEach f l1 index s).
Proof.
  induction l1 as [|x l1 IH]; intros l2 index s; simpl.
  - by rewrite Nat.add_0_r.
  - rewrite IH. f_equal. lia.
Qed.

Lemma failed_lines_shift n lines : forall index,
  failed_lines (index + n) lines
  = map (fun e => {| line := line e + n; content := content e |})
      (failed_lines index lines).
Proof.
  induction lines as [|text lines IH]; intros index; [done|].
  cbn [failed_lines]. unfold invalid_error.
  change (S (index + n)) with (S index + n). rewrite IH.
  destruct (classify text); try done.
  cbn [map line content]. do 2 f_equal. lia.
Qed.

(** X1. An import replaces: the collection and the error list after an
    import are those of the text alone, whatever the collection and the
    errors were before; the query of the search box stays. *)
Theorem import_replaces_collection (input : jsstring) (st st' : Store) :
  collection (parseContent input st) = collection (parseContent input st')
  /\ errors (parseContent input st) = errors (parseContent input st')
  /\ length (conversations (parseContent input st))
     = length (conversations (parseContent input st'))
  /\ searchTerm (parseContent input st) = searchTerm st.
Proof.
  destruct (parseContent_spec input st) as (Hc & He & _).
  destruct (parseContent_spec input st') as (Hc' & He' & _).
  destruct (parseContent_collection input st) as [Hl _].
  destruct (parseContent_collection input st') as [Hl' _].
  split; [congruence|]. split; [congruence|]. split; [congruence|].
  unfold parseContent. by destruct (forEach _ _ _ _) as [[? ?] ?].
Qed.

(** X2. A line break at the end of the file changes nothing: the state
    after the import is the same, object for object. *)
Theorem import_ignores_final_newline (input : jsstring) (st : Store) :
  parseContent (input ++ [10%N]) st = parseContent input st.
Proof.
  unfold parseContent. rewrite split_app, forEach_app.
  destruct (forEach parse_line (split 10 input) 0 (heap st, [], [])) as [[h parsed] errs].
  reflexivity.
Qed.

(** X3. The import of two texts joined by a line break: the collection is
    the first collection followed by the second, and the error list is the
    first error list followed by the second with its line numbers moved by
    the number of lines of the first text. *)
Theorem import_of_concatenation (a b : jsstring) (st : Store) :
  collection (parseContent (a ++ 10%N :: b) st)
  = collection (parseContent a st) ++ collection (parseContent b st)
  /\ errors (parseContent (a ++ 10%N :: b) st)
     = errors (parseContent a st)
       ++ map (fun e => {| line := line e + length (split 10 a); content := content e |})
            (errors (parseContent b st)).
Proof.
  destruct (parseContent_spec (a ++ 10%N :: b) st) as (-> & -> & _).
  destruct (parseContent_spec a st) as (-> & -> & _).
  destruct (parseContent_spec b st) as (-> & -> & _).
  rewrite split_app, parsed_values_app, failed_lines_app. split; [done|].
  f_equal. apply (failed_lines_shift (length (split 10 a)) (split 10 b) 0).
Qed.

(** ** The objects of an import are distinct *)

Lemma alloc_all_range vs : forall h h' rs i l,
  alloc_all h vs = (h', rs) -> rs !! i = Some (RObj l) -> length h <= l < length h'.
Proof.
  induction vs as [|v vs IH]; simpl; intros h h' rs i l.
  - by intros [= <- <-].
  - destruct (new_ref h v) as [h1 r] eqn:E1.
    destruct (alloc_all h1 vs) as [h2 rs'] eqn:E2.
    intros [= <- <-] Hi.
    pose proof (alloc_all_spec _ _ _ _ E2) as ([ext ->] & _).
    destruct i as [|i]; simpl in Hi.
    + destruct v; simpl in E1; simplify_eq; rewrite !length_app; simpl; lia.
    + specialize (IH _ _ _ _ _ E2 Hi).
      destruct v; simpl in E1; simplify_eq; rewrite ?length_app in *; simpl in *; lia.
Qed.

Lemma alloc_all_distinct vs : forall h h' rs i j l,
  alloc_all h vs = (h', rs) ->
  rs !! i = Some (RObj l) -> rs !! j = Some (RObj l) -> i = j.
Proof.
  induction vs as [|v vs IH]; simpl; intros h h' rs i j l.
  - by intros [= <- <-].
  - destruct (new_ref h v) as [h1 r] eqn:E1.
    destruct (alloc_all h1 vs) as [h2 rs'] eqn:E2.
    intros [= <- <-] Hi Hj.
    assert (Hfresh : forall k, rs' !! k = Some r -> r = RObj l -> False).
    { intros k Hk ->. pose proof (alloc_all_range _ _ _ _ _ _ E2 Hk) as Hr.
      destruct v; simpl in E1; simplify_eq; rewrite length_app in Hr; simpl in Hr; lia. }
    destruct i as [|i], j as [|j]; simpl in Hi, Hj; try done.
    + injection Hi as ->. by destruct (Hfresh j Hj).
    + injection Hj as ->. by destruct (Hfresh i Hi).
    + f_equal. by eapply IH.
Qed.

Lemma indexOf_from_first l x : forall k i,
  l !! i = Some x -> strict_equals x x = true ->
  (forall j y, j < i -> l !! j = Some y -> strict_equals y x = false) ->
  indexOf_from l x k = (k + Z.of_nat i)%Z.
Proof.
  induction l as [|y l IH]; intros k i Hi Hx Hbefore; [done|].
  destruct i as [|i]; simpl in *.
  - injection Hi as ->. rewrite Hx. lia.
  - rewrite (Hbefore 0 y) by (done || lia).
    rewrite (IH (k + 1)%Z i Hi Hx); [lia|].
    intros j z Hj Hz. apply (Hbefore (S j) z); [lia|done].
Qed.

Lemma parseContent_conversations input st :
  exists h rs, alloc_all (heap st) (parsed_values (split 10 input)) = (h, rs)
               /\ heap (parseContent input st) = h
               /\ conversations (parseContent input st) = rs.
Proof.
  unfold parseContent. rewrite forEach_parse_line.
  destruct (alloc_all _ _) as [h rs]. by exists h, rs.
Qed.

(** X4. The arrays and objects of an import are distinct objects: the
    conversation at position [i], when it is an array or an object, is found
    by [indexOf] at position [i], and no other position holds it. *)
Theorem imported_objects_are_distinct (input : jsstring) (st : Store) (i : nat) (l : nat) :
  let st' := parseContent input st in
  conversations st' !! i = Some (RObj l) ->
  indexOf (conversations st') (RObj l) = Z.of_nat i
  /\ ref_at (conversations st') (indexOf (conversations st') (RObj l)) = RObj l
  /\ (forall j, conversations st' !! j = Some (RObj l) -> j = i)
  /\ length (heap st) <= l < length (heap st').
Proof.
  intros st' Hi. subst st'.
  destruct (parseContent_conversations input st) as (h & rs & E & Hh & Hrs).
  rewrite Hh, Hrs in *.
  assert (Hidx : indexOf rs (RObj l) = Z.of_nat i).
  { unfold indexOf. rewrite (indexOf_from_first rs (RObj l) 0 i Hi); [lia|by apply bool_decide_eq_true|].
    intros j y Hlt Hj. destruct y as [p|l']; [by destruct p as [| | |[]|]|]. simpl.
    apply bool_decide_eq_false. intros ->.
    pose proof (alloc_all_distinct _ _ _ _ _ _ _ E Hi Hj). lia. }
  split; [done|]. split; [rewrite Hidx; by apply ref_at_of_nat|].
  split; [intros j Hj; by eapply alloc_all_distinct|].
  by eapply alloc_all_range.
Qed.

Lemma imported_objects_are_distinct_witness :
  let st' := parseContent example_text initial in
  conversations st' !! 1 = Some (RObj 1)
  /\ indexOf (conversations st') (RObj 1) = 1%Z.
Proof.
  split; [reflexivity|].
  apply (imported_objects_are_distinct example_text initial 1 1). reflexivity.
Defined.

(** ** The effect that selects a conversation *)

Lemma sublist_elem {A} (l k : list A) x : sublist l k -> x ∈ l -> x ∈ k.
Proof.
  induction 1 as [|y l k _ IH|y l k _ IH]; intros Hx; [done| |].
  - apply elem_of_cons in Hx as [->|Hx]; [left|right; auto].
  - right. auto.
Qed.

Lemma startsWith_refl s : startsWith s s = true.
Proof. induction s as [|c s IH]; [done|]. simpl. by rewrite N.eqb_refl. Qed.

Lemma includes_refl s : includes s s = true.
Proof. destruct s; simpl; [done|]. by rewrite N.eqb_refl, startsWith_refl. Qed.

Lemma ref_at_cases (l : list ref) (index : Z) :
  (exists i, index = Z.of_nat i /\ l !! i = Some (ref_at l index))
  \/ (((index < 0)%Z \/ (Z.of_nat (length l) <= index)%Z) /\ ref_at l index = RPrim PUndefined).
Proof.
  unfold ref_at, element. destruct (Z.leb_spec 0 index) as [Hle|Hlt].
  - destruct (l !! Z.to_nat index) as [r|] eqn:E.
    + left. exists (Z.to_nat index). split; [lia|done].
    + right. apply lookup_ge_None in E. split; [lia|done].
  - right. split; [lia|done].
Qed.

Lemma select_store_ok index st : store_ok st -> store_ok (handleConversationSelect index st).
Proof.
  intros (Hh & Hl & _). split; [done|]. split; [done|]. simpl.
  destruct (ref_at_cases (conversations st) index) as [(i & _ & Hi)|[_ ->]]; [|done].
  rewrite Forall_forall in Hl. apply Hl. by eapply list_elem_of_lookup_2.
Qed.

Lemma filtered_defined `{CaseMapping} st :
  store_ok st ->
  exists kept, filteredConversations st = Some kept /\ sublist kept (conversations st).
Proof.
  intros (Hh & Hl & _).
  destruct (filter_from_spec (heap st) (toLowerCase (searchTerm st)) (conversations st) 0 Hh Hl)
    as (kept & idx & Hf & _).
  exists kept. split; [exact Hf|]. by eapply filter_from_sublist.
Qed.

Lemma autoSelect_frame `{CaseMapping} st st' :
  autoSelect st = Some st' ->
  heap st' = heap st /\ conversations st' = conversations st
  /\ searchTerm st' = searchTerm st /\ errors st' = errors st
  /\ editingMessage st' = editingMessage st /\ editedContent st' = editedContent st.
Proof.
  unfold autoSelect. destruct (filteredConversations st) as [[|first rest]|]; simpl;
    [by intros [= <-]| |done].
  destruct (negb (ToBoolean (selectedConversation st))); by intros [= <-].
Qed.

Lemma empty_query_keeps_all `{CaseMapping} st :
  store_ok st -> searchTerm st = [] -> filteredConversations st = Some (conversations st).
Proof.
  intros (Hh & Hl & _) Hq. unfold filteredConversations, filter_conversations.
  apply filter_from_all. rewrite Hq, toLowerCase_empty.
  eapply Forall_impl; [exact Hl|]. simpl. intros r [Hr Hu].
  destruct (conversation_text (heap st) r Hh Hr Hu) as (v & Hv & Hs).
  exists (serialize v). rewrite Hv. simpl. split; [done|]. apply includes_empty.
Qed.

(** X5. The effect of lines 147-151 on a well-formed state: it returns, it
    changes nothing but the selection, it changes nothing at all when a
    conversation is selected, it selects the first conversation that the
    filter lets through when none is, and running it a second time changes
    nothing; a valid selection stays valid. *)
Theorem effect_settles `{CaseMapping} (st : Store) :
  store_ok st ->
  exists st',
    autoSelect st = Some st'
    /\ autoSelect st' = Some st'
    /\ store_ok st'
    /\ (selection_valid st -> selection_valid st')
    /\ heap st' = heap st /\ conversations st' = conversations st
    /\ searchTerm st' = searchTerm st /\ errors st' = errors st
    /\ editingMessage st' = editingMessage st /\ editedContent st' = editedContent st
    /\ (ToBoolean (selectedConversation st) = true -> st' = st)
    /\ (ToBoolean (selectedConversation st) = false ->
        forall kept, filteredConversations st = Some kept ->
          selectedConversation st' = default (selectedConversation st) (head kept)).
Proof.
  intros Hok. destruct (filtered_defined st Hok) as (kept & Hf & Hsub).
  pose proof Hok as (Hh & Hl & Hs).
  unfold autoSelect. rewrite Hf. simpl.
  destruct kept as [|first rest].
  - exists st. rewrite Hf. simpl. repeat split; try done.
    intros _ kept' [= <-]. done.
  - assert (Hin : first ∈ conversations st) by (eapply sublist_elem; [done|left]).
    destruct (ToBoolean (selectedConversation st)) eqn:Hb; simpl.
    + exists st. rewrite Hf. simpl. rewrite Hb. simpl. repeat split; try done.
    + eexists. split; [reflexivity|].
      unfold filteredConversations in *. simpl. rewrite Hf. simpl.
      split; [by destruct (ToBoolean first)|].
      split; [|split; [|repeat split; try done]].
      * split; [done|]. split; [done|]. simpl.
        rewrite Forall_forall in Hl. by apply Hl.
      * intros _. right. simpl. by apply list_elem_of_lookup_1.
      * intros _ kept' [= <-]. done.
Qed.

Lemma effect_settles_witness :
  exists st',
    @autoSelect latin1_case (parseContent example_text initial) = Some st'
    /\ @autoSelect latin1_case st' = Some st'.
Proof.
  destruct (@effect_settles latin1_case (parseContent example_text initial))
    as (st' & H1 & H2 & _).
  - apply (parseContent_store_ok _ initial). constructor.
  - by exists st'.
Defined.

(** X6. An upload in page.tsx, with the effect that follows it: nothing
    throws, the collection and the errors are those of the import, and the
    selection is the first conversation that the filter lets through, or
    none; with an empty search box that is the first conversation of the
    file. *)
Theorem upload_selects_first `{CaseMapping} (input : jsstring) (st : Store) :
  Forall is_object (heap st) ->
  exists st' kept,
    Page.dispatch (Page.Upload input) st = Some (st', [])
    /\ filteredConversations (parseContent input st) = Some kept
    /\ selectedConversation st' = default null (head kept)
    /\ conversations st' = conversations (parseContent input st)
    /\ heap st' = heap (parseContent input st)
    /\ errors st' = errors (parseContent input st)
    /\ (searchTerm st = [] -> kept = conversations st').
Proof.
  intros Hh. pose proof (parseContent_store_ok input st Hh) as Hok.
  destruct (filtered_defined _ Hok) as (kept & Hf & Hsub).
  pose proof (parseContent_selected input st) as Hsel.
  assert (Hq : searchTerm (parseContent input st) = searchTerm st).
  { unfold parseContent. by destruct (forEach _ _ _ _) as [[? ?] ?]. }
  unfold Page.dispatch, Page.handleFileUpload, autoSelect. rewrite Hf. simpl.
  rewrite Hsel. simpl.
  destruct kept as [|first rest]; do 2 eexists;
    (split; [reflexivity|]); (split; [reflexivity|]); simpl;
    repeat split; try done; intros Hempty;
    rewrite <- Hq in Hempty;
    pose proof (empty_query_keeps_all _ Hok Hempty) as Hall; congruence.
Qed.

Lemma upload_selects_first_witness :
  exists st',
    @Page.dispatch latin1_case (Page.Upload example_text) initial = Some (st', [])
    /\ selectedConversation st' = RObj 0.
Proof.
  destruct (@upload_selects_first latin1_case example_text initial)
    as (st' & kept & Hd & Hf & Hs & _); [constructor|].
  exists st'. split; [exact Hd|].
  rewrite Hs. vm_compute in Hf. by injection Hf as <-.
Defined.

(** X7. A click on a conversation in page.tsx, with the effect that follows
    it: nothing throws, the edit target is none, the collection is as it
    was; for a position of the collection that holds an array or an object
    the selection is that conversation; for a position outside the
    collection the selection falls back to the first conversation that the
    filter lets through, and is [undefined] when there is none. *)
Theorem select_then_effect `{CaseMapping} (index : Z) (st : Store) :
  store_ok st ->
  exists st',
    Page.dispatch (Page.Select index) st = Some (st', [])
    /\ editingMessage st' = None
    /\ conversations st' = conversations st /\ heap st' = heap st
    /\ editedContent st' = editedContent st
    /\ (forall i l, index = Z.of_nat i -> conversations st !! i = Some (RObj l) ->
          selectedConversation st' = RObj l)
    /\ ((index < 0 \/ Z.of_nat (length (conversations st)) <= index)%Z ->
        forall kept, filteredConversations st = Some kept ->
          selectedConversation st' = default (RPrim PUndefined) (head kept)).
Proof.
  intros Hok. pose proof Hok as (Hh & Hl & Hs).
  destruct (filtered_defined st Hok) as (kept & Hf & Hsub).
  unfold Page.dispatch, autoSelect.
  change (filteredConversations (handleConversationSelect index st))
    with (filteredConversations st).
  rewrite Hf. simpl.
  assert (Hin : forall i l, index = Z.of_nat i -> conversations st !! i = Some (RObj l) ->
                  ref_at (conversations st) index = RObj l).
  { intros i l -> Hi. by apply ref_at_of_nat. }
  assert (Hout : (index < 0 \/ Z.of_nat (length (conversations st)) <= index)%Z ->
                 ref_at (conversations st) index = RPrim PUndefined).
  { intros Hrange. destruct (ref_at_cases (conversations st) index)
      as [(i & -> & Hi)|[_ Hu]]; [|done].
    apply lookup_lt_Some in Hi. lia. }
  destruct kept as [|first rest].
  - eexists. split; [reflexivity|]. simpl. repeat split; try done.
    intros Hrange kept' [= <-]. simpl. auto.
  - destruct (ToBoolean (ref_at (conversations st) index)) eqn:Hb; simpl;
      (eexists; split; [reflexivity|]); simpl; repeat split; try done.
    + intros Hrange. rewrite (Hout Hrange) in Hb. done.
    + intros i l Hidx Hi. rewrite (Hin i l Hidx Hi) in Hb. done.
    + intros _ kept' [= <-]. done.
Qed.

Lemma select_then_effect_witness :
  exists st',
    @Page.dispatch latin1_case (Page.Select 1) (parseContent example_text initial) = Some (st', [])
    /\ selectedConversation st' = RObj 1.
Proof.
  destruct (@select_then_effect latin1_case 1 (parseContent example_text initial))
    as (st' & Hd & _ & _ & _ & _ & Hin & _).
  - apply (parseContent_store_ok _ initial). constructor.
  - exists st'. split; [exact Hd|]. by apply (Hin 1 1).
Defined.

(** X8. Searching for the label of a conversation, or for its serialized
    text, always shows that conversation. *)
Theorem search_finds_conversation `{CaseMapping} (st : Store) (i : nat) (r : ref) :
  store_ok st ->
  conversations st !! i = Some r ->
  searchTerm st = label i
  \/ read (heap st) r ≫= JSON_stringify = Some (searchTerm st) ->
  exists kept, filteredConversations st = Some kept /\ r ∈ kept.
Proof.
  intros (Hh & Hl & _) Hi Hq.
  destruct (filter_from_spec (heap st) (toLowerCase (searchTerm st)) (conversations st) 0 Hh Hl)
    as (kept & idx & Hf & _ & Hall & Hiff).
  exists kept. split; [exact Hf|].
  assert (Hidx : i ∈ idx).
  { apply (Hiff i r Hi). destruct Hq as [Hq|Hq].
    - right. unfold label_matches. simpl. rewrite Hq. apply includes_refl.
    - left. exists (searchTerm st). split; [done|]. apply includes_refl. }
  apply list_elem_of_lookup_1 in Hidx as [n Hn].
  destruct (Forall2_lookup_l _ _ _ _ _ Hall Hn) as (conv & Hconv & _ & Hc).
  rewrite Nat.sub_0_r, Hi in Hc. injection Hc as <-.
  by eapply list_elem_of_lookup_2.
Qed.

Lemma search_finds_conversation_witness :
  exists kept,
    @filteredConversations latin1_case
      (handleSearchChange (label 1) (parseContent example_text initial)) = Some kept
    /\ RObj 1 ∈ kept.
Proof.
  apply (@search_finds_conversation latin1_case
           (handleSearchChange (label 1) (parseContent example_text initial)) 1 (RObj 1)).
  - apply (parseContent_store_ok _ initial). constructor.
  - reflexivity.
  - left. reflexivity.
Defined.

(** ** An edit in page.tsx, step by step *)

Lemma array_index_content : array_index (str "content") = None.
Proof. reflexivity. Qed.

Lemma array_index_messages : array_index (str "messages") = None.
Proof. reflexivity. Qed.

Lemma replace_property_same k v o :
  lookup_property k o = Some v -> replace_property k v o = o.
Proof.
  induction o as [|[k' v'] o IH]; simpl; [done|].
  destruct (decide (k' = k)) as [->|Hne]; [by intros [= ->]|].
  intros Ho. by rewrite IH.
Qed.

Lemma set_property_same k v o : lookup_property k o = Some v -> set_property k v o = o.
Proof. intros Ho. unfold set_property. rewrite Ho. by apply replace_property_same. Qed.

Lemma omap_insert_same {A B} (f g : A -> option B) (l : list A) : forall c r x,
  l !! c = Some r -> g x = f r -> (forall y, y ∈ l -> g y = f y) ->
  omap g (<[c := x]> l) = omap f l.
Proof.
  induction l as [|y l IH]; intros c r x Hc Hx Hl; [done|].
  destruct c as [|c]; simpl in *.
  - injection Hc as ->. rewrite Hx. fold (omap g l) (omap f l).
    assert (omap g l = omap f l) as ->; [|done].
    clear -Hl. induction l as [|z l IH]; [done|]. simpl.
    fold (omap g l) (omap f l).
    rewrite Hl by (right; left). rewrite IH; [done|].
    intros w Hw. apply Hl. apply elem_of_cons in Hw as [->|Hw]; [left|right; by right].
  - fold (omap g (<[c := x]> l)) (omap f l).
    rewrite (Hl y) by left. rewrite (IH c r x Hc Hx); [done|].
    intros w Hw. apply Hl. by right.
Qed.

(** What the two updaters return for a conversation with an array of
    messages, when the selection is that conversation or is none. *)
Lemma page_edit_result st c m r o msgs :
  conversations st !! c = Some r ->
  read (heap st) r = Some (VObject o) ->
  lookup_property (str "messages") o = Some (VArray msgs) ->
  selectedConversation st = r \/ ToBoolean (selectedConversation st) = false ->
  let message' :=
    VObject (set_property (str "content") (editedContent st)
               (spread_object (default undefined (msgs !! m)))) in
  let conv' :=
    VObject (set_property (str "messages") (VArray (array_set msgs m message')) o) in
  exists ext sel,
    Page.handleMessageEdit (Z.of_nat c) m st
    = Some {| heap := heap st ++ conv' :: ext;
              conversations := <[c := RObj (length (heap st))]> (conversations st);
              selectedConversation := sel;
              searchTerm := searchTerm st; errors := errors st;
              editingMessage := None; editedContent := VString [] |}
    /\ (selectedConversation st = r -> ext = [conv'] /\ sel = RObj (S (length (heap st))))
    /\ (ToBoolean (selectedConversation st) = false ->
        ext = [] /\ sel = selectedConversation st).
Proof.
  intros Hc Hr Ho Hsel message' conv'.
  assert (Hobj : exists l, r = RObj l /\ l < length (heap st)) .
  { destruct r as [q|l]; [by simpl in Hr|]. exists l. split; [done|].
    by eapply lookup_lt_Some. }
  destruct Hobj as (l & -> & Hl).
  subst conv' message'.
  unfold Page.handleMessageEdit, Page.updateConversations.
  rewrite (ref_at_of_nat _ _ _ Hc), Hr. simpl. rewrite Ho. simpl.
  unfold Page.editMessages. simpl.
  rewrite set_ref_of_nat by (by eapply lookup_lt_Some).
  destruct Hsel as [Hs|Hs].
  - eexists [_], (RObj (S (length (heap st)))).
    split; [|split; [done|]].
    + unfold Page.updateSelected. rewrite Hs. simpl.
      rewrite lookup_app_l by done. simpl in Hr. rewrite Hr. simpl.
      rewrite Ho. simpl. rewrite length_app. simpl.
      rewrite Nat.add_1_r. by rewrite <- app_assoc.
    + rewrite Hs. done.
  - exists [], (selectedConversation st). split; [|split; [|done]].
    + unfold Page.updateSelected. rewrite Hs. done.
    + intros Hs'. rewrite Hs' in Hs. done.
Qed.

Lemma page_edit_store_ok st c conv' ext sel :
  store_ok st -> c < length (conversations st) ->
  is_object conv' -> Forall is_object ext ->
  ref_ok (heap st ++ conv' :: ext) sel ->
  store_ok {| heap := heap st ++ conv' :: ext;
              conversations := <[c := RObj (length (heap st))]> (conversations st);
              selectedConversation := sel;
              searchTerm := searchTerm st; errors := errors st;
              editingMessage := None; editedContent := VString [] |}.
Proof.
  intros (Hh & Hl & _) Hc Hconv Hext Hsel. split; [|split; [|done]]; simpl.
  - apply Forall_app. split; [done|]. by constructor.
  - apply Forall_insert.
    + eapply Forall_impl; [exact Hl|]. simpl. intros r [Hr Hu]. split; [|done].
      by apply ref_ok_app.
    + split; [|done]. simpl. rewrite length_app. simpl. lia.
Qed.

(** The shape of the state after an edit that returns. *)
Lemma page_edit_shape (conversationIndex : Z) (m : nat) (st st' : Store) :
  Page.handleMessageEdit conversationIndex m st = Some st' ->
  (0 <= conversationIndex < Z.of_nat (length (conversations st)))%Z
  /\ (exists ext, heap st' = heap st ++ ext /\ Forall is_object ext /\ ext <> [])
  /\ conversations st'
     = <[Z.to_nat conversationIndex := RObj (length (heap st))]> (conversations st)
  /\ (selectedConversation st' = selectedConversation st
      \/ exists loc, selectedConversation st' = RObj loc /\ loc < length (heap st'))
  /\ editingMessage st' = None /\ editedContent st' = VString []
  /\ searchTerm st' = searchTerm st /\ errors st' = errors st.
Proof.
  unfold Page.handleMessageEdit, Page.updateConversations. intros Hedit.
  destruct (ref_at_cases (conversations st) conversationIndex)
    as [(c & -> & Hc)|[_ Hu]]; [|by rewrite Hu in Hedit].
  destruct (read (heap st) (ref_at (conversations st) (Z.of_nat c))) as [conv|];
    [|done]. cbn [mbind option_bind] in Hedit.
  destruct (Page.editMessages _ m (editedContent st)) as [msgs'|]; [|done].
  cbn [mbind option_bind new_ref] in Hedit.
  rewrite set_ref_of_nat in Hedit by (by eapply lookup_lt_Some).
  set (conv' := VObject (set_property (str "messages") (VArray msgs') (spread_object conv)))
    in Hedit.
  assert (Hext : exists ext h2 sel,
    Page.updateSelected (heap st ++ [conv']) (selectedConversation st) m (editedContent st)
    = Some (h2, sel)
    /\ h2 = heap st ++ ext /\ Forall is_object ext /\ ext <> []
    /\ (sel = selectedConversation st \/ exists loc, sel = RObj loc /\ loc < length h2)).
  { destruct (Page.updateSelected _ _ _ _) as [[h2 sel]|] eqn:E; [|done].
    unfold Page.updateSelected in E.
    destruct (ToBoolean (selectedConversation st)).
    - destruct (read _ (selectedConversation st)) as [selected|]; [|done].
      cbn [mbind option_bind] in E.
      destruct (get_named selected (str "messages")) as [messages|]; [|done].
      cbn [mbind option_bind] in E.
      destruct (Page.editMessages messages m (editedContent st)) as [u|]; [|done].
      cbn [mbind option_bind new_ref] in E. injection E as <- <-.
      eexists _, _, _. split; [done|]. split; [by rewrite <- app_assoc|].
      split; [by repeat constructor|]. split; [done|]. right. eexists. split; [done|].
      rewrite !length_app. simpl. lia.
    - injection E as <- <-. eexists _, _, _. split; [done|]. split; [done|].
      split; [by repeat constructor|]. split; [done|]. by left. }
  destruct Hext as (ext & h2 & sel & Hu & -> & Hobj & Hne & Hsel). rewrite Hu in Hedit.
  cbn [mbind option_bind] in Hedit. injection Hedit as <-. simpl.
  apply lookup_lt_Some in Hc. rewrite Nat2Z.id.
  split; [lia|]. split; [by exists ext|]. done.
Qed.

(** X9. An edit in page.tsx never changes an object that exists. When it
    returns, the conversation index was a position of the collection; the
    store of objects is the old one with new objects after it, so that
    every reference held before the edit reads what it read; the edited
    position holds a new object and every other position the object it
    held; the edit target is none and the draft is empty; the query and the
    error list are as they were. *)
Theorem page_edit_allocates (conversationIndex : Z) (m : nat) (st st' : Store) :
  Page.handleMessageEdit conversationIndex m st = Some st' ->
  (0 <= conversationIndex < Z.of_nat (length (conversations st)))%Z
  /\ (exists ext, heap st' = heap st ++ ext)
  /\ (forall r, ref_ok (heap st) r -> read (heap st') r = read (heap st) r)
  /\ conversations st'
     = <[Z.to_nat conversationIndex := RObj (length (heap st))]> (conversations st)
  /\ (forall j, j <> Z.to_nat conversationIndex ->
        conversations st' !! j = conversations st !! j)
  /\ editingMessage st' = None /\ editedContent st' = VString []
  /\ searchTerm st' = searchTerm st /\ errors st' = errors st.
Proof.
  intros Hedit.
  destruct (page_edit_shape _ _ _ _ Hedit)
    as (Hrange & (ext & Hheap & _ & _) & Hconvs & _ & Hrest).
  split; [done|]. split; [by exists ext|].
  split; [intros r Hr; rewrite Hheap; by apply read_app|].
  split; [done|]. split; [|done].
  intros j Hj. rewrite Hconvs. by apply list_lookup_insert_ne.
Qed.

Lemma page_edit_allocates_witness :
  exists st',
    Page.handleMessageEdit 0 0 example_store = Some st'
    /\ conversations st' = [RObj 2; RObj 1]
    /\ read (heap st') (RObj 0) = read (heap example_store) (RObj 0).
Proof.
  destruct (Page.handleMessageEdit 0 0 example_store) as [st'|] eqn:E;
    [|by vm_compute in E].
  destruct (page_edit_allocates 0 0 example_store st' E)
    as (_ & _ & Hread & Hconvs & _).
  exists st'. split; [done|]. split; [exact Hconvs|].
  apply Hread. vm_compute. lia.
Defined.

(** X10. An edit in page.tsx changes one line of the export: the line of
    the edited conversation becomes the text of the conversation with the
    draft as the content of the message, and every other line is what it
    was. *)
Theorem edit_changes_one_line (st : Store) (c m : nat) (r : ref)
    (o p : list (jsstring * value)) (msgs : list value) :
  store_ok st ->
  conversations st !! c = Some r ->
  read (heap st) r = Some (VObject o) ->
  lookup_property (str "messages") o = Some (VArray msgs) ->
  msgs !! m = Some (VObject p) ->
  selectedConversation st = r \/ ToBoolean (selectedConversation st) = false ->
  exists st',
    Page.handleMessageEdit (Z.of_nat c) m st = Some st'
    /\ export_lines (heap st') (conversations st')
       = <[c := serialize
                  (VObject (set_property (str "messages")
                     (VArray (<[m := VObject (set_property (str "content")
                                           (editedContent st) p)]> msgs)) o))]>
           (export_lines (heap st) (conversations st)).
Proof.
  intros (Hh & Hl & _) Hc Hr Ho Hm Hsel.
  destruct (page_edit_result st c m r o msgs Hc Hr Ho Hsel) as (ext & sel & He & _).
  rewrite Hm in He. cbn [default spread_object] in He.
  unfold array_set in He. rewrite decide_True in He by (by eapply lookup_lt_Some).
  eexists. split; [exact He|]. cbn [heap conversations].
  unfold export_lines. rewrite list_fmap_insert. cbn [read].
  rewrite lookup_app_r, Nat.sub_diag by lia. cbn [lookup list_lookup mbind option_bind].
  unfold JSON_stringify at 1. cbn [is_undefined default]. f_equal.
  apply map_ext_in. intros r' Hr'. apply list_elem_of_In in Hr'.
  rewrite read_app; [done|]. rewrite Forall_forall in Hl. by apply Hl.
Qed.

Lemma edit_changes_one_line_witness :
  exists st',
    Page.handleMessageEdit 0 0 example_store = Some st'
    /\ export_lines (heap st') (conversations st')
       = [json "{'messages':[{'role':'user','content':'hi there'}]}";
          json "{'messages':[{'role':'assistant','content':'hello'}]}"].
Proof.
  edestruct (edit_changes_one_line example_store 0 0) as (st' & He & Hx);
    [ split; [|split; [|vm_compute; lia]];
      [ change (heap example_store) with (heap (parseContent example_text initial))
      | change (conversations example_store) with [RObj 0; RObj 1] ];
      repeat constructor; try done; vm_compute; lia
    | reflexivity | reflexivity | reflexivity | reflexivity | left; reflexivity | ].
  exists st'. split; [exact He|]. rewrite Hx. vm_compute. reflexivity.
Defined.

(** ** From the pencil to the check button *)

Lemma indexOf_unique (l : list ref) (c loc : nat) :
  l !! c = Some (RObj loc) ->
  (forall j, l !! j = Some (RObj loc) -> j = c) ->
  indexOf l (RObj loc) = Z.of_nat c.
Proof.
  intros Hc Huniq. unfold indexOf.
  rewrite (indexOf_from_first l (RObj loc) 0 c Hc); [lia|by apply bool_decide_eq_true|].
  intros j y Hlt Hj. destruct y as [q|loc']; [by destruct q as [| | |[]|]|]. simpl.
  apply bool_decide_eq_false. intros ->. apply Huniq in Hj. lia.
Qed.

Lemma autoSelect_selected `{CaseMapping} st :
  store_ok st -> ToBoolean (selectedConversation st) = true -> autoSelect st = Some st.
Proof.
  intros Hok Hb. destruct (filtered_defined st Hok) as (kept & Hf & _).
  unfold autoSelect. rewrite Hf. simpl. destruct kept; [done|]. by rewrite Hb.
Qed.

(** The pencil on a message that is an object: the draft is its content,
    [undefined] when it has none. *)
Lemma startEditing_result st loc o msgs m p :
  selectedConversation st = RObj loc ->
  heap st !! loc = Some (VObject o) ->
  lookup_property (str "messages") o = Some (VArray msgs) ->
  msgs !! m = Some (VObject p) ->
  startEditing m st
  = Some {| heap := heap st; conversations := conversations st;
            selectedConversation := selectedConversation st;
            searchTerm := searchTerm st; errors := errors st;
            editingMessage := Some m;
            editedContent := default undefined (lookup_property (str "content") p) |}.
Proof.
  intros Hs Hl Ho Hm. unfold startEditing. rewrite Hs. simpl. rewrite Hl. simpl.
  rewrite Ho. simpl. by rewrite Hm.
Qed.

(** X11. Opening a message and saving it without typing changes no
    conversation (page.tsx): the pencil copies the content of the message,
    a string or not, to the draft, the check button writes it back, and the
    collection and the export are what they were. *)
Theorem open_then_save_changes_nothing (st : Store) (c m loc : nat)
    (o p : list (jsstring * value)) (msgs : list value) (v : value) :
  store_ok st ->
  conversations st !! c = Some (RObj loc) ->
  (forall j, conversations st !! j = Some (RObj loc) -> j = c) ->
  selectedConversation st = RObj loc ->
  heap st !! loc = Some (VObject o) ->
  lookup_property (str "messages") o = Some (VArray msgs) ->
  msgs !! m = Some (VObject p) ->
  lookup_property (str "content") p = Some v ->
  exists st1 st2,
    startEditing m st = Some st1
    /\ editingMessage st1 = Some m /\ editedContent st1 = v
    /\ Page.saveClick m st1 = Some st2
    /\ collection st2 = collection st
    /\ export_text (heap st2) (conversations st2) = export_text (heap st) (conversations st)
    /\ editingMessage st2 = None /\ editedContent st2 = VString [].
Proof.
  intros (Hh & Hl & _) Hc Huniq Hs Hloc Ho Hm Hp.
  rewrite (startEditing_result st loc o msgs m p Hs Hloc Ho Hm), Hp. cbn [default].
  set (st1 := {| heap := heap st; conversations := conversations st;
                 selectedConversation := selectedConversation st;
                 searchTerm := searchTerm st; errors := errors st;
                 editingMessage := Some m; editedContent := v |}).
  exists st1.
  assert (Hidx : indexOf (conversations st1) (selectedConversation st1) = Z.of_nat c).
  { subst st1. simpl. rewrite Hs. by apply indexOf_unique. }
  destruct (page_edit_result st1 c m (RObj loc) o msgs Hc Hloc Ho (or_introl Hs))
    as (ext & sel & He & _).
  assert (Hsame : VObject (set_property (str "messages")
                    (VArray (array_set msgs m
                       (VObject (set_property (str "content") (editedContent st1)
                                   (spread_object (default undefined (msgs !! m))))))) o)
                  = VObject o).
  { subst st1. cbn [editedContent]. rewrite Hm. cbn [default from_option id spread_object].
    rewrite (set_property_same _ _ _ Hp). unfold array_set.
    rewrite decide_True by (by eapply lookup_lt_Some).
    rewrite list_insert_id by done. by rewrite (set_property_same _ _ _ Ho). }
  rewrite Hsame in He.
  eexists. split; [reflexivity|]. split; [reflexivity|]. split; [reflexivity|].
  unfold Page.saveClick. rewrite Hidx. split; [exact He|].
  assert (Hnew : read (heap st ++ VObject o :: ext) (RObj (length (heap st)))
                 = read (heap st) (RObj loc)).
  { simpl. rewrite lookup_app_r, Nat.sub_diag by lia. by rewrite Hloc. }
  assert (Hold : forall y, y ∈ conversations st ->
                   read (heap st ++ VObject o :: ext) y = read (heap st) y).
  { intros y Hy. apply read_app. rewrite Forall_forall in Hl. by apply Hl. }
  cbn [heap conversations editingMessage editedContent]. subst st1. cbn [heap conversations].
  split; [|split; [|done]].
  - unfold collection. cbn [heap conversations].
    exact (omap_insert_same (read (heap st)) (read (heap st ++ VObject o :: ext))
             (conversations st) c (RObj loc) (RObj (length (heap st))) Hc Hnew Hold).
  - unfold export_text, export_lines. f_equal.
    change (map ?f ?l) with (f <$> l). rewrite list_fmap_insert, Hnew.
    assert (Hmap : (fun conv => default [] (read (heap st ++ VObject o :: ext) conv
                                            ≫= JSON_stringify)) <$> conversations st
                   = (fun conv => default [] (read (heap st) conv ≫= JSON_stringify))
                       <$> conversations st).
    { apply list_fmap_ext. intros i y Hy. rewrite Hold; [done|].
      by eapply list_elem_of_lookup_2. }
    rewrite Hmap. apply list_insert_id. by rewrite list_lookup_fmap, Hc.
Qed.

Lemma open_then_save_changes_nothing_witness :
  let st := handleConversationSelect 0 (parseContent example_text initial) in
  exists st1 st2,
    startEditing 0 st = Some st1 /\ Page.saveClick 0 st1 = Some st2
    /\ collection st2 = collection st.
Proof.
  intros st.
  edestruct (open_then_save_changes_nothing st 0 0 0)
    as (st1 & st2 & H1 & _ & _ & H2 & H3 & _).
  - apply select_store_ok, (parseContent_store_ok example_text initial). constructor.
  - reflexivity.
  - intros [|[|[|j]]]; vm_compute; congruence.
  - reflexivity.
  - reflexivity.
  - reflexivity.
  - reflexivity.
  - reflexivity.
  - exists st1, st2. split; [exact H1|]. split; [exact H2|exact H3].
Defined.

(** X12. The path of the user in page.tsx: a click on a conversation, the
    pencil of one of its messages (whatever its content is), a draft typed
    in the text area, the check button. Nothing throws, the content of that
    message is the draft, the edit target is none and the draft is empty
    again. *)
Theorem select_edit_save `{CaseMapping} (st : Store) (c m loc : nat)
    (o p : list (jsstring * value)) (msgs : list value) (draft : jsstring) :
  store_ok st ->
  conversations st !! c = Some (RObj loc) ->
  (forall j, conversations st !! j = Some (RObj loc) -> j = c) ->
  heap st !! loc = Some (VObject o) ->
  lookup_property (str "messages") o = Some (VArray msgs) ->
  msgs !! m = Some (VObject p) ->
  exists st',
    Page.run [Page.Select (Z.of_nat c); Page.Pencil m; Page.Type_ draft; Page.Save m] st
    = Some st'
    /\ message_field st' c m (str "content") = Some (VString draft)
    /\ length (conversations st') = length (conversations st)
    /\ editingMessage st' = None /\ editedContent st' = VString [].
Proof.
  intros Hok Hc Huniq Hloc Ho Hm. pose proof Hok as (Hh & Hl & _).
  assert (Hlt : loc < length (heap st)) by (by eapply lookup_lt_Some).
  unfold Page.run, Page.dispatch.
  set (st1 := handleConversationSelect (Z.of_nat c) st).
  assert (Hs1 : selectedConversation st1 = RObj loc).
  { subst st1. simpl. by apply ref_at_of_nat. }
  assert (Hok1 : store_ok st1).
  { subst st1. split; [done|]. split; [done|]. rewrite Hs1. done. }
  rewrite (autoSelect_selected st1 Hok1) by (by rewrite Hs1). cbn [mbind option_bind].
  rewrite (startEditing_result st1 loc o msgs m p Hs1 Hloc Ho Hm).
  cbn [mbind option_bind]. unfold setEditedContent.
  cbn [heap conversations selectedConversation searchTerm errors editingMessage editedContent].
  match goal with
  | |- context [Page.saveClick m ?x] => set (st3 := x)
  end.
  assert (Hidx : indexOf (conversations st3) (selectedConversation st3) = Z.of_nat c).
  { subst st3 st1. simpl. rewrite (ref_at_of_nat _ _ _ Hc). by apply indexOf_unique. }
  destruct (page_edit_result st3 c m (RObj loc) o msgs Hc Hloc Ho (or_introl Hs1))
    as (ext & sel & He & Hsel & _).
  destruct (Hsel Hs1) as [-> ->].
  rewrite Hm in He. cbn [default spread_object] in He.
  unfold array_set in He. rewrite decide_True in He by (by eapply lookup_lt_Some).
  unfold Page.saveClick. rewrite Hidx, He. cbn [mbind option_bind].
  match goal with
  | |- context [autoSelect ?x] => set (st4 := x)
  end.
  assert (Hok4 : store_ok st4).
  { apply (page_edit_store_ok st3 c); [done|by eapply lookup_lt_Some|done| |].
    - by repeat constructor.
    - simpl. rewrite length_app. simpl. lia. }
  rewrite (autoSelect_selected st4 Hok4) by done. cbn [mbind option_bind].
  exists st4. split; [done|]. split; [|split; [|done]].
  - unfold message_field. subst st4. cbn [heap conversations].
    rewrite list_lookup_insert_eq by (by eapply lookup_lt_Some). simpl.
    rewrite lookup_app_r, Nat.sub_diag by lia. simpl.
    rewrite lookup_set_property_eq. simpl.
    rewrite list_lookup_insert_eq by (by eapply lookup_lt_Some). simpl.
    by rewrite lookup_set_property_eq.
  - subst st4. simpl. by rewrite length_insert.
Qed.

Lemma select_edit_save_witness :
  exists st',
    @Page.run latin1_case
      [Page.Select 1; Page.Pencil 0; Page.Type_ (str "bye"); Page.Save 0]
      (parseContent example_text initial) = Some st'
    /\ message_field st' 1 0 (str "content") = Some (VString (str "bye")).
Proof.
  edestruct (@select_edit_save latin1_case (parseContent example_text initial) 1 0 1)
    as (st' & Hr & Hf & _).
  - apply (parseContent_store_ok example_text initial). constructor.
  - reflexivity.
  - intros [|[|[|j]]]; vm_compute; congruence.
  - reflexivity.
  - reflexivity.
  - reflexivity.
  - exists st'. split; [exact Hr|exact Hf].
Defined.

(** ** Indices out of range *)

(** X13. A conversation index outside the collection, such as the [-1]
    that [indexOf] answers for a selection that is no conversation, makes
    the edit throw in both copies of the component. *)
Theorem edit_outside_collection (index : Z) (m : nat) (ok : bool) (st : Store) :
  (index < 0 \/ Z.of_nat (length (conversations st)) <= index)%Z ->
  Page.handleMessageEdit index m st = None
  /\ JsonlEditor.handleMessageEdit ok index m st = None.
Proof.
  intros Hrange.
  assert (Hu : ref_at (conversations st) index = RPrim PUndefined).
  { destruct (ref_at_cases (conversations st) index) as [(i & -> & Hi)|[_ Hu]]; [|done].
    apply lookup_lt_Some in Hi. lia. }
  unfold Page.handleMessageEdit, Page.updateConversations, JsonlEditor.handleMessageEdit.
  by rewrite Hu.
Qed.

Lemma edit_outside_collection_witness :
  Page.handleMessageEdit (-1) 0 example_store = None
  /\ JsonlEditor.handleMessageEdit true (-1) 0 example_store = None.
Proof. apply (edit_outside_collection (-1) 0 true example_store). left. lia. Defined.

(** X14. A message index past the last message. In page.tsx the write
    extends the copy of the array: the messages are followed by empty slots
    up to the index and by a message that has the draft for content and no
    role. In the second copy of the component the assignment throws. *)
Theorem edit_past_last_message (st : Store) (c m : nat) (r : ref) (ok : bool)
    (o : list (jsstring * value)) (msgs : list value) :
  conversations st !! c = Some r ->
  read (heap st) r = Some (VObject o) ->
  lookup_property (str "messages") o = Some (VArray msgs) ->
  length msgs <= m ->
  selectedConversation st = r \/ ToBoolean (selectedConversation st) = false ->
  (exists st',
     Page.handleMessageEdit (Z.of_nat c) m st = Some st'
     /\ messages_of st' c
        = Some (msgs ++ replicate (m - length msgs) undefined
                  ++ [VObject [(str "content", editedContent st)]]))
  /\ JsonlEditor.handleMessageEdit ok (Z.of_nat c) m st = None.
Proof.
  intros Hc Hr Ho Hm Hsel. split.
  - destruct (page_edit_result st c m r o msgs Hc Hr Ho Hsel) as (ext & sel & He & _).
    eexists. split; [exact He|].
    unfold messages_of. cbn [heap conversations].
    rewrite list_lookup_insert_eq by (by eapply lookup_lt_Some). simpl.
    rewrite lookup_app_r, Nat.sub_diag by lia. simpl.
    rewrite lookup_set_property_eq. simpl.
    rewrite (lookup_ge_None_2 msgs m) by done. simpl.
    unfold array_set. rewrite decide_False by lia. done.
  - unfold JsonlEditor.handleMessageEdit. rewrite (ref_at_of_nat _ _ _ Hc).
    destruct r as [q|loc]; [done|]. simpl in Hr. rewrite Hr. simpl. rewrite Ho. simpl.
    by rewrite (lookup_ge_None_2 msgs m) by done.
Qed.

Lemma edit_past_last_message_witness :
  exists st',
    Page.handleMessageEdit 0 2 example_store = Some st'
    /\ messages_of st' 0
       = Some [VObject [(str "role", VString (str "user"));
                        (str "content", VString (str "hi"))];
               undefined;
               VObject [(str "content", VString (str "hi there"))]].
Proof.
  destruct (edit_past_last_message example_store 0 2 (RObj 0) true
              [(str "messages", VArray [VObject [(str "role", VString (str "user"));
                                                 (str "content", VString (str "hi"))]])]
              [VObject [(str "role", VString (str "user"));
                        (str "content", VString (str "hi"))]])
    as [(st' & He & Hm) _]; [reflexivity|reflexivity|reflexivity|simpl; lia|left; reflexivity|].
  exists st'. split; [exact He|exact Hm].
Defined.

(** ** The second copy of the component: edits in place *)

(** What the edit returns for a message that exists. *)
Lemma editor_edit_result ok st c m loc o p msgs :
  conversations st !! c = Some (RObj loc) ->
  heap st !! loc = Some (VObject o) ->
  lookup_property (str "messages") o = Some (VArray msgs) ->
  msgs !! m = Some (VObject p) ->
  let conv' :=
    VObject (replace_property (str "messages")
               (VArray (<[m := VObject (set_property (str "content")
                                          (editedContent st) p)]> msgs)) o) in
  JsonlEditor.handleMessageEdit ok (Z.of_nat c) m st
  = Some ({| heap := <[loc := conv']> (heap st);
             conversations := conversations st;
             selectedConversation := RObj loc;
             searchTerm := searchTerm st; errors := errors st;
             editingMessage := None; editedContent := VString [] |},
          JsonlEditor.updateServerCode ok
            (export_text (<[loc := conv']> (heap st)) (conversations st))).
Proof.
  intros Hc Hloc Ho Hm conv'. subst conv'.
  unfold JsonlEditor.handleMessageEdit. rewrite (ref_at_of_nat _ _ _ Hc), Hloc. simpl.
  rewrite Ho. simpl. rewrite Hm. simpl. done.
Qed.

(** X15. An edit in the second copy of the component changes the object
    where it is. For a conversation that the collection holds once and a
    message of it, the edit returns; the collection holds the same objects
    at the same positions, the store of objects has the same size and every
    other object is what it was; the selection is the edited conversation;
    the content of the message is the draft and every other field of every
    message of every conversation is what it was; the edit target is none
    and the draft is empty. *)
Theorem editor_edit_in_place (ok : bool) (st : Store) (c m loc : nat)
    (o p : list (jsstring * value)) (msgs : list value) :
  conversations st !! c = Some (RObj loc) ->
  (forall j, conversations st !! j = Some (RObj loc) -> j = c) ->
  heap st !! loc = Some (VObject o) ->
  lookup_property (str "messages") o = Some (VArray msgs) ->
  msgs !! m = Some (VObject p) ->
  exists st' eff,
    JsonlEditor.handleMessageEdit ok (Z.of_nat c) m st = Some (st', eff)
    /\ conversations st' = conversations st
    /\ selectedConversation st' = RObj loc
    /\ length (heap st') = length (heap st)
    /\ (forall loc', loc' <> loc -> heap st' !! loc' = heap st !! loc')
    /\ message_field st' c m (str "content") = Some (editedContent st)
    /\ (forall c' m' k, (c', m', k) <> (c, m, str "content") ->
          message_field st' c' m' k = message_field st c' m' k)
    /\ editingMessage st' = None /\ editedContent st' = VString [].
Proof.
  intros Hc Huniq Hloc Ho Hm.
  rewrite (editor_edit_result ok st c m loc o p msgs Hc Hloc Ho Hm).
  set (msgs' := <[m := VObject (set_property (str "content") (editedContent st) p)]>
                  msgs).
  set (conv' := VObject (replace_property (str "messages") (VArray msgs') o)).
  assert (Hlt : loc < length (heap st)) by (by eapply lookup_lt_Some).
  assert (Hnew : forall m' k,
    message_field
      {| heap := <[loc := conv']> (heap st); conversations := conversations st;
         selectedConversation := RObj loc; searchTerm := searchTerm st;
         errors := errors st; editingMessage := None; editedContent := VString [] |} c m' k
    = get_index (VArray msgs') m' ≫= fun message => get_named message k).
  { intros m' k. unfold message_field. cbn [heap conversations]. rewrite Hc. simpl.
    rewrite list_lookup_insert_eq by done. simpl.
    by rewrite (lookup_replace_eq _ _ _ _ Ho). }
  assert (Hold : forall m' k,
    message_field st c m' k = get_index (VArray msgs) m' ≫= fun message => get_named message k).
  { intros m' k. unfold message_field. rewrite Hc. simpl. rewrite Hloc. simpl.
    by rewrite Ho. }
  do 2 eexists. split; [reflexivity|]. cbn [heap conversations selectedConversation
                                            editingMessage editedContent].
  split; [done|]. split; [done|]. split; [by rewrite length_insert|].
  split; [intros loc' Hne; by rewrite list_lookup_insert_ne|].
  split; [|split; [|done]].
  - rewrite Hnew. simpl. unfold msgs'.
    rewrite list_lookup_insert_eq by (by eapply lookup_lt_Some). simpl.
    by rewrite lookup_set_property_eq.
  - intros c' m' k Hne. destruct (decide (c' = c)) as [->|Hnc].
    + rewrite Hnew, Hold. simpl. unfold msgs'.
      destruct (decide (m' = m)) as [->|Hnm].
      * rewrite list_lookup_insert_eq by (by eapply lookup_lt_Some). rewrite Hm. simpl.
        rewrite lookup_set_property_ne; [done|]. congruence.
      * by rewrite list_lookup_insert_ne by done.
    + unfold message_field. cbn [heap conversations].
      destruct (conversations st !! c') as [[q|loc']|] eqn:Hc'; simpl; [done| |done].
      rewrite list_lookup_insert_ne; [done|]. intros <-. apply Huniq in Hc'. done.
Qed.

Lemma editor_edit_in_place_witness :
  exists st' eff,
    JsonlEditor.handleMessageEdit true 0 0 example_store = Some (st', eff)
    /\ conversations st' = conversations example_store
    /\ message_field st' 0 0 (str "content") = Some (VString (str "hi there")).
Proof.
  edestruct (editor_edit_in_place true example_store 0 0 0)
    as (st' & eff & He & Hc & _ & _ & _ & Hf & _).
  - reflexivity.
  - intros [|[|[|j]]]; vm_compute; congruence.
  - reflexivity.
  - reflexivity.
  - reflexivity.
  - exists st', eff. split; [exact He|]. split; [exact Hc|exact Hf].
Defined.

(** X16. In the second copy of the component a message can be edited
    again after a save: the selection is still a conversation of the
    collection and [indexOf] finds it; the pencil opens the message with the
    content that was just saved; and a second draft is written to the same
    message. *)
Theorem editor_save_can_be_repeated (ok : bool) (st : Store) (c m loc : nat)
    (o p : list (jsstring * value)) (msgs : list value) (draft : jsstring) :
  conversations st !! c = Some (RObj loc) ->
  (forall j, conversations st !! j = Some (RObj loc) -> j = c) ->
  selectedConversation st = RObj loc ->
  heap st !! loc = Some (VObject o) ->
  lookup_property (str "messages") o = Some (VArray msgs) ->
  msgs !! m = Some (VObject p) ->
  exists st1 eff1 st1' st2 eff2,
    JsonlEditor.saveClick ok m st = Some (st1, eff1)
    /\ selection_valid st1
    /\ indexOf (conversations st1) (selectedConversation st1) = Z.of_nat c
    /\ startEditing m st1 = Some st1'
    /\ editedContent st1' = editedContent st
    /\ JsonlEditor.saveClick ok m (setEditedContent draft st1') = Some (st2, eff2)
    /\ selection_valid st2
    /\ message_field st2 c m (str "content") = Some (VString draft).
Proof.
  intros Hc Huniq Hs Hloc Ho Hm.
  assert (Hlt : loc < length (heap st)) by (by eapply lookup_lt_Some).
  assert (Hidx : indexOf (conversations st) (RObj loc) = Z.of_nat c)
    by (by apply indexOf_unique).
  unfold JsonlEditor.saveClick at 1. rewrite Hs, Hidx.
  rewrite (editor_edit_result ok st c m loc o p msgs Hc Hloc Ho Hm).
  set (p' := set_property (str "content") (editedContent st) p).
  set (msgs' := <[m := VObject p']> msgs).
  set (o' := replace_property (str "messages") (VArray msgs') o).
  set (st1 := {| heap := <[loc := VObject o']> (heap st);
                 conversations := conversations st;
                 selectedConversation := RObj loc;
                 searchTerm := searchTerm st; errors := errors st;
                 editingMessage := None; editedContent := VString [] |}).
  assert (Hloc1 : heap st1 !! loc = Some (VObject o')).
  { simpl. by rewrite list_lookup_insert_eq. }
  assert (Ho1 : lookup_property (str "messages") o' = Some (VArray msgs')).
  { by apply (lookup_replace_eq _ _ _ _ Ho). }
  assert (Hm1 : msgs' !! m = Some (VObject p')).
  { unfold msgs'. by rewrite list_lookup_insert_eq by (by eapply lookup_lt_Some). }
  assert (Hp1 : lookup_property (str "content") p' = Some (editedContent st)).
  { apply lookup_set_property_eq. }
  pose proof (startEditing_result st1 loc o' msgs' m p' eq_refl Hloc1 Ho1 Hm1) as Hpencil.
  rewrite Hp1 in Hpencil. cbn [default] in Hpencil.
  set (st1' := {| heap := heap st1; conversations := conversations st1;
                  selectedConversation := selectedConversation st1;
                  searchTerm := searchTerm st1; errors := errors st1;
                  editingMessage := Some m; editedContent := editedContent st |}) in *.
  pose proof (editor_edit_result ok (setEditedContent draft st1') c m loc o' p' msgs'
                Hc Hloc1 Ho1 Hm1) as He2.
  exists st1. eexists. exists st1'. do 2 eexists. split; [reflexivity|].
  split; [right; by exists c|]. split; [exact Hidx|].
  split; [exact Hpencil|]. split; [done|].
  split; [unfold JsonlEditor.saveClick; simpl; rewrite Hidx; exact He2|].
  split; [right; by exists c|].
  unfold message_field. cbn [heap conversations editedContent setEditedContent st1' st1].
  rewrite Hc. simpl.
  rewrite list_lookup_insert_eq by (by rewrite length_insert). simpl.
  rewrite (lookup_replace_eq _ _ _ _ Ho1). simpl.
  rewrite list_lookup_insert_eq by (by eapply lookup_lt_Some). simpl.
  by rewrite lookup_set_property_eq.
Qed.

Lemma editor_save_can_be_repeated_witness :
  exists st1 eff1 st1' st2 eff2,
    JsonlEditor.saveClick true 0 example_store = Some (st1, eff1)
    /\ startEditing 0 st1 = Some st1'
    /\ JsonlEditor.saveClick true 0 (setEditedContent (str "again") st1') = Some (st2, eff2)
    /\ message_field st2 0 0 (str "content") = Some (VString (str "again")).
Proof.
  edestruct (editor_save_can_be_repeated true example_store 0 0 0)
    as (st1 & eff1 & st1' & st2 & eff2 & H1 & _ & _ & Hp & _ & H2 & _ & Hf).
  - reflexivity.
  - intros [|[|[|j]]]; vm_compute; congruence.
  - reflexivity.
  - reflexivity.
  - reflexivity.
  - reflexivity.
  - exists st1, eff1, st1', st2, eff2. split; [exact H1|]. split; [exact Hp|].
    split; [exact H2|exact Hf].
Defined.

(** ** What the second copy of the component sends to the server *)

Lemma code_body_decodes text :
  JSON_parse (serialize (VObject [(str "code", VString text)]))
  = Some (VObject [(str "code", VString text)]).
Proof. by rewrite JSON_parse_serialize. Qed.

(** X17. The request of [updateServerCode]: its body is a JSON text on one
    line that reads back as an object with the text under [code], whatever
    code units the text holds; a request that fails adds one notification,
    a request that succeeds adds nothing. An upload sends the text of the
    file as it is, the blank lines and the lines that do not parse included,
    while the state keeps what [parseContent] makes of it. *)
Theorem server_receives_the_text (ok : bool) (content : jsstring) (st : Store) :
  exists body notes,
    JsonlEditor.updateServerCode ok content = Post (str "/api/update-jsonl") body :: notes
    /\ JSON_parse body = Some (VObject [(str "code", VString content)])
    /\ Forall (fun c => c <> 10%N) body
    /\ length notes = (if ok then 0 else 1)
    /\ JsonlEditor.handleFileUpload ok content st
       = (parseContent content st, Post (str "/api/update-jsonl") body :: notes).
Proof.
  unfold JsonlEditor.handleFileUpload, JsonlEditor.updateServerCode.
  do 2 eexists. split; [reflexivity|]. split; [apply code_body_decodes|].
  split; [apply printable_no_newline, printable_serialize|].
  split; [by destruct ok|done].
Qed.

(** X18. After an edit the second copy of the component sends the export
    of the collection as it is after the edit: the body of the request
    reads back as an object with that export under [code]. *)
Theorem edit_posts_the_new_export (ok : bool) (st : Store) (c m loc : nat)
    (o p : list (jsstring * value)) (msgs : list value) :
  conversations st !! c = Some (RObj loc) ->
  heap st !! loc = Some (VObject o) ->
  lookup_property (str "messages") o = Some (VArray msgs) ->
  msgs !! m = Some (VObject p) ->
  exists st' body notes,
    JsonlEditor.handleMessageEdit ok (Z.of_nat c) m st
    = Some (st', Post (str "/api/update-jsonl") body :: notes)
    /\ JSON_parse body
       = Some (VObject [(str "code",
                         VString (export_text (heap st') (conversations st')))]).
Proof.
  intros Hc Hloc Ho Hm.
  rewrite (editor_edit_result ok st c m loc o p msgs Hc Hloc Ho Hm).
  unfold JsonlEditor.updateServerCode. do 3 eexists. split; [reflexivity|].
  apply code_body_decodes.
Qed.

Lemma edit_posts_the_new_export_witness :
  exists st' body notes,
    JsonlEditor.handleMessageEdit true 0 0 example_store
    = Some (st', Post (str "/api/update-jsonl") body :: notes)
    /\ JSON_parse body
       = Some (VObject [(str "code",
                         VString (export_text (heap st') (conversations st')))]).
Proof.
  by apply (edit_posts_the_new_export true example_store 0 0 0
              [(str "messages", VArray [VObject [(str "role", VString (str "user"));
                                                 (str "content", VString (str "hi"))]])]
              [(str "role", VString (str "user")); (str "content", VString (str "hi"))]
              [VObject [(str "role", VString (str "user"));
                        (str "content", VString (str "hi"))]]).
Defined.

(** ** The list of conversations *)

(** X19. The button of a conversation that the collection holds once, an
    object whose messages are an array of objects with a string for
    content: the render does not throw; the key and the click target are
    the position of the conversation, so that the click selects it; the text
    is the label that the filter uses, a colon, at most thirty code units
    from the head of the content of the second message (nothing when there
    is no second message) and three dots; the button is drawn as selected
    exactly when the selection is this very object. *)
Theorem list_item_of_conversation (st : Store) (i loc : nat)
    (o : list (jsstring * value)) (msgs : list value) :
  conversations st !! i = Some (RObj loc) ->
  (forall j, conversations st !! j = Some (RObj loc) -> j = i) ->
  heap st !! loc = Some (VObject o) ->
  lookup_property (str "messages") o = Some (VArray msgs) ->
  Forall (fun message => exists p s, message = VObject p
                         /\ lookup_property (str "content") p = Some (VString s)) msgs ->
  exists item shown,
    listItem st (RObj loc) = Some item
    /\ key item = Z.of_nat i /\ target item = Z.of_nat i
    /\ selectedConversation (handleConversationSelect (target item) st) = RObj loc
    /\ highlighted item = bool_decide (selectedConversation st = RObj loc)
    /\ text item = label i ++ str ":" ++ shown ++ str "..."
    /\ length shown <= 30
    /\ (forall p s, msgs !! 1 = Some (VObject p) ->
          lookup_property (str "content") p = Some (VString s) -> shown = take 30 s)
    /\ (length msgs < 2 -> shown = []).
Proof.
  intros Hi Huniq Hloc Ho Hmsgs.
  assert (Hidx : indexOf (conversations st) (RObj loc) = Z.of_nat i)
    by (by apply indexOf_unique).
  assert (Hp : exists shown,
    preview (VObject o) = Some shown
    /\ length (default [] shown) <= 30
    /\ (forall p s, msgs !! 1 = Some (VObject p) ->
          lookup_property (str "content") p = Some (VString s) ->
          default [] shown = take 30 s)
    /\ (length msgs < 2 -> default [] shown = [])).
  { unfold preview. simpl. rewrite Ho. simpl.
    destruct (msgs !! 1) as [message|] eqn:H1; simpl.
    - rewrite Forall_forall in Hmsgs.
      destruct (Hmsgs message) as (p & s & -> & Hs); [by eapply list_elem_of_lookup_2|].
      simpl. rewrite Hs. simpl. eexists. split; [reflexivity|]. simpl.
      split; [rewrite length_take; lia|]. split.
      + intros p' s' [= <-] Hs'. congruence.
      + intros Hlen. apply lookup_lt_Some in H1. lia.
    - exists None. split; [done|]. simpl. split; [lia|]. split; [done|done]. }
  destruct Hp as (shown & Hp & Hlen & Hsecond & Hnone).
  unfold listItem. rewrite Hidx. cbn [read]. rewrite Hloc. cbn [mbind option_bind].
  rewrite Hp. cbn [mbind option_bind].
  eexists _, (default [] shown). split; [reflexivity|]. cbn [key target highlighted text].
  split; [done|]. split; [done|].
  split; [unfold handleConversationSelect; cbn [selectedConversation];
          by apply ref_at_of_nat|].
  split; [|split; [|done]].
  - destruct (selectedConversation st) as [q|loc'] eqn:Hs.
    + rewrite bool_decide_eq_false_2 by done. by destruct q as [| | |[]|].
    + cbn [strict_equals]. apply bool_decide_ext.
      split; [by intros ->|by intros [= ->]].
  - unfold label. rewrite <- !app_assoc.
    by replace (Z.of_nat (i + 1)) with (Z.of_nat i + 1)%Z by lia.
Qed.

Lemma list_item_of_conversation_witness :
  exists item,
    listItem (parseContent example_text initial) (RObj 1) = Some item
    /\ text item = str "Conversation 2:..." /\ target item = 1%Z.
Proof.
  edestruct (list_item_of_conversation (parseContent example_text initial) 1 1)
    as (item & shown & Hitem & _ & Ht & _ & _ & Htext & _ & _ & Hnone).
  - reflexivity.
  - intros [|[|[|j]]]; vm_compute; congruence.
  - reflexivity.
  - reflexivity.
  - repeat constructor. by do 2 eexists.
  - exists item. split; [exact Hitem|]. split; [|exact Ht].
    rewrite Htext, Hnone; [reflexivity|simpl; lia].
Defined.

(** X20. The list needs [messages]. When the button of a conversation is
    rendered without a TypeError, the conversation is an object with a
    property [messages] that is not [null]: a line that is valid JSON but
    is a number, a string, [null], an array, or an object without messages,
    is imported without an error and then makes the render throw. *)
Theorem list_needs_messages (st : Store) (conv : ref) (item : ListItem) :
  listItem st conv = Some item ->
  exists loc o messages,
    conv = RObj loc /\ heap st !! loc = Some (VObject o)
    /\ lookup_property (str "messages") o = Some messages
    /\ messages <> VNull /\ messages <> undefined.
Proof.
  unfold listItem. intros Hitem.
  destruct (read (heap st) conv) as [v|] eqn:Hv; [|done]. simpl in Hitem.
  destruct (preview v) as [shown|] eqn:Hp; [|done]. clear Hitem.
  unfold preview in Hp.
  destruct v as [q|l|o].
  - by destruct q.
  - done.
  - destruct conv as [q|loc]; [done|]. simpl in Hv, Hp.
    destruct (lookup_property (str "messages") o) as [messages|] eqn:Ho; [|done].
    exists loc, o, messages. repeat split; try done; intros ->; done.
Qed.

Lemma list_needs_messages_witness :
  exists loc o messages,
    RObj 0 = RObj loc
    /\ heap (parseContent example_text initial) !! loc = Some (VObject o)
    /\ lookup_property (str "messages") o = Some messages.
Proof.
  destruct (listItem (parseContent example_text initial) (RObj 0)) as [item|] eqn:E;
    [|by vm_compute in E].
  destruct (list_needs_messages _ _ _ E) as (loc & o & messages & H1 & H2 & H3 & _).
  by exists loc, o, messages.
Defined.

(** ** The round trip settles *)

Lemma canonical_keys o1 o2 : map fst o1 = map fst o2 -> canonical o1 -> canonical o2.
Proof. unfold canonical. by intros ->. Qed.

(** The normal form of an object whose keys are in order: the same keys,
    each with the normal form of its value. *)
Lemma normal_members_map o : forall acc,
  canonical (acc ++ o) ->
  Forall (fun kv => is_undefined kv.2 = false) o ->
  normal_members o acc = acc ++ map (fun kv => (kv.1, JSON_normal kv.2)) o.
Proof.
  induction o as [|[k x] o IH]; intros acc Hcan Ho; [by rewrite app_nil_r|].
  inversion Ho as [|? ? Hx Ho']; subst. simpl in Hx.
  cbn [normal_members]. rewrite Hx. cbn [map fst snd].
  assert (Hcan' : canonical ((acc ++ [(k, JSON_normal x)]) ++ o)).
  { eapply canonical_keys; [|exact Hcan]. rewrite !map_app. simpl.
    by rewrite <- app_assoc. }
  rewrite set_property_last by (by eapply canonical_prefix).
  rewrite (IH _ Hcan' Ho'). by rewrite <- app_assoc.
Qed.

Lemma number_normal_zero neg : number_normal (NZero neg) = NZero false.
Proof. reflexivity. Qed.

Lemma parsed_wf_defined v : parsed_wf v -> is_undefined v = false.
Proof. by destruct v as [[]| |]. Qed.

(** The normal form of a value that [JSON.parse] returned has the same
    text, and its numbers are finite and not -0. *)
Lemma normal_of_parsed v :
  parsed_wf v ->
  exact_numbers (JSON_normal v) = true /\ serialize (JSON_normal v) = serialize v.
Proof.
  induction v as [q|l IH|o IH] using value_ind'.
  - destruct q as [| |b|x|s]; try done. intros Hwf.
    destruct x as [neg|neg m e|neg]; [done| |done].
    change (JSON_normal (VNumber (NFinite neg m e)))
      with (VNumber (number_normal (NFinite neg m e))).
    by rewrite number_normal_exact.
  - intros Hwf%parsed_wf_array.
    change (JSON_normal (VArray l)) with (VArray (map JSON_normal l)).
    rewrite exact_numbers_array, !serialize_array, map_map.
    assert (Hall : Forall (fun x => exact_numbers (JSON_normal x) = true
                                    /\ serialize (JSON_normal x) = serialize x) l).
    { rewrite Forall_forall in IH, Hwf |- *. intros x Hx. by apply IH; [|apply Hwf]. }
    split.
    + apply Forall_fmap. eapply Forall_impl; [exact Hall|]. by intros x [? _].
    + do 3 f_equal. apply map_ext_in. intros x Hx%list_elem_of_In.
      rewrite Forall_forall in Hall. by apply Hall.
  - intros [Hcan Hwf]%parsed_wf_object.
    rewrite JSON_normal_object.
    rewrite (normal_members_map o []); [|done|].
    2: { eapply Forall_impl; [exact Hwf|]. intros kv. apply parsed_wf_defined. }
    cbn [app]. rewrite exact_numbers_object, !serialize_object.
    assert (Hall : Forall (fun kv => exact_numbers (JSON_normal kv.2) = true
                                     /\ serialize (JSON_normal kv.2) = serialize kv.2) o).
    { rewrite Forall_forall in IH, Hwf |- *. intros kv Hkv. by apply IH; [|apply Hwf]. }
    split.
    + apply Forall_fmap. eapply Forall_impl; [exact Hall|]. by intros kv [? _].
    + do 3 f_equal. clear -Hall Hwf.
      induction o as [|[k x] o IHo]; [done|].
      inversion Hall as [|? ? [_ Hx] Hall']; inversion Hwf as [|? ? Hwx Hwf']; subst.
      simpl in Hx, Hwx. cbn [map fst snd serialize_members].
      rewrite (parsed_wf_defined x Hwx).
      assert (is_undefined (JSON_normal x) = false) as ->.
      { apply parsed_wf_defined. eapply JSON_parse_wf, JSON_parse_serialize. }
      rewrite Hx. f_equal. by apply IHo.
Qed.

Lemma normal_idempotent v : parsed_wf v -> JSON_normal (JSON_normal v) = JSON_normal v.
Proof.
  intros Hwf. apply JSON_normal_id.
  - eapply JSON_parse_wf, JSON_parse_serialize.
  - by apply normal_of_parsed.
Qed.

(** The lines of the export after an import are the texts of the
    collection. *)
Lemma imported_export_lines input st :
  let st1 := parseContent input st in
  export_lines (heap st1) (conversations st1) = map serialize (collection st1).
Proof.
  intros st1. destruct (parseContent_collection input st) as [Hlen Hwf].
  apply export_lines_values; [done|done|].
  eapply Forall_impl; [exact Hwf|]. by intros v [_ ?].
Qed.

(** X21. The export is stable under a round trip: exporting an imported
    collection, importing that export and exporting again gives the same
    text, code unit for code unit, whatever the numbers of the file. *)
Theorem export_is_stable (input : jsstring) (st st0 : Store) :
  let st1 := parseContent input st in
  let text1 := export_text (heap st1) (conversations st1) in
  let st2 := parseContent text1 st0 in
  export_text (heap st2) (conversations st2) = text1.
Proof.
  intros st1 text1 st2.
  assert (H1 : export_lines (heap st1) (conversations st1) = map serialize (collection st1))
    by apply imported_export_lines.
  assert (H2 : export_lines (heap st2) (conversations st2) = map serialize (collection st2))
    by apply imported_export_lines.
  assert (Hc : collection st2 = map JSON_normal (collection st1))
    by apply (reimport input st st0).
  destruct (parseContent_collection input st) as [_ Hwf].
  change (Forall (fun v => parsed_wf v /\ v <> undefined) (collection st1)) in Hwf.
  unfold text1, export_text. rewrite H2, H1, Hc, map_map. f_equal.
  apply map_ext_in. intros v Hv%list_elem_of_In.
  rewrite Forall_forall in Hwf. by apply normal_of_parsed, Hwf.
Qed.

(** X22. The round trip settles after one cycle: the collection that an
    export and an import give back is left as it is by a second export and
    import, also when the first cycle turned a number that is not finite
    into [null] or a negative zero into zero. *)
Theorem second_round_trip_is_identity (input : jsstring) (st st0 st0' : Store) :
  let st1 := parseContent input st in
  let st2 := parseContent (export_text (heap st1) (conversations st1)) st0 in
  let st3 := parseContent (export_text (heap st2) (conversations st2)) st0' in
  collection st3 = collection st2 /\ errors st3 = [].
Proof.
  intros st1 st2 st3.
  assert (Hc2 : collection st2 = map JSON_normal (collection st1))
    by apply (reimport input st st0).
  assert (H3 : collection st3 = map JSON_normal (collection st2) /\ errors st3 = [])
    by apply (reimport (export_text (heap st1) (conversations st1)) st0 st0').
  destruct H3 as [Hc3 He3]. split; [|done].
  destruct (parseContent_collection input st) as [_ Hwf].
  change (Forall (fun v => parsed_wf v /\ v <> undefined) (collection st1)) in Hwf.
  rewrite Hc3, Hc2, map_map. apply map_ext_in. intros v Hv%list_elem_of_In.
  rewrite Forall_forall in Hwf. by apply normal_idempotent, Hwf.
Qed.

(** ** What each event leaves alone *)

Lemma parseContent_frame input st :
  searchTerm (parseContent input st) = searchTerm st
  /\ editingMessage (parseContent input st) = editingMessage st
  /\ editedContent (parseContent input st) = editedContent st.
Proof. unfold parseContent. by destruct (forEach _ _ _ _) as [[? ?] ?]. Qed.

Lemma startEditing_frame m st st' :
  startEditing m st = Some st' ->
  heap st' = heap st /\ conversations st' = conversations st
  /\ selectedConversation st' = selectedConversation st
  /\ searchTerm st' = searchTerm st /\ errors st' = errors st
  /\ editingMessage st' = Some m
  /\ exists selected messages message,
       read (heap st) (selectedConversation st) = Some selected
       /\ get_named selected (str "messages") = Some (VArray messages)
       /\ messages !! m = Some message
       /\ get_named message (str "content") = Some (editedContent st').
Proof.
  unfold startEditing.
  destruct (read _ _) as [selected|]; [|done]. simpl.
  destruct (get_named selected _) as [[q|messages|o]|] eqn:Hmessages; try done. simpl.
  destruct (messages !! m) as [message|] eqn:Hmessage; [|done]. simpl.
  destruct (get_named message _) as [draft|] eqn:Hdraft; [|done]. simpl.
  intros [= <-]. simpl. repeat split. by exists selected, messages, message.
Qed.

Lemma page_edit_frame c m st st' :
  Page.handleMessageEdit c m st = Some st' ->
  searchTerm st' = searchTerm st /\ errors st' = errors st
  /\ editingMessage st' = None /\ editedContent st' = VString [].
Proof.
  unfold Page.handleMessageEdit.
  destruct (Page.updateConversations _ _ _ _ _) as [[h1 convs]|]; [|done]. simpl.
  destruct (Page.updateSelected _ _ _ _) as [[h2 sel]|]; [|done]. simpl.
  by intros [= <-].
Qed.

(** The pencil returns for every message that the detail view shows. *)
Lemma startEditing_defined m st selected messages message :
  read (heap st) (selectedConversation st) = Some selected ->
  get_named selected (str "messages") = Some (VArray messages) ->
  messages !! m = Some message ->
  message <> undefined -> message <> VNull ->
  is_Some (startEditing m st).
Proof.
  intros Hs Hmessages Hm Hu Hn. unfold startEditing.
  rewrite Hs. simpl. rewrite Hmessages. simpl. rewrite Hm. simpl.
  by destruct message as [[]| |].
Qed.

(** X23. The cells that each event of page.tsx leaves alone, the effect
    that follows the handler included. An upload keeps the query, the edit
    target and the draft. A click on a conversation, a change of the query,
    the pencil and the text area keep the collection, its objects and the
    error list; the click sets the edit target to none, and neither the
    click nor the query touches the draft. The pencil keeps the selection,
    sets the edit target to its message and the draft to the content of
    that message, whatever that content is, a string or not; and it returns
    for every message of the selected conversation that is neither an empty
    slot nor [null]. A save keeps the query and the error list and resets
    the edit target and the draft. A download changes nothing, and it is the
    only event that produces an effect outside the component. *)
Theorem events_leave_the_rest `{CaseMapping} (ev : Page.event) (st st' : Store)
    (eff : list effect) :
  Page.dispatch ev st = Some (st', eff) ->
  match ev with
  | Page.Upload _ =>
      searchTerm st' = searchTerm st /\ editingMessage st' = editingMessage st
      /\ editedContent st' = editedContent st
  | Page.Select _ =>
      heap st' = heap st /\ conversations st' = conversations st
      /\ searchTerm st' = searchTerm st /\ errors st' = errors st
      /\ editingMessage st' = None /\ editedContent st' = editedContent st
  | Page.Search value =>
      heap st' = heap st /\ conversations st' = conversations st
      /\ searchTerm st' = value /\ errors st' = errors st
      /\ editingMessage st' = editingMessage st /\ editedContent st' = editedContent st
  | Page.Pencil m =>
      heap st' = heap st /\ conversations st' = conversations st
      /\ selectedConversation st' = selectedConversation st
      /\ searchTerm st' = searchTerm st /\ errors st' = errors st
      /\ editingMessage st' = Some m
      /\ exists selected messages message,
           read (heap st) (selectedConversation st) = Some selected
           /\ get_named selected (str "messages") = Some (VArray messages)
           /\ messages !! m = Some message
           /\ get_named message (str "content") = Some (editedContent st')
  | Page.Type_ value =>
      heap st' = heap st /\ conversations st' = conversations st
      /\ selectedConversation st' = selectedConversation st
      /\ searchTerm st' = searchTerm st /\ errors st' = errors st
      /\ editingMessage st' = editingMessage st /\ editedContent st' = VString value
  | Page.Save _ =>
      searchTerm st' = searchTerm st /\ errors st' = errors st
      /\ editingMessage st' = None /\ editedContent st' = VString []
  | Page.Download => st' = st
  end
  /\ (eff <> [] -> ev = Page.Download)
  /\ (forall m selected messages message,
        read (heap st) (selectedConversation st) = Some selected ->
        get_named selected (str "messages") = Some (VArray messages) ->
        messages !! m = Some message ->
        message <> undefined -> message <> VNull ->
        is_Some (Page.dispatch (Page.Pencil m) st)).
Proof.
  intros Hev. split; [|split].
  - revert Hev. destruct ev as [input|index|value|m|value|m|]; simpl.
    + destruct (autoSelect _) as [st1|] eqn:E; [|done]. simpl. intros [= <- <-].
      apply autoSelect_frame in E as (_ & _ & -> & _ & -> & ->).
      apply parseContent_frame.
    + destruct (autoSelect _) as [st1|] eqn:E; [|done]. simpl. intros [= <- <-].
      apply autoSelect_frame in E as (-> & -> & -> & -> & -> & ->). done.
    + destruct (autoSelect _) as [st1|] eqn:E; [|done]. simpl. intros [= <- <-].
      apply autoSelect_frame in E as (-> & -> & -> & -> & -> & ->). done.
    + destruct (startEditing m st) as [st1|] eqn:E; [|done]. simpl. intros [= <- <-].
      by apply startEditing_frame in E.
    + by intros [= <- <-].
    + destruct (Page.saveClick m st) as [st1|] eqn:E1; [|done]. simpl.
      destruct (autoSelect st1) as [st2|] eqn:E2; [|done]. simpl. intros [= <- <-].
      apply autoSelect_frame in E2 as (_ & _ & -> & -> & -> & ->).
      apply page_edit_frame in E1 as (-> & -> & -> & ->). done.
    + by intros [= <- <-].
  - revert Hev. destruct ev as [input|index|value|m|value|m|]; simpl; try done.
    + destruct (autoSelect _) as [st1|]; [|done]. simpl. by intros [= _ <-].
    + destruct (autoSelect _) as [st1|]; [|done]. simpl. by intros [= _ <-].
    + destruct (autoSelect _) as [st1|]; [|done]. simpl. by intros [= _ <-].
    + destruct (startEditing m st) as [st1|]; [|done]. simpl. by intros [= _ <-].
    + by intros [= _ <-].
    + destruct (Page.saveClick m st) as [st1|]; [|done]. simpl.
      destruct (autoSelect st1) as [st2|]; [|done]. simpl. by intros [= _ <-].
  - intros m selected messages message Hs Hmessages Hm Hu Hn. simpl.
    destruct (startEditing_defined m st selected messages message Hs Hmessages Hm Hu Hn)
      as [st1 ->]. done.
Qed.

(** A pencil on a message whose content is the number 5. *)
Lemma events_leave_the_rest_witness :
  exists st1 st',
    @Page.dispatch latin1_case (Page.Upload number_text) initial = Some (st1, [])
    /\ @Page.dispatch latin1_case (Page.Pencil 0) st1 = Some (st', [])
    /\ conversations st' = conversations st1
    /\ editingMessage st' = Some 0
    /\ exists x, editedContent st' = VNumber x.
Proof.
  destruct (@Page.dispatch latin1_case (Page.Upload number_text) initial)
    as [[st1 eff1]|] eqn:E1; [|by vm_compute in E1].
  assert (eff1 = []) as -> by (vm_compute in E1; congruence).
  destruct (@Page.dispatch latin1_case (Page.Pencil 0) st1)
    as [[st' eff]|] eqn:E; [|injection E1 as <-; by vm_compute in E].
  destruct (@events_leave_the_rest latin1_case _ _ _ _ E)
    as ((_ & Hc & _ & _ & _ & Hm & _) & Heff & _).
  assert (eff = []) as ->.
  { destruct eff; [done|]. by specialize (Heff ltac:(done)). }
  exists st1, st'. split; [done|]. split; [done|]. split; [exact Hc|]. split; [exact Hm|].
  injection E1 as <-. vm_compute in E. injection E as <-. by eexists.
Defined.

(** ** Download, then upload *)

Lemma autoSelect_defined `{CaseMapping} st : store_ok st -> is_Some (autoSelect st).
Proof.
  intros Hok. destruct (filtered_defined st Hok) as (kept & Hf & _).
  unfold autoSelect. by rewrite Hf.
Qed.

(** X24. The file that page.tsx saves can be uploaded again. With at
    least one conversation the download saves one file,
    [conversations.jsonl], and changes nothing; an upload of that file, in
    whatever state, reports no error and gives the same number of
    conversations, each the normal form of the one that was exported. *)
Theorem download_then_upload `{CaseMapping} (st st0 : Store) :
  store_ok st ->
  conversations st <> [] ->
  Forall is_object (heap st0) ->
  exists blob st',
    Page.dispatch Page.Download st
    = Some (st, [SaveFile (str "conversations.jsonl") (str "application/json") blob])
    /\ Page.dispatch (Page.Upload blob) st0 = Some (st', [])
    /\ errors st' = []
    /\ collection st' = map JSON_normal (collection st)
    /\ length (conversations st') = length (conversations st).
Proof.
  intros Hok Hne Hh0.
  exists (export_text (heap st) (conversations st)).
  set (blob := export_text (heap st) (conversations st)).
  pose proof (parseContent_store_ok blob st0 Hh0) as Hok1.
  destruct (autoSelect_defined _ Hok1) as [st' Hst'].
  exists st'. split; [|split].
  - unfold Page.dispatch, Page.handleDownload.
    rewrite decide_False; [done|]. by destruct (conversations st).
  - unfold Page.dispatch, Page.handleFileUpload. by rewrite Hst'.
  - apply autoSelect_frame in Hst' as (Hheap & Hconvs & _ & Herr & _).
    destruct (import_of_export st st0 Hok) as [He Hc]. fold blob in He, Hc.
    assert (Hcoll : collection st' = collection (parseContent blob st0)).
    { unfold collection. by rewrite Hheap, Hconvs. }
    split; [by rewrite Herr|]. split; [by rewrite Hcoll|].
    destruct (parseContent_collection blob st0) as [Hlen _].
    rewrite Hconvs, <- Hlen, Hc, length_map.
    pose proof Hok as (Hh & Hl & _). unfold collection.
    by destruct (export_lines_serialize (heap st) (conversations st) Hh Hl) as [_ ->].
Qed.

Lemma download_then_upload_witness :
  exists blob st',
    @Page.dispatch latin1_case Page.Download (parseContent example_text initial)
    = Some (parseContent example_text initial,
            [SaveFile (str "conversations.jsonl") (str "application/json") blob])
    /\ @Page.dispatch latin1_case (Page.Upload blob) initial = Some (st', [])
    /\ errors st' = [].
Proof.
  destruct (@download_then_upload latin1_case (parseContent example_text initial) initial)
    as (blob & st' & Hd & Hu & He & _).
  - apply (parseContent_store_ok example_text initial). constructor.
  - vm_compute. congruence.
  - constructor.
  - by exists blob, st'.
Defined.

(** ** The selection after a save in page.tsx *)

(** X25. After a save in page.tsx the selection is a second copy of the
    edited conversation: another object than the one the collection holds
    at that position, which reads the same. *)
Theorem page_selection_is_a_copy (st : Store) (c m : nat) (r : ref)
    (o : list (jsstring * value)) (msgs : list value) :
  conversations st !! c = Some r ->
  read (heap st) r = Some (VObject o) ->
  lookup_property (str "messages") o = Some (VArray msgs) ->
  selectedConversation st = r ->
  exists st' conv,
    Page.handleMessageEdit (Z.of_nat c) m st = Some st'
    /\ conversations st' !! c = Some conv
    /\ selectedConversation st' <> conv
    /\ strict_equals (selectedConversation st') conv = false
    /\ read (heap st') (selectedConversation st') = read (heap st') conv
    /\ is_Some (read (heap st') conv).
Proof.
  intros Hc Hr Ho Hs.
  destruct (page_edit_result st c m r o msgs Hc Hr Ho (or_introl Hs))
    as (ext & sel & He & Hsel & _).
  destruct (Hsel Hs) as [-> ->].
  eexists _, (RObj (length (heap st))). split; [exact He|].
  cbn [heap conversations selectedConversation].
  split; [by rewrite list_lookup_insert_eq by (by eapply lookup_lt_Some)|].
  split; [intros [=]; lia|]. split; [simpl; apply bool_decide_eq_false; lia|].
  simpl. rewrite !lookup_app_r by lia.
  replace (S (length (heap st)) - length (heap st)) with 1 by lia.
  rewrite Nat.sub_diag. by split.
Qed.

Lemma page_selection_is_a_copy_witness :
  exists st' conv,
    Page.handleMessageEdit 0 0 example_store = Some st'
    /\ conversations st' !! 0 = Some conv
    /\ selectedConversation st' <> conv
    /\ read (heap st') (selectedConversation st') = read (heap st') conv.
Proof.
  destruct (page_selection_is_a_copy example_store 0 0 (RObj 0)
              [(str "messages", VArray [VObject [(str "role", VString (str "user"));
                                                 (str "content", VString (str "hi"))]])]
              [VObject [(str "role", VString (str "user"));
                        (str "content", VString (str "hi"))]])
    as (st' & conv & He & Hc & Hne & _ & Hr & _); [reflexivity..|].
  exists st', conv. split; [exact He|]. split; [exact Hc|]. split; [exact Hne|exact Hr].
Defined.

(** ** An export with the line ends of Windows *)

Lemma split_crlf lines :
  lines <> [] -> Forall (Forall (fun c => c <> 10%N)) lines ->
  exists pieces,
    split 10 (join [13%N; 10%N] lines) = pieces
    /\ Forall2 (fun piece text => piece = text \/ piece = text ++ [13%N]) pieces lines.
Proof.
  induction lines as [|x lines IH]; [done|]. intros _ Hall.
  inversion Hall as [|? ? Hx Hrest]; subst.
  destruct lines as [|y lines].
  - eexists. split; [reflexivity|]. simpl. rewrite split_no_separator by done.
    constructor; [by left|constructor].
  - destruct IH as (pieces & Hp & Hall2); [done|done|].
    eexists. split; [reflexivity|].
    change (join [13%N; 10%N] (x :: y :: lines))
      with (x ++ [13%N; 10%N] ++ join [13%N; 10%N] (y :: lines)).
    replace (x ++ [13%N; 10%N] ++ join [13%N; 10%N] (y :: lines))
      with ((x ++ [13%N]) ++ 10%N :: join [13%N; 10%N] (y :: lines))
      by (by rewrite <- app_assoc).
    rewrite split_app, Hp, split_no_separator.
    + constructor; [by right|done].
    + apply Forall_app. split; [done|]. by repeat constructor.
Qed.

Lemma classify_serialize_cr v : classify (serialize v ++ [13%N]) = Valid (JSON_normal v).
Proof.
  destruct (serialize_head v) as (c & t & Hv & Hc).
  unfold classify. rewrite decide_True.
  - unfold JSON_parse.
    rewrite (parse_value_serialize v _ [13%N]); [done| |done].
    pose proof (parse_fuel_bound v). rewrite length_app. simpl. lia.
  - rewrite Hv. cbn [app]. apply trim_cons_nonblank.
    by destruct (value_start_facts c Hc) as (_ & Hws & _).
Qed.

Lemma import_of_crlf_pieces pieces : forall vs,
  Forall2 (fun piece v => piece = serialize v \/ piece = serialize v ++ [13%N]) pieces vs ->
  parsed_values pieces = map JSON_normal vs
  /\ forall index, failed_lines index pieces = [].
Proof.
  induction pieces as [|piece pieces IH]; intros vs Hall.
  - apply Forall2_nil_inv_l in Hall as ->. done.
  - apply Forall2_cons_inv_l in Hall as (v & vs' & Hp & Hrest & ->).
    destruct (IH vs' Hrest) as [Hvals Herrs].
    assert (Hc : classify piece = Valid (JSON_normal v)).
    { destruct Hp as [->| ->]; [apply classify_serialize|apply classify_serialize_cr]. }
    split.
    + rewrite parsed_values_cons. unfold valid_value. rewrite Hc. simpl. by rewrite Hvals.
    + intros index. cbn [failed_lines]. unfold invalid_error. rewrite Hc. apply Herrs.
Qed.

(** X26. An export whose lines end with a carriage return and a line feed
    imports like the export itself: no error, and the normal form of every
    conversation, in order. *)
Theorem export_with_crlf_imports (st st0 : Store) :
  store_ok st ->
  let text := join [13%N; 10%N] (export_lines (heap st) (conversations st)) in
  errors (parseContent text st0) = []
  /\ collection (parseContent text st0) = map JSON_normal (collection st).
Proof.
  intros Hok text. pose proof Hok as (Hh & Hl & _).
  destruct (export_lines_serialize (heap st) (conversations st) Hh Hl) as [Hx _].
  destruct (parseContent_spec text st0) as (Hc & He & _). rewrite Hc, He.
  unfold text, collection. rewrite Hx.
  destruct (omap (read (heap st)) (conversations st)) as [|v vs] eqn:Hvs; [done|].
  destruct (split_crlf (map serialize (v :: vs))) as (pieces & Hp & Hall); [done| |].
  { apply Forall_fmap, Forall_forall. intros w _. simpl.
    apply printable_no_newline, printable_serialize. }
  rewrite Hp. apply Forall2_fmap_r in Hall.
  destruct (import_of_crlf_pieces pieces (v :: vs)) as [Hvals Herrs]; [|done].
  eapply Forall2_impl; [exact Hall|]. simpl. intros piece w [->| ->]; [by left|by right].
Qed.

Lemma export_with_crlf_imports_witness :
  store_ok example_store
  /\ errors (parseContent
               (join [13%N; 10%N]
                  (export_lines (heap example_store) (conversations example_store)))
               initial) = [].
Proof.
  assert (Hok : store_ok example_store).
  { split; [|split; [|vm_compute; lia]];
      [ change (heap example_store) with (heap (parseContent example_text initial))
      | change (conversations example_store) with [RObj 0; RObj 1] ];
      repeat constructor; try done; vm_compute; lia. }
  split; [exact Hok|]. apply (export_with_crlf_imports example_store initial Hok).
Defined.

(** ** The states that the events can reach *)

Lemma autoSelect_store_ok `{CaseMapping} st st' :
  store_ok st -> autoSelect st = Some st' -> store_ok st'.
Proof.
  intros Hok. destruct (filtered_defined st Hok) as (kept & Hf & Hsub).
  pose proof Hok as (Hh & Hl & Hs).
  unfold autoSelect. rewrite Hf. simpl. destruct kept as [|first rest]; [by intros [= <-]|].
  destruct (negb (ToBoolean (selectedConversation st))); intros [= <-]; [|done].
  split; [done|]. split; [done|]. simpl.
  rewrite Forall_forall in Hl. apply Hl. eapply sublist_elem; [done|left].
Qed.

Lemma page_edit_keeps_store_ok c m st st' :
  store_ok st -> Page.handleMessageEdit c m st = Some st' -> store_ok st'.
Proof.
  intros (Hh & Hl & Hs) Hedit.
  destruct (page_edit_shape _ _ _ _ Hedit)
    as (Hrange & (ext & Hheap & Hobj & Hne) & Hconvs & Hsel & _).
  split; [|split].
  - rewrite Hheap. by apply Forall_app.
  - rewrite Hconvs, Hheap. apply Forall_insert.
    + eapply Forall_impl; [exact Hl|]. simpl. intros r [Hr Hu]. split; [|done].
      by apply ref_ok_app.
    + split; [|done]. simpl. rewrite length_app. destruct ext; [done|]. simpl. lia.
  - destruct Hsel as [->|(loc & -> & Hloc)]; [|done].
    rewrite Hheap. by apply ref_ok_app.
Qed.

Lemma dispatch_keeps_store_ok `{CaseMapping} ev st st' eff :
  store_ok st -> Page.dispatch ev st = Some (st', eff) -> store_ok st'.
Proof.
  intros Hok. pose proof Hok as (Hh & Hl & Hs).
  destruct ev as [input|index|value|m|value|m|]; simpl.
  - destruct (autoSelect _) as [st1|] eqn:E; [|done]. simpl. intros [= <- _].
    eapply autoSelect_store_ok; [|done]. by apply parseContent_store_ok.
  - destruct (autoSelect _) as [st1|] eqn:E; [|done]. simpl. intros [= <- _].
    eapply autoSelect_store_ok; [|done]. by apply select_store_ok.
  - destruct (autoSelect _) as [st1|] eqn:E; [|done]. simpl. intros [= <- _].
    eapply autoSelect_store_ok; [|done]. done.
  - destruct (startEditing m st) as [st1|] eqn:E; [|done]. simpl. intros [= <- _].
    apply startEditing_frame in E as (Hh1 & Hc1 & Hs1 & _).
    unfold store_ok. by rewrite Hh1, Hc1, Hs1.
  - by intros [= <- _].
  - destruct (Page.saveClick m st) as [st1|] eqn:E1; [|done]. simpl.
    destruct (autoSelect st1) as [st2|] eqn:E2; [|done]. simpl. intros [= <- _].
    eapply autoSelect_store_ok; [|done]. by eapply page_edit_keeps_store_ok.
  - by intros [= <- _].
Qed.

Lemma run_keeps_store_ok `{CaseMapping} evs : forall st st',
  store_ok st -> Page.run evs st = Some st' -> store_ok st'.
Proof.
  induction evs as [|ev evs IH]; intros st st' Hok; simpl; [by intros [= <-]|].
  destruct (Page.dispatch ev st) as [[st1 eff]|] eqn:E; [|done]. simpl.
  apply IH. by eapply dispatch_keeps_store_ok.
Qed.

(** X27. Every state that the events of page.tsx reach from the initial
    state is well formed: each reference of the collection and of the
    selection points to an object of the store and no conversation is
    [undefined]; so the filter does not throw there, and the export has one
    line for each conversation. The runs go through every pencil that the
    page shows, on a content that is a string or not. *)
Theorem reachable_states_are_well_formed `{CaseMapping} (evs : list Page.event)
    (st : Store) :
  Page.run evs initial = Some st ->
  store_ok st
  /\ (exists kept, filteredConversations st = Some kept /\ sublist kept (conversations st))
  /\ length (export_lines (heap st) (conversations st)) = length (conversations st)
  /\ length (collection st) = length (conversations st).
Proof.
  intros Hrun.
  assert (Hok : store_ok st).
  { eapply run_keeps_store_ok; [|exact Hrun]. by repeat split. }
  split; [done|]. split; [by apply filtered_defined|].
  pose proof Hok as (Hh & Hl & _).
  destruct (export_lines_serialize (heap st) (conversations st) Hh Hl) as [-> Hlen].
  by rewrite length_map.
Qed.

(** A run through a pencil on a content that is a number, saved as it
    is, then through the scenario. *)
Lemma reachable_states_are_well_formed_witness :
  exists st,
    @Page.run latin1_case [Page.Upload number_text; Page.Pencil 0; Page.Save 0;
                           Page.Upload example_text; Page.Select 1; Page.Pencil 0;
                           Page.Type_ (str "bye"); Page.Save 0] initial = Some st
    /\ store_ok st.
Proof.
  destruct (@Page.run latin1_case [Page.Upload number_text; Page.Pencil 0; Page.Save 0;
                                   Page.Upload example_text; Page.Select 1; Page.Pencil 0;
                                   Page.Type_ (str "bye"); Page.Save 0] initial)
    as [st|] eqn:E; [|by vm_compute in E].
  exists st. split; [done|].
  by destruct (@reachable_states_are_well_formed latin1_case _ _ E) as [Hok _].
Defined.

(** X28. In a well-formed state an upload, a click on a conversation, a
    change of the query, a key in the text area and a download do not
    throw. *)
Theorem handlers_do_not_throw `{CaseMapping} (ev : Page.event) (st : Store) :
  store_ok st ->
  (forall m, ev <> Page.Pencil m) -> (forall m, ev <> Page.Save m) ->
  is_Some (Page.dispatch ev st).
Proof.
  intros Hok Hp Hs. pose proof Hok as (Hh & _).
  destruct ev as [input|index|value|m|value|m|];
    unfold Page.dispatch, Page.handleFileUpload.
  - destruct (autoSelect_defined (parseContent input st)) as [st1 ->]; [|done].
    by apply parseContent_store_ok.
  - destruct (autoSelect_defined (handleConversationSelect index st)) as [st1 ->]; [|done].
    by apply select_store_ok.
  - destruct (autoSelect_defined (handleSearchChange value st)) as [st1 ->]; done.
  - by destruct (Hp m).
  - done.
  - by destruct (Hs m).
  - done.
Qed.

Lemma handlers_do_not_throw_witness :
  is_Some (@Page.dispatch latin1_case (Page.Select 7) (parseContent example_text initial)).
Proof.
  apply (@handlers_do_not_throw latin1_case).
  - apply (parseContent_store_ok example_text initial). constructor.
  - intros m [=].
  - intros m [=].
Defined.

(** ** The selection in the second copy of the component *)

(** X29. In the second copy of the component the selection is valid
    after an upload and after every edit that returns: it is none, or it is
    one of the conversations of the collection, the very object. *)
Theorem editor_selection_stays_valid (ok : bool) (st st' : Store) (eff : list effect) :
  (exists input, JsonlEditor.handleFileUpload ok input st = (st', eff))
  \/ (exists c m, JsonlEditor.handleMessageEdit ok c m st = Some (st', eff)) ->
  selection_valid st'.
Proof.
  intros [[input Hu]|(c & m & He)].
  - unfold JsonlEditor.handleFileUpload in Hu. injection Hu as <- _.
    apply import_selection_valid.
  - by eapply jsonl_editor_selection_valid.
Qed.

Lemma editor_selection_stays_valid_witness :
  exists st' eff,
    JsonlEditor.handleMessageEdit true 0 0 example_store = Some (st', eff)
    /\ selection_valid st'.
Proof.
  destruct (JsonlEditor.handleMessageEdit true 0 0 example_store) as [[st' eff]|] eqn:E;
    [|by vm_compute in E].
  exists st', eff. split; [done|].
  apply (editor_selection_stays_valid true example_store st' eff).
  right. by exists 0%Z, 0.
Defined.

(** ** The download of the second copy of the component *)

(** X30. With at least one conversation, the download of the second copy
    of the component saves what the server answered, under the name
    [conversations.jsonl] and with the type of the answer, and shows one
    notification and saves nothing when the request fails; what it does is
    the same in every state with at least one conversation, so that the
    file never shows an edit that the server did not receive. *)
Theorem editor_download_is_the_server_copy (response : option (jsstring * jsstring))
    (st st2 : Store) :
  conversations st <> [] -> conversations st2 <> [] ->
  JsonlEditor.handleDownload response st = JsonlEditor.handleDownload response st2
  /\ length (JsonlEditor.handleDownload response st) = 1
  /\ (forall type blob, response = Some (type, blob) ->
        JsonlEditor.handleDownload response st
        = [SaveFile (str "conversations.jsonl") type blob])
  /\ (response = None ->
        forall e, e ∈ JsonlEditor.handleDownload response st ->
          exists variant title description, e = Toast variant title description).
Proof.
  intros Hne Hne2. unfold JsonlEditor.handleDownload.
  rewrite (decide_False (P := length (conversations st) = 0))
    by (by destruct (conversations st)).
  rewrite (decide_False (P := length (conversations st2) = 0))
    by (by destruct (conversations st2)).
  split; [done|]. split; [by destruct response as [[? ?]|]|].
  split; [by intros type blob ->|].
  intros -> e ->%list_elem_of_singleton. by do 3 eexists.
Qed.

Lemma editor_download_is_the_server_copy_witness :
  JsonlEditor.handleDownload (Some (str "text/plain", str "{}")) example_store
  = [SaveFile (str "conversations.jsonl") (str "text/plain") (str "{}")].
Proof.
  destruct (editor_download_is_the_server_copy (Some (str "text/plain", str "{}"))
              example_store example_store) as (_ & _ & Hsave & _);
    [vm_compute; congruence|vm_compute; congruence|].
  by apply Hsave.
Defined.
